(** * crlbot: the scrape / match / score / persist pipeline of [bot.py]

    A shallow embedding of the core of the bot: the rank table and the
    percentage computation of [PointManager], the matcher of
    [RoyaleAPIScraper], the trailing-comma cleanup of the extractor, the
    [Database] save and load, [update_user_accounts],
    [validate_player_tag], the [link] command and
    [update_points_for_leaderboard]; further the [unlink] command, the
    [points] and [linked_accounts] views, [create_leaderboard_embed] and
    [calculate_daily_orders].

    Conventions of the embedding.
    - Python [int] is [Z]; Python [str] is [string], read as ASCII text
      (case mapping, whitespace classes and the digits of [int()] are the
      ASCII ones).
    - Python [float] is a binary64 value, [spec_float] with precision 53
      and maximal exponent 1024.
    - A Python [dict] is an association list in insertion order, with the
      operations [dget], [dmem] and [dset].
    - Module-level globals ([player_data], [user_accounts]) are threaded
      as a [state]; the two data files are a [disk].
    - A raised exception is an explicit [Raise] outcome.
    - Discord replies, embeds and logging are left out; a command's reply
      is summarised by a small enumeration. *)

From Stdlib Require Import ZArith List String Ascii Bool Lia.
From Stdlib Require Import DecimalString DecimalZ.
From Stdlib Require Import Floats.SpecFloat.
From Stdlib Require Import Permutation Sorted.
Import ListNotations.

Set Warnings "-register-all".

Open Scope string_scope.
Open Scope list_scope.
Open Scope Z_scope.

(** ** Exceptions and outcomes *)

Inductive exn : Type :=
| ValueError | TypeError | OverflowError | ZeroDivisionError | KeyError
| AttributeError.

Inductive outcome (A : Type) : Type :=
| Return (a : A)
| Raise (e : exn).

Arguments Return {A} a.
Arguments Raise {A} e.

Definition bind {A B : Type} (m : outcome A) (k : A -> outcome B) : outcome B :=
  match m with
  | Return a => k a
  | Raise e => Raise e
  end.

Notation "x <- m ;; k" := (bind m (fun x => k))
  (at level 61, m at next level, right associativity).

(** ** Dictionaries *)

(** Key equality, the [==] of hashable keys. *)
Class EqKey (K : Type) : Type := keq : K -> K -> bool.

#[export] Instance EqKey_string : EqKey string := String.eqb.

#[export] Instance EqKey_Z : EqKey Z := Z.eqb.

(** Key equality decides equality. *)
Class EqKeyLaws (K : Type) `{EqKey K} : Prop :=
  keq_eq : forall a b : K, keq a b = true <-> a = b.

Section Dict.
Context {K V : Type} `{EqKey K}.

Definition dict : Type := list (K * V).

(** [d.get(k)] *)
Fixpoint dget (d : dict) (k : K) : option V :=
  match d with
  | [] => None
  | (k', v) :: d' => if keq k k' then Some v else dget d' k
  end.

(** [k in d] *)
Definition dmem (d : dict) (k : K) : bool :=
  match dget d k with Some _ => true | None => false end.

(** [d[k] = v]: an existing key keeps its place, a new key goes last. *)
Fixpoint dset (d : dict) (k : K) (v : V) : dict :=
  match d with
  | [] => [(k, v)]
  | (k', v') :: d' =>
      if keq k k' then (k', v) :: d' else (k', v') :: dset d' k v
  end.

Definition dkeys (d : dict) : list K := map fst d.

(** The dictionary built from a sequence of pairs: a repeated key keeps
    its first place and takes its last value. *)
Definition from_pairs (l : list (K * V)) : dict :=
  fold_left (fun d kv => dset d (fst kv) (snd kv)) l [].

(** A list of pairs is a dictionary when no key occurs twice. *)
Fixpoint unique_keys (d : dict) : bool :=
  match d with
  | [] => true
  | (k, _) :: d' => negb (dmem d' k) && unique_keys d'
  end.

Definition is_dict (d : dict) : Prop := unique_keys d = true.
End Dict.

Arguments dict K V : clear implicits.

(** ** PointManager: the rank table *)

Definition POINT_SYSTEM : dict Z Z :=
  [(1, 20); (2, 14); (3, 12); (4, 10); (5, 8); (6, 6); (7, 4); (8, 2)].

(** [PointManager.calculate_points]: [POINT_SYSTEM.get(rank, 0)]. *)
Definition calculate_points (rank : Z) : Z :=
  match dget POINT_SYSTEM rank with
  | Some p => p
  | None => 0
  end.

(** ** Python strings (ASCII) *)

Definition code (c : ascii) : N := N_of_ascii c.

Definition is_lower (c : ascii) : bool := ((97 <=? code c) && (code c <=? 122))%N.

Definition is_digit (c : ascii) : bool := ((48 <=? code c) && (code c <=? 57))%N.

Definition digit_value (c : ascii) : Z := Z.of_N (code c) - 48.

(** [Py_ISSPACE], the whitespace [int()] strips: tab, line feed, vertical
    tab, form feed, carriage return and space. *)
Definition is_space (c : ascii) : bool :=
  (((9 <=? code c) && (code c <=? 13)) || (code c =? 32))%N.

(** The class [\s] of [re] on [str]: the above and the four separators
    0x1c to 0x1f. *)
Definition is_re_space (c : ascii) : bool :=
  (is_space c || ((28 <=? code c) && (code c <=? 31)))%N.

Definition upper_char (c : ascii) : ascii :=
  if is_lower c then ascii_of_N (code c - 32) else c.

(** [s.upper()] *)
Fixpoint upper (s : string) : string :=
  match s with
  | EmptyString => EmptyString
  | String c s' => String (upper_char c) (upper s')
  end.

(** [s.replace(ch, '')] for a one-character [ch] *)
Fixpoint remove_char (ch : ascii) (s : string) : string :=
  match s with
  | EmptyString => EmptyString
  | String c s' =>
      if Ascii.eqb c ch then remove_char ch s' else String c (remove_char ch s')
  end.

(** [tag.replace('#', '').upper()], the normalisation used by the matcher
    and by the link and unlink commands. *)
Definition normalize_tag (tag : string) : string := upper (remove_char "#" tag).

Fixpoint all_chars (p : ascii -> bool) (s : string) : bool :=
  match s with
  | EmptyString => true
  | String c s' => p c && all_chars p s'
  end.

Fixpoint lstrip (s : string) : string :=
  match s with
  | EmptyString => EmptyString
  | String c s' => if is_space c then lstrip s' else s
  end.

(** The digit loop of [int(str)]: decimal digits, a single underscore
    allowed between two digits.  Returns the value read and the text left. *)
Fixpoint digits_loop (acc : Z) (after_underscore : bool) (s : string)
  : option (Z * string) :=
  match s with
  | EmptyString => if after_underscore then None else Some (acc, s)
  | String c s' =>
      if is_digit c then digits_loop (10 * acc + digit_value c) false s'
      else if Ascii.eqb c "_" then
        if after_underscore then None else digits_loop acc true s'
      else if after_underscore then None else Some (acc, s)
  end.

Definition starts_with_digit (s : string) : bool :=
  match s with
  | String c _ => is_digit c
  | EmptyString => false
  end.

Definition split_sign (s : string) : bool * string :=
  match s with
  | String c s' =>
      if Ascii.eqb c "-" then (true, s')
      else if Ascii.eqb c "+" then (false, s')
      else (false, s)
  | EmptyString => (false, s)
  end.

(** [int(s)] for a string [s] in base 10; [None] stands for [ValueError].
    (The limit on the number of digits that recent interpreters put on
    this conversion is not modelled.) *)
Definition int_of_str (s : string) : option Z :=
  let (neg, body) := split_sign (lstrip s) in
  if starts_with_digit body then
    match digits_loop 0 false body with
    | Some (n, rest) =>
        if all_chars is_space rest then Some (if neg then - n else n) else None
    | None => None
    end
  else None.

(** ** Python floats (binary64) *)

Definition prec : Z := 53.
Definition emax : Z := 1024.

Definition float := spec_float.

(** The float nearest to an integer, [float(n)]. *)
Definition float_of_Z (n : Z) : float := binary_normalize prec emax n 0 false.

(** [int(x)] for a float: truncation toward zero; not-a-number and the
    infinities raise. *)
Definition int_of_float (x : float) : outcome Z :=
  match x with
  | S754_nan => Raise ValueError
  | S754_infinity _ => Raise OverflowError
  | S754_zero _ => Return 0
  | S754_finite s m e =>
      let mag := if 0 <=? e then Z.shiftl (Zpos m) e else Z.shiftr (Zpos m) (- e) in
      Return (if s then - mag else mag)
  end.

(** [a / b] for two integers: the quotient correctly rounded to a float;
    [OverflowError] when it is too large for a float. *)
Definition true_divide (a b : Z) : outcome float :=
  if b =? 0 then Raise ZeroDivisionError
  else
    let neg := xorb (a <? 0) (b <? 0) in
    match Z.abs a, Z.abs b with
    | Zpos ma, Zpos mb =>
        match SFdiv prec emax (S754_finite neg ma 0) (S754_finite false mb 0) with
        | S754_infinity _ => Raise OverflowError
        | q => Return q
        end
    | _, _ => Return (S754_zero neg)
    end.

(** Nearest integer to [n / d] ([d] positive), ties to the even one. *)
Definition round_half_even (n d : Z) : Z :=
  let q := n / d in
  let r := n mod d in
  match 2 * r ?= d with
  | Lt => q
  | Gt => q + 1
  | Eq => if Z.even q then q else q + 1
  end.

(** The number of tenths nearest to the magnitude [m * 2^e]. *)
Definition tenths_of (m : positive) (e : Z) : Z :=
  if 0 <=? e then 10 * Z.shiftl (Zpos m) e
  else round_half_even (10 * Zpos m) (Z.shiftl 1 (- e)).

(** The float nearest to [k / 10], with sign [s]. *)
Definition float_of_tenths (s : bool) (k : Z) : float :=
  match k with
  | Zpos p => SFdiv prec emax (S754_finite s p 0) (S754_finite false 10 0)
  | _ => S754_zero s
  end.

(** [round(x, 1)]: the exact value of [x] is rounded to the nearest
    multiple of one tenth, a tie going to the even multiple, and the float
    nearest to that decimal is returned; zeros, infinities and
    not-a-number are returned unchanged. *)
Definition round1 (x : float) : float :=
  match x with
  | S754_finite s m e => float_of_tenths s (tenths_of m e)
  | _ => x
  end.

(** ** JSON values, as [json.loads] returns them *)

Inductive json : Type :=
| JNull
| JBool (b : bool)
| JInt (z : Z)
| JFloat (x : float)
| JStr (s : string)
| JList (l : list json)
| JObj (o : list (string * json)).

(** [int(v)] *)
Definition py_int (v : json) : outcome Z :=
  match v with
  | JInt z => Return z
  | JBool b => Return (if b then 1 else 0)
  | JFloat x => int_of_float x
  | JStr s => match int_of_str s with Some z => Return z | None => Raise ValueError end
  | JNull | JList _ | JObj _ => Raise TypeError
  end.

(** ** The registry and its persistence *)

(** An Identity Record, the value stored under a tag in [player_data]. *)
Record player : Type := {
  discord_id : Z;
  points : Z;
  name : string
}.

(** A key of [user_accounts]: the integer id that [link] and
    [update_user_accounts] use, or the string that [json.load] returns. *)
Inductive pykey : Type :=
| KInt (z : Z)
| KStr (s : string).

Definition pykey_eqb (a b : pykey) : bool :=
  match a, b with
  | KInt x, KInt y => Z.eqb x y
  | KStr x, KStr y => String.eqb x y
  | _, _ => false
  end.

#[export] Instance EqKey_pykey : EqKey pykey := pykey_eqb.

(** The two module-level globals. *)
Record state : Type := {
  player_data : dict string player;
  user_accounts : dict pykey (list string)
}.

Definition empty_state : state := {| player_data := []; user_accounts := [] |}.

(** [str(z)], the decimal text of an integer. *)
Definition str_of_Z (z : Z) : string := NilZero.string_of_int (Z.to_int z).

(** The key [json.dump] writes for a dictionary key. *)
Definition json_key (k : pykey) : string :=
  match k with
  | KInt z => str_of_Z z
  | KStr s => s
  end.

(** What a data file holds once parsed: a JSON object with the optional
    members [player_data] and [user_accounts].  Object keys are strings. *)
Record document : Type := {
  doc_player_data : option (dict string player);
  doc_user_accounts : option (dict string (list string))
}.

(** A data file: absent; present but failing to open, to parse or to be a
    JSON object; or holding a document. *)
Inductive file : Type :=
| Missing
| Garbled
| Holds (d : document).

(** [data/player_data.json] and [data/player_data_backup.json]. *)
Record disk : Type := {
  primary : file;
  backup : file
}.

Definition file_exists (f : file) : bool :=
  match f with
  | Missing => false
  | _ => true
  end.

(** The document read back from what [json.dump(data, f)] writes for
    [data = {'player_data': player_data, 'user_accounts': user_accounts}]:
    every key becomes a string, and of two members with the same key the
    parser keeps the place of the first and the value of the last. *)
Definition stored_keys (ua : dict pykey (list string)) : dict string (list string) :=
  map (fun kv => (json_key (fst kv), snd kv)) ua.

Definition dump_document (st : state) : document :=
  {| doc_player_data := Some (from_pairs (player_data st));
     doc_user_accounts := Some (from_pairs (stored_keys (user_accounts st))) |}.

(** What the environment does to a [save]: every operation succeeds, or
    one of them raises, leaving the disk as [after]. *)
Inductive io : Type :=
| IoOk
| IoFail (after : disk).

(** [Database.save_player_data]: copy the primary file over the backup if
    the primary exists, then write the document to the primary.  An
    exception is caught and logged. *)
Definition save_player_data (env : io) (st : state) (dk : disk) : disk :=
  match env with
  | IoOk =>
      {| primary := Holds (dump_document st);
         backup := if file_exists (primary dk) then primary dk else backup dk |}
  | IoFail after => after
  end.

(** [json.load(f)] followed by the two [data.get] of the loader. *)
Definition read_document (f : file) : outcome document :=
  match f with
  | Holds d => Return d
  | _ => Raise ValueError
  end.

Definition get_or {A : Type} (o : option A) (default : A) : A :=
  match o with
  | Some a => a
  | None => default
  end.

Definition loaded_keys (ua : dict string (list string)) : dict pykey (list string) :=
  map (fun kv => (KStr (fst kv), snd kv)) ua.

Definition state_of_document (d : document) : state :=
  {| player_data := get_or (doc_player_data d) [];
     user_accounts := loaded_keys (get_or (doc_user_accounts d) []) |}.

(** The body of the [try] block of [Database.load_player_data]. *)
Definition load_body (dk : disk) : outcome state :=
  if file_exists (primary dk) then
    d <- read_document (primary dk) ;; Return (state_of_document d)
  else if file_exists (backup dk) then
    d <- read_document (backup dk) ;; Return (state_of_document d)
  else Return empty_state.

(** [Database.load_player_data]: the globals after the call. *)
Definition load_player_data (dk : disk) : outcome state :=
  match load_body dk with
  | Return st => Return st
  | Raise _ => Return empty_state
  end.

(** One turn of the loop of [update_user_accounts]. *)
Definition index_step (ua : dict pykey (list string)) (entry : string * player)
  : dict pykey (list string) :=
  let player_tag := fst entry in
  let owner := KInt (discord_id (snd entry)) in
  let ua1 := if dmem ua owner then ua else dset ua owner [] in
  let tags := get_or (dget ua1 owner) [] in
  if existsb (String.eqb player_tag) tags then ua1
  else dset ua1 owner (tags ++ [player_tag])%list.

(** The Ownership Index computed from the Identity Records alone. *)
Definition rebuild_index (pd : dict string player) : dict pykey (list string) :=
  fold_left index_step pd [].

(** [update_user_accounts] *)
Definition update_user_accounts (st : state) : state :=
  {| player_data := player_data st;
     user_accounts := rebuild_index (player_data st) |}.

(** Start-up, in [on_ready] and under [__main__]:
    [Database.load_player_data()] then [update_user_accounts()]. *)
Definition startup (dk : disk) : outcome state :=
  st <- load_player_data dk ;; Return (update_user_accounts st).

(** ** Tag validation and the link command *)

Definition tag_alphabet : string := "0289PYLQGRJCUV".

Fixpoint char_in (c : ascii) (s : string) : bool :=
  match s with
  | EmptyString => false
  | String c' s' => Ascii.eqb c c' || char_in c s'
  end.

Definition in_tag_alphabet (c : ascii) : bool := char_in c tag_alphabet.

(** The longest prefix of characters satisfying [p]: its length and the
    text after it. *)
Fixpoint span (p : ascii -> bool) (s : string) : nat * string :=
  match s with
  | EmptyString => (O, s)
  | String c s' =>
      if p c then let (n, rest) := span p s' in (S n, rest) else (O, s)
  end.

Definition line_feed : ascii := ascii_of_N 10.

(** Where [$] matches without [re.MULTILINE]: at the end of the text, or
    just before a line feed that ends the text. *)
Definition dollar (s : string) : bool :=
  match s with
  | EmptyString => true
  | String c EmptyString => Ascii.eqb c line_feed
  | _ => false
  end.

(** [validate_player_tag]:
    [bool(re.match(r'^[0289PYLQGRJCUV]{3,}$', tag.upper()))]. *)
Definition validate_player_tag (tag : string) : bool :=
  let (n, rest) := span in_tag_alphabet (upper tag) in
  (3 <=? n)%nat && dollar rest.

Definition is_empty (s : string) : bool :=
  match s with
  | EmptyString => true
  | _ => false
  end.

(** The reply of the link command. *)
Inductive reply : Type :=
| InvalidTag
| AlreadyLinked
| Linked.

(** [link_slash], for the member with id [user_id] and display name
    [display_name]. *)
Definition link_slash (env : io) (player_tag : string) (user_id : Z)
    (display_name : string) (st : state) (dk : disk) : reply * state * disk :=
  let player_tag := normalize_tag player_tag in
  if is_empty player_tag || negb (validate_player_tag player_tag) then
    (InvalidTag, st, dk)
  else if dmem (player_data st) player_tag then
    (AlreadyLinked, st, dk)
  else
    let pd :=
      dset (player_data st) player_tag
        {| discord_id := user_id; points := 0; name := display_name |} in
    let owner := KInt user_id in
    let ua1 :=
      if dmem (user_accounts st) owner then user_accounts st
      else dset (user_accounts st) owner [] in
    let ua2 := dset ua1 owner (get_or (dget ua1 owner) [] ++ [player_tag])%list in
    let st' := {| player_data := pd; user_accounts := ua2 |} in
    (Linked, st', save_player_data env st' dk).

(** ** RoyaleAPIScraper: the matcher *)

(** A Rank-Match Result: [{'tag': ..., 'name': ..., 'rank': ...}]. *)
Record linked : Type := {
  lp_tag : string;
  lp_name : json;
  lp_rank : json
}.

(** [o.get(k, default)] on a JSON object *)
Definition obj_get (o : dict string json) (k : string) (default : json) : json :=
  get_or (dget o k) default.

(** Looking up the method [get]: only a [dict] has it. *)
Definition as_obj (v : json) : outcome (dict string json) :=
  match v with
  | JObj o => Return o
  | _ => Raise AttributeError
  end.

(** Looking up the method [replace]: only a [str] has it. *)
Definition as_str (v : json) : outcome string :=
  match v with
  | JStr s => Return s
  | _ => Raise AttributeError
  end.

(** The [for] loop of [find_linked_players_in_top_8]. *)
Fixpoint match_loop (pd : dict string player) (players : list json)
    (linked_players_found : list linked) : outcome (list linked) :=
  match players with
  | [] => Return linked_players_found
  | player :: rest =>
      o <- as_obj player ;;
      raw <- as_str (obj_get o "tag" (JStr EmptyString)) ;;
      let player_tag := normalize_tag raw in
      let player_name := obj_get o "name" (JStr "Unknown") in
      let rank := obj_get o "rank" (obj_get o "position" (JInt 0)) in
      if is_empty player_tag then match_loop pd rest linked_players_found
      else if dmem pd player_tag then
        match_loop pd rest
          (linked_players_found
             ++ [{| lp_tag := player_tag; lp_name := player_name; lp_rank := rank |}])%list
      else match_loop pd rest linked_players_found
  end.

(** [RoyaleAPIScraper.find_linked_players_in_top_8] *)
Definition find_linked_players_in_top_8 (players : list json)
    (pd : dict string player) : outcome (list linked) :=
  match_loop pd (firstn 8 players) [].

(** ** Applying the points of a batch *)

(** One entry of the list [update_points_for_leaderboard] returns. *)
Record update : Type := {
  u_tag : string;
  u_name : json;
  u_rank : Z;
  u_points_added : Z;
  u_total_points : Z
}.

Definition add_points (p : player) (delta : Z) : player :=
  {| discord_id := discord_id p; points := points p + delta; name := name p |}.

(** The [for] loop of [update_points_for_leaderboard]: the outcome and the
    value of [player_data] when the loop is left. *)
Fixpoint score_loop (linked_players : list linked) (pd : dict string player)
    (updates : list update) : outcome (list update) * dict string player :=
  match linked_players with
  | [] => (Return updates, pd)
  | player_info :: rest =>
      let player_tag := lp_tag player_info in
      match py_int (lp_rank player_info) with
      | Raise ValueError | Raise TypeError => score_loop rest pd updates
      | Raise e => (Raise e, pd)
      | Return rank =>
          let points_to_add := calculate_points rank in
          if 0 <? points_to_add then
            match dget pd player_tag with
            | None => (Raise KeyError, pd)
            | Some p =>
                let p' := add_points p points_to_add in
                score_loop rest (dset pd player_tag p')
                  (updates
                     ++ [{| u_tag := player_tag; u_name := lp_name player_info;
                            u_rank := rank; u_points_added := points_to_add;
                            u_total_points := points p' |}])%list
            end
          else score_loop rest pd updates
      end
  end.

(** What a call leaves behind: its outcome, the globals, the disk and the
    number of calls to [Database.save_player_data]. *)
Record run (A : Type) : Type := {
  result : outcome A;
  memory : state;
  files : disk;
  saves : nat
}.

Arguments result {A} r.
Arguments memory {A} r.
Arguments files {A} r.
Arguments saves {A} r.

Definition with_player_data (st : state) (pd : dict string player) : state :=
  {| player_data := pd; user_accounts := user_accounts st |}.

(** [update_points_for_leaderboard], given the list
    [get_linked_players_placements] returned. *)
Definition update_points_for_leaderboard (env : io) (linked_players : list linked)
    (st : state) (dk : disk) : run (list update) :=
  match linked_players with
  | [] => {| result := Return []; memory := st; files := dk; saves := 0 |}
  | _ =>
      let (r, pd) := score_loop linked_players (player_data st) [] in
      let st' := with_player_data st pd in
      match r with
      | Return [] => {| result := r; memory := st'; files := dk; saves := 0 |}
      | Return _ =>
          {| result := r; memory := st';
             files := save_player_data env st' dk; saves := 1 |}
      | Raise _ => {| result := r; memory := st'; files := dk; saves := 0 |}
      end
  end.

(** ** PointManager: order percentages *)

(** [sum(player_points.values())] *)
Definition sum_values (player_points : dict string Z) : Z :=
  fold_left (fun acc kv => acc + snd kv) player_points 0.

(** The [for] loop of [calculate_order_percentages]. *)
Fixpoint percent_loop (items : list (string * Z)) (total_points : Z)
    (percentages : dict string float) : outcome (dict string float) :=
  match items with
  | [] => Return percentages
  | (player_tag, pts) :: rest =>
      q <- true_divide pts total_points ;;
      let percentage := SFmul prec emax q (float_of_Z 100) in
      percent_loop rest total_points (dset percentages player_tag (round1 percentage))
  end.

(** [PointManager.calculate_order_percentages] *)
Definition calculate_order_percentages (player_points : dict string Z)
  : outcome (dict string float) :=
  let total_points := sum_values player_points in
  if total_points =? 0 then Return []
  else percent_loop player_points total_points [].

(** ** The extractor's trailing-comma cleanup *)

(** The number of characters [\s*] followed by [close] takes at the start
    of the text, if it matches there. *)
Fixpoint spaces_then (close : ascii) (s : string) : option nat :=
  match s with
  | EmptyString => None
  | String c s' =>
      if is_re_space c then option_map S (spaces_then close s')
      else if Ascii.eqb c close then Some 1%nat
      else None
  end.

(** [re.sub(r',\s*' + close, close, s)] for [close] one of the two closing
    brackets: the text is scanned from the left; where the pattern
    matches, [close] is written and the scan resumes after the match
    ([skip] counts the characters of the match still to pass); elsewhere
    the character is copied. *)
Fixpoint sub_comma (close : ascii) (skip : nat) (s : string) : string :=
  match s with
  | EmptyString => EmptyString
  | String c s' =>
      match skip with
      | S k => sub_comma close k s'
      | O =>
          if Ascii.eqb c "," then
            match spaces_then close s' with
            | Some n => String close (sub_comma close n s')
            | None => String c (sub_comma close 0 s')
            end
          else String c (sub_comma close 0 s')
      end
  end.

(** The two substitutions of [extract_player_data_from_json] that precede
    [json.loads]. *)
Definition cleanup (json_str : string) : string :=
  sub_comma "}" 0 (sub_comma "]" 0 json_str).

(** ** Notions used in the statements *)

(** The pattern [,\s*close] matches somewhere in the text. *)
Fixpoint comma_before (close : ascii) (s : string) : bool :=
  match s with
  | EmptyString => false
  | String c s' =>
      (Ascii.eqb c ","
       && match spaces_then close s' with Some _ => true | None => false end)
      || comma_before close s'
  end.

(** Already-clean text: no comma is followed, across optional whitespace,
    by a closing [']'] or ['}']. *)
Definition clean (s : string) : bool :=
  negb (comma_before "]" s) && negb (comma_before "}" s).

(** A scraped record the matcher can read: an object whose [tag], when
    present, is a string. *)
Definition record_ok (player : json) : bool :=
  match player with
  | JObj o =>
      match dget o "tag" with
      | Some (JStr _) | None => true
      | Some _ => false
      end
  | _ => false
  end.

(** The normalised tag of a scraped record. *)
Definition tag_of (player : json) : string :=
  match player with
  | JObj o =>
      match obj_get o "tag" (JStr EmptyString) with
      | JStr raw => normalize_tag raw
      | _ => EmptyString
      end
  | _ => EmptyString
  end.

(** The rank of a scraped record: the [rank] member, else the [position]
    member, else 0. *)
Definition rank_of (player : json) : json :=
  match player with
  | JObj o =>
      match dget o "rank" with
      | Some r => r
      | None => match dget o "position" with Some r => r | None => JInt 0 end
      end
  | _ => JInt 0
  end.

Definition name_of (player : json) : json :=
  match player with
  | JObj o => obj_get o "name" (JStr "Unknown")
  | _ => JStr "Unknown"
  end.

(** The match emitted for a scraped record. *)
Definition as_match (player : json) : linked :=
  {| lp_tag := tag_of player; lp_name := name_of player; lp_rank := rank_of player |}.

(** The matcher as the specification words it: among the first 8 records,
    exactly those whose normalised tag is a key of the registry. *)
Definition matches_by_key (players : list json) (pd : dict string player)
  : list linked :=
  map as_match (filter (fun p => dmem pd (tag_of p)) (firstn 8 players)).

(** The matcher as the code has it: the normalised tag must also be
    non-empty. *)
Definition matches_by_nonempty_key (players : list json) (pd : dict string player)
  : list linked :=
  map as_match
    (filter (fun p => negb (is_empty (tag_of p)) && dmem pd (tag_of p))
       (firstn 8 players)).

(** A tag of the Identity Registry: characters of the tag alphabet only,
    at least 3 of them. *)
Definition well_formed_tag (t : string) : bool :=
  all_chars in_tag_alphabet t && (3 <=? String.length t)%nat.

(** The share [100 * pts / total] in tenths, rounded half-up
    ([total] positive, [pts] not negative). *)
Definition half_up_tenths (pts total : Z) : Z :=
  (2000 * pts + total) / (2 * total).

(** The entry [calculate_order_percentages] computes for one owner. *)
Definition share (pts total_points : Z) : outcome float :=
  q <- true_divide pts total_points ;;
  Return (round1 (SFmul prec emax q (float_of_Z 100))).

(** The entries for a sequence of owners, stopping at the first division
    that raises. *)
Fixpoint shares (items : list (string * Z)) (total_points : Z)
  : outcome (dict string float) :=
  match items with
  | [] => Return []
  | (owner, pts) :: rest =>
      x <- share pts total_points ;;
      xs <- shares rest total_points ;;
      Return ((owner, x) :: xs)
  end.

(** [tag] is listed under [owner] in the Ownership Index. *)
Definition owns (ua : dict pykey (list string)) (owner : pykey) (tag : string) : Prop :=
  exists tags, dget ua owner = Some tags /\ In tag tags.

(** The persisted form of an index key, as [load_player_data] returns it. *)
Definition loaded_key (k : pykey) : pykey := KStr (json_key k).

(** Every key of the index is an integer id, as [link] and
    [update_user_accounts] leave it. *)
Definition int_keys (ua : dict pykey (list string)) : bool :=
  forallb (fun kv => match fst kv with KInt _ => true | KStr _ => false end) ua.

Definition int_keyed (ua : dict pykey (list string)) : Prop :=
  forall k, In k (dkeys ua) -> exists z, k = KInt z.

(** The shape of the globals while the bot runs: two dictionaries, the
    index keyed by integer ids. *)
Definition state_ok (st : state) : Prop :=
  is_dict (player_data st) /\ is_dict (user_accounts st)
  /\ int_keys (user_accounts st) = true.

(** ** Deleting from dictionaries and lists *)

Section DictDelete.
Context {K V : Type} `{EqKey K}.

(** [del d[k]], for a key of [d] *)
Fixpoint ddel (d : dict K V) (k : K) : dict K V :=
  match d with
  | [] => []
  | (k', v) :: d' => if keq k k' then d' else (k', v) :: ddel d' k
  end.
End DictDelete.

(** [tags.remove(tag)], for an element of [tags]: its first occurrence
    goes. *)
Fixpoint remove_first (tag : string) (tags : list string) : list string :=
  match tags with
  | [] => []
  | t :: rest => if String.eqb tag t then rest else t :: remove_first tag rest
  end.

(** ** The unlink command *)

Inductive unlink_reply : Type :=
| NotLinked
| Unlinked.

(** [unlink_slash] *)
Definition unlink_slash (env : io) (player_tag : string) (st : state) (dk : disk)
  : unlink_reply * state * disk :=
  let player_tag := normalize_tag player_tag in
  match dget (player_data st) player_tag with
  | None => (NotLinked, st, dk)
  | Some p =>
      let owner := KInt (discord_id p) in
      let pd := ddel (player_data st) player_tag in
      let ua :=
        match dget (user_accounts st) owner with
        | Some tags =>
            if existsb (String.eqb player_tag) tags then
              match remove_first player_tag tags with
              | [] => ddel (user_accounts st) owner
              | left_tags => dset (user_accounts st) owner left_tags
              end
            else user_accounts st
        | None => user_accounts st
        end in
      let st' := {| player_data := pd; user_accounts := ua |} in
      (Unlinked, st', save_player_data env st' dk)
  end.

(** ** The account views *)

(** What [points_slash] and [linked_accounts_slash] put in their reply. *)
Inductive summary : Type :=
| NoAccounts
| Accounts (total_points : Z) (account_count : nat) (accounts_info : list (string * Z)).

(** The loop of [points_slash] over the tags of the user. *)
Fixpoint accounts_loop (pd : dict string player) (user_tags : list string)
    (total_points : Z) (accounts_info : list (string * Z))
  : outcome (Z * list (string * Z)) :=
  match user_tags with
  | [] => Return (total_points, accounts_info)
  | tag :: rest =>
      match dget pd tag with
      | None => Raise KeyError
      | Some p =>
          accounts_loop pd rest (total_points + points p)
            (accounts_info ++ [(tag, points p)])
      end
  end.

(** [points_slash] for the user with id [user_id];
    [linked_accounts_slash] runs the same code for the member it is
    given. *)
Definition points_slash (user_id : Z) (st : state) : outcome summary :=
  match dget (user_accounts st) (KInt user_id) with
  | None | Some [] => Return NoAccounts
  | Some user_tags =>
      r <- accounts_loop (player_data st) user_tags 0 [] ;;
      Return (Accounts (fst r) (List.length user_tags) (snd r))
  end.

(** [sum(player_data[tag]["points"] for tag in tags)] *)
Fixpoint sum_points (pd : dict string player) (tags : list string) (acc : Z)
  : outcome Z :=
  match tags with
  | [] => Return acc
  | tag :: rest =>
      match dget pd tag with
      | None => Raise KeyError
      | Some p => sum_points pd rest (acc + points p)
      end
  end.

(** The loop that fills [user_totals] in [create_leaderboard_embed] and in
    [calculate_daily_orders]. *)
Fixpoint totals_loop (pd : dict string player)
    (items : list (pykey * list string)) (user_totals : dict pykey Z)
  : outcome (dict pykey Z) :=
  match items with
  | [] => Return user_totals
  | (user_id, tags) :: rest =>
      total_points <- sum_points pd tags 0 ;;
      totals_loop pd rest (dset user_totals user_id total_points)
  end.

Definition user_totals (st : state) : outcome (dict pykey Z) :=
  totals_loop (player_data st) (user_accounts st) [].

(** ** Sorting *)

Section Sorting.
Context {A : Type}.
Variable lt : A -> A -> bool.

Fixpoint insert_desc (x : A) (l : list A) : list A :=
  match l with
  | [] => [x]
  | y :: l' => if lt x y then y :: insert_desc x l' else x :: l
  end.

(** [sorted(l, key=..., reverse=True)] where [lt] compares the keys: the
    greatest first, equal keys in the order they had. *)
Fixpoint sorted_desc (l : list A) : list A :=
  match l with
  | [] => []
  | x :: l' => insert_desc x (sorted_desc l')
  end.
End Sorting.

(** ** The leaderboard *)

(** One entry of the leaderboard text: place, user, total, number of
    accounts and, for a user with at most 3 accounts, the points of
    each. *)
Record board_row : Type := {
  br_place : nat;
  br_user : pykey;
  br_total_points : Z;
  br_account_count : nat;
  br_details : option (list (string * Z))
}.

Inductive board : Type :=
| NoPlayers
| TopPlayers (rows : list board_row).

(** The details line: [player_data[tag]["points"]] for each tag. *)
Fixpoint details_loop (pd : dict string player) (tags : list string)
    (account_details : list (string * Z)) : outcome (list (string * Z)) :=
  match tags with
  | [] => Return account_details
  | tag :: rest =>
      match dget pd tag with
      | None => Raise KeyError
      | Some p => details_loop pd rest (account_details ++ [(tag, points p)])
      end
  end.

(** The loop over [enumerate(sorted_users[:10], 1)]; [get_user] tells
    whether [bot.get_user] finds the user. *)
Fixpoint board_loop (get_user : pykey -> bool) (st : state)
    (sorted_users : list (pykey * Z)) (i : nat) (rows : list board_row)
  : outcome (list board_row) :=
  match sorted_users with
  | [] => Return rows
  | (user_id, total_points) :: rest =>
      if get_user user_id then
        match dget (user_accounts st) user_id with
        | None => Raise KeyError
        | Some tags =>
            let account_count := List.length tags in
            details <-
              (if (account_count <=? 3)%nat then
                 d <- details_loop (player_data st) tags [] ;; Return (Some d)
               else Return None) ;;
            board_loop get_user st rest (S i)
              (rows ++ [{| br_place := i; br_user := user_id;
                           br_total_points := total_points;
                           br_account_count := account_count;
                           br_details := details |}])
        end
      else board_loop get_user st rest (S i) rows
  end.

(** [create_leaderboard_embed] *)
Definition create_leaderboard_embed (get_user : pykey -> bool) (st : state)
  : outcome board :=
  totals <- user_totals st ;;
  let sorted_users := sorted_desc (fun x y => snd x <? snd y) totals in
  match sorted_users with
  | [] => Return NoPlayers
  | _ =>
      rows <- board_loop get_user st (firstn 10 sorted_users) 1 [] ;;
      Return (TopPlayers rows)
  end.

(** ** The daily orders *)

(** A Python number that starts as the integer 0 and becomes a float once
    a float is added to it. *)
Inductive number : Type :=
| NInt (z : Z)
| NFloat (x : float).

(** [n + x] for a float [x] *)
Definition number_add (n : number) (x : float) : float :=
  match n with
  | NInt z => SFadd prec emax (float_of_Z z) x
  | NFloat y => SFadd prec emax y x
  end.

(** [round(100 - n, 1)] *)
Definition remaining_of (n : number) : number :=
  match n with
  | NInt z => NInt (100 - z)
  | NFloat y => NFloat (round1 (SFsub prec emax (float_of_Z 100) y))
  end.

(** The float written [0.7]. *)
Definition seven_tenths : float := float_of_tenths false 7.

Record order_row : Type := {
  or_place : nat;
  or_user : pykey;
  or_total_points : Z;
  or_account_count : nat;
  or_orders : float
}.

Record orders_report : Type := {
  order_rows : list order_row;
  total_orders_percentage : number;
  remaining : number
}.

(** The loop that fills [user_percentages]. *)
Fixpoint user_percent_loop (items : list (pykey * Z)) (total_points : Z)
    (user_percentages : dict pykey float) : outcome (dict pykey float) :=
  match items with
  | [] => Return user_percentages
  | (user_id, pts) :: rest =>
      q <- true_divide pts total_points ;;
      let percentage := SFmul prec emax q (float_of_Z 100) in
      user_percent_loop rest total_points
        (dset user_percentages user_id (round1 percentage))
  end.

(** The loop over [enumerate(sorted_percentages, 1)]. *)
Fixpoint orders_loop (get_user : pykey -> bool) (st : state)
    (totals : dict pykey Z) (sorted_percentages : list (pykey * float))
    (i : nat) (rows : list order_row) (total_orders : number)
  : outcome (list order_row * number) :=
  match sorted_percentages with
  | [] => Return (rows, total_orders)
  | (user_id, percentage) :: rest =>
      if get_user user_id then
        let actual_percentage := round1 (SFmul prec emax percentage seven_tenths) in
        let total_orders' := NFloat (number_add total_orders actual_percentage) in
        match dget (user_accounts st) user_id, dget totals user_id with
        | Some tags, Some total_user_points =>
            orders_loop get_user st totals rest (S i)
              (rows ++ [{| or_place := i; or_user := user_id;
                           or_total_points := total_user_points;
                           or_account_count := List.length tags;
                           or_orders := actual_percentage |}])
              total_orders'
        | _, _ => Raise KeyError
        end
      else orders_loop get_user st totals rest (S i) rows total_orders
  end.

(** [calculate_daily_orders]: [None] when there is nothing to report. *)
Definition calculate_daily_orders (get_user : pykey -> bool) (st : state)
  : outcome (option orders_report) :=
  totals <- user_totals st ;;
  match totals with
  | [] => Return None
  | _ =>
      let total_points := fold_left (fun acc kv => acc + snd kv) totals 0 in
      user_percentages <- user_percent_loop totals total_points [] ;;
      let sorted_percentages :=
        sorted_desc (fun x y => SFltb (snd x) (snd y)) user_percentages in
      r <- orders_loop get_user st totals sorted_percentages 1 [] (NInt 0) ;;
      Return (Some {| order_rows := fst r;
                      total_orders_percentage := snd r;
                      remaining := remaining_of (snd r) |})
  end.

(** ** Further notions used in the statements *)

(** The Ownership Index agrees with the Identity Records: both are
    dictionaries, no owner has an empty or a repeating list, and a tag is
    listed under an owner exactly when its record has that owner. *)
Definition index_consistent (st : state) : Prop :=
  is_dict (player_data st)
  /\ is_dict (user_accounts st)
  /\ (forall k tags, dget (user_accounts st) k = Some tags ->
        tags <> [] /\ NoDup tags)
  /\ (forall k t, owns (user_accounts st) k t
        <-> exists p, dget (player_data st) t = Some p
                      /\ k = KInt (discord_id p)).

(** The characters of a text other than commas and whitespace. *)
Fixpoint significant (s : string) : string :=
  match s with
  | EmptyString => EmptyString
  | String c s' =>
      if Ascii.eqb c "," || is_re_space c then significant s'
      else String c (significant s')
  end.

(** The points held by all the records. *)
Definition registry_points (pd : dict string player) : Z :=
  fold_left (fun acc kv => acc + points (snd kv)) pd 0.

(** The points a list of updates reports as added. *)
Definition points_added (updates : list update) : Z :=
  fold_left (fun acc u => acc + u_points_added u) updates 0.

(** The records [pd'] are those of [pd] with points added: the same tags
    in the same order, the same owner and name, no fewer points. *)
Definition grown (pd pd' : dict string player) : Prop :=
  Forall2 (fun e e' => fst e = fst e'
                       /\ discord_id (snd e) = discord_id (snd e')
                       /\ name (snd e) = name (snd e')
                       /\ points (snd e) <= points (snd e')) pd pd'.

(** What an entry of the list of updates says. *)
Definition sound_update (pd : dict string player) (u : update) : Prop :=
  dmem pd (u_tag u) = true
  /\ 1 <= u_rank u <= 8
  /\ u_points_added u = calculate_points (u_rank u)
  /\ 2 <= u_points_added u <= 20.

(** What the matcher emits: a non-empty tag, in normal form, that is a
    key of the registry. *)
Definition emitted_ok (pd : dict string player) (info : linked) : Prop :=
  is_empty (lp_tag info) = false
  /\ dmem pd (lp_tag info) = true
  /\ normalize_tag (lp_tag info) = lp_tag info.

(** The points of a tag, 0 for a tag without record. *)
Definition tag_points (pd : dict string player) (t : string) : Z :=
  match dget pd t with
  | Some p => points p
  | None => 0
  end.

(** The points of a list of tags. *)
Definition tags_points (pd : dict string player) (tags : list string) : Z :=
  fold_left (fun a t => a + tag_points pd t) tags 0.

(** What a row of the leaderboard says about its user's accounts. *)
Definition row_of (st : state) (r : board_row) : Prop :=
  exists tags,
    dget (user_accounts st) (br_user r) = Some tags
    /\ br_account_count r = List.length tags
    /\ br_details r
       = if (List.length tags <=? 3)%nat
         then Some (map (fun t => (t, tag_points (player_data st) t)) tags)
         else None.


(** ** Notions used in the statements on the loader, the matcher and the
    cleanup *)

(** The load the specification describes: the primary store when it can
    be read, else the backup when it can be read, else the empty
    registry. *)
Definition load_as_specified (dk : disk) : state :=
  match primary dk, backup dk with
  | Holds d, _ => state_of_document d
  | _, Holds d => state_of_document d
  | _, _ => empty_state
  end.

(** What [get_linked_players_placements] returns once the extractor has
    handed it [players]: the matches when there are records, and the
    empty list when there are none or when the matcher raises (its
    [except Exception] logs and returns [[]]). *)
Definition placements_of (players : list json) (pd : dict string player)
  : list linked :=
  match players with
  | [] => []
  | _ =>
      match find_linked_players_in_top_8 players pd with
      | Return linked_players => linked_players
      | Raise _ => []
      end
  end.

(** *** Strict JSON text

    The text of a JSON value after RFC 8259, which is what the
    specification means by valid JSON; [is_json] recognises it.  Such a
    text has no trailing comma: after a comma an array wants a value and
    an object wants a member. *)

Definition double_quote : ascii := ascii_of_N 34.

Definition backslash : ascii := ascii_of_N 92.

(** [s] between double quotes *)
Definition quoted (s : string) : string :=
  String double_quote (s ++ String double_quote EmptyString)%string.

Definition is_json_space (c : ascii) : bool :=
  ((code c =? 32) || (code c =? 9) || (code c =? 10) || (code c =? 13))%N.

Fixpoint skip_json_space (s : string) : string :=
  match s with
  | EmptyString => s
  | String c s' => if is_json_space c then skip_json_space s' else s
  end.

Definition is_hex (c : ascii) : bool :=
  (is_digit c || ((97 <=? code c) && (code c <=? 102))
   || ((65 <=? code c) && (code c <=? 70)))%N.

(** The characters that may follow a backslash, ['u'] apart. *)
Definition is_escape (c : ascii) : bool :=
  Ascii.eqb c double_quote || Ascii.eqb c backslash || char_in c "/bfnrt".

(** The text after the closing quote of the string literal whose opening
    quote has just been read. *)
Fixpoint json_string_rest (s : string) : option string :=
  match s with
  | EmptyString => None
  | String c s' =>
      if Ascii.eqb c double_quote then Some s'
      else if Ascii.eqb c backslash then
        match s' with
        | String e s'' =>
            if is_escape e then json_string_rest s''
            else if Ascii.eqb e "u" then
              match s'' with
              | String h1 (String h2 (String h3 (String h4 r))) =>
                  if is_hex h1 && is_hex h2 && is_hex h3 && is_hex h4
                  then json_string_rest r else None
              | _ => None
              end
            else None
        | EmptyString => None
        end
      else if (code c <? 32)%N then None
      else json_string_rest s'
  end.

Fixpoint skip_digits (s : string) : string :=
  match s with
  | EmptyString => s
  | String c s' => if is_digit c then skip_digits s' else s
  end.

Definition some_digits (s : string) : option string :=
  match s with
  | String c s' => if is_digit c then Some (skip_digits s') else None
  | EmptyString => None
  end.

Definition json_int_part (s : string) : option string :=
  match s with
  | String c s' =>
      if Ascii.eqb c "0" then Some s'
      else if is_digit c then Some (skip_digits s') else None
  | EmptyString => None
  end.

Definition json_frac_part (s : string) : option string :=
  match s with
  | String c s' => if Ascii.eqb c "." then some_digits s' else Some s
  | EmptyString => Some s
  end.

Definition json_exp_part (s : string) : option string :=
  match s with
  | String c s' =>
      if Ascii.eqb c "e" || Ascii.eqb c "E" then
        match s' with
        | String sign s'' =>
            if Ascii.eqb sign "+" || Ascii.eqb sign "-" then some_digits s''
            else some_digits s'
        | EmptyString => None
        end
      else Some s
  | EmptyString => Some s
  end.

(** The text after the number that starts [s]. *)
Definition json_number (s : string) : option string :=
  let body :=
    match s with
    | String c s' => if Ascii.eqb c "-" then s' else s
    | EmptyString => s
    end in
  match json_int_part body with
  | Some r =>
      match json_frac_part r with
      | Some r' => json_exp_part r'
      | None => None
      end
  | None => None
  end.

(** The text after the prefix [p] of [s]. *)
Fixpoint strip_prefix (p s : string) : option string :=
  match p with
  | EmptyString => Some s
  | String a p' =>
      match s with
      | String b s' => if Ascii.eqb a b then strip_prefix p' s' else None
      | EmptyString => None
      end
  end.

(** The text after the value that starts [s]; after the elements and the
    closing bracket of an array whose opening bracket, or comma, has just
    been read; and the same for the members of an object.  [fuel] bounds
    the number of nested calls. *)
Fixpoint json_value (fuel : nat) (s : string) : option string :=
  match fuel with
  | O => None
  | S fuel' =>
      match skip_json_space s with
      | EmptyString => None
      | String c r =>
          if Ascii.eqb c "[" then
            match skip_json_space r with
            | String c' r' =>
                if Ascii.eqb c' "]" then Some r' else json_elements fuel' r
            | EmptyString => None
            end
          else if Ascii.eqb c "{" then
            match skip_json_space r with
            | String c' r' =>
                if Ascii.eqb c' "}" then Some r' else json_members fuel' r
            | EmptyString => None
            end
          else if Ascii.eqb c double_quote then json_string_rest r
          else if Ascii.eqb c "t" then strip_prefix "rue" r
          else if Ascii.eqb c "f" then strip_prefix "alse" r
          else if Ascii.eqb c "n" then strip_prefix "ull" r
          else json_number (String c r)
      end
  end
with json_elements (fuel : nat) (s : string) : option string :=
  match fuel with
  | O => None
  | S fuel' =>
      match json_value fuel' s with
      | Some r =>
          match skip_json_space r with
          | String c r' =>
              if Ascii.eqb c "," then json_elements fuel' r'
              else if Ascii.eqb c "]" then Some r' else None
          | EmptyString => None
          end
      | None => None
      end
  end
with json_members (fuel : nat) (s : string) : option string :=
  match fuel with
  | O => None
  | S fuel' =>
      match skip_json_space s with
      | String q k =>
          if Ascii.eqb q double_quote then
            match json_string_rest k with
            | Some r =>
                match skip_json_space r with
                | String c v =>
                    if Ascii.eqb c ":" then
                      match json_value fuel' v with
                      | Some r' =>
                          match skip_json_space r' with
                          | String c' r'' =>
                              if Ascii.eqb c' "," then json_members fuel' r''
                              else if Ascii.eqb c' "}" then Some r'' else None
                          | EmptyString => None
                          end
                      | None => None
                      end
                    else None
                | EmptyString => None
                end
            | None => None
            end
          else None
      | EmptyString => None
      end
  end.

(** [s] is one JSON value, whitespace around it allowed. *)
Definition is_json (s : string) : bool :=
  match json_value (S (String.length s)) s with
  | Some r => is_empty (skip_json_space r)
  | None => false
  end.

(** * Properties *)

(** ** Dictionaries *)

#[export] Instance EqKeyLaws_string : EqKeyLaws string.
Proof. exact String.eqb_eq. Qed.

#[export] Instance EqKeyLaws_Z : EqKeyLaws Z.
Proof. exact Z.eqb_eq. Qed.

#[export] Instance EqKeyLaws_pykey : EqKeyLaws pykey.
Proof.
  intros [x|x] [y|y]; unfold keq, EqKey_pykey; simpl;
    try (split; discriminate).
  - rewrite Z.eqb_eq. split; congruence.
  - rewrite String.eqb_eq. split; congruence.
Qed.

Section DictFacts.
Context {K V : Type} `{EqKeyLaws K}.
Implicit Types (d : dict K V) (k : K) (v : V).

Lemma keq_spec k k' : reflect (k = k') (keq k k').
Proof. apply iff_reflect. symmetry. apply keq_eq. Qed.

Lemma keq_refl k : keq k k = true.
Proof. now apply keq_eq. Qed.

Lemma keq_neq k k' : k <> k' -> keq k k' = false.
Proof. intros Hne. destruct (keq_spec k k'); congruence. Qed.

Lemma dget_dset_same d k v : dget (dset d k v) k = Some v.
Proof.
  induction d as [|[k' v'] d IH]; simpl.
  - now rewrite keq_refl.
  - destruct (keq_spec k k') as [->|Hne]; simpl.
    + now rewrite keq_refl.
    + now rewrite (keq_neq _ _ Hne).
Qed.

Lemma dget_dset_other d k v k' : k' <> k -> dget (dset d k v) k' = dget d k'.
Proof.
  intros Hne. induction d as [|[k0 v0] d IH]; simpl.
  - now rewrite (keq_neq _ _ Hne).
  - destruct (keq_spec k k0) as [->|Hk]; simpl.
    + now rewrite (keq_neq _ _ Hne).
    + now rewrite IH.
Qed.

Lemma dmem_dset d k v k' : dmem (dset d k v) k' = keq k' k || dmem d k'.
Proof.
  unfold dmem. destruct (keq_spec k' k) as [->|Hne]; simpl.
  - now rewrite dget_dset_same.
  - now rewrite dget_dset_other.
Qed.

Lemma dmem_app d1 d2 k : dmem (d1 ++ d2) k = dmem d1 k || dmem d2 k.
Proof.
  unfold dmem. induction d1 as [|[k' v'] d1 IH]; simpl; [now destruct (dget d2 k)|].
  now destruct (keq k k').
Qed.

Lemma dmem_In d k : dmem d k = true <-> In k (dkeys d).
Proof.
  unfold dmem, dkeys. induction d as [|[k' v'] d IH]; simpl.
  - split; [discriminate|tauto].
  - destruct (keq_spec k k') as [->|Hne].
    + split; auto.
    + rewrite IH. split; [auto|]. intros [Heq|Hin]; [congruence|assumption].
Qed.

Lemma dget_In d k v : dget d k = Some v -> In (k, v) d.
Proof.
  induction d as [|[k' v'] d IH]; simpl; [discriminate|].
  destruct (keq_spec k k') as [->|Hne].
  - intros [= ->]. now left.
  - intros Hget. right. now apply IH.
Qed.

Lemma In_dget d k v : is_dict d -> In (k, v) d -> dget d k = Some v.
Proof.
  unfold is_dict. induction d as [|[k' v'] d IH]; simpl; [tauto|].
  intros Hu Hin. apply andb_true_iff in Hu. destruct Hu as [Hfresh Hu].
  apply negb_true_iff in Hfresh.
  destruct Hin as [[= -> ->]|Hin]; [now rewrite keq_refl|].
  destruct (keq_spec k k') as [->|Hne]; [|now apply IH].
  assert (Hmem : dmem d k' = true).
  { apply dmem_In. unfold dkeys. now apply (in_map fst) in Hin. }
  congruence.
Qed.

(** Assigning to a new key appends the entry. *)
Lemma dset_fresh d k v : dmem d k = false -> dset d k v = d ++ [(k, v)].
Proof.
  unfold dmem. induction d as [|[k' v'] d IH]; simpl; [reflexivity|].
  destruct (keq k k'); [discriminate|].
  intros Hno. now rewrite IH.
Qed.

Lemma dkeys_dset_present d k v : dmem d k = true -> dkeys (dset d k v) = dkeys d.
Proof.
  unfold dmem, dkeys. induction d as [|[k' v'] d IH]; simpl; [discriminate|].
  destruct (keq k k'); simpl; [reflexivity|].
  intros Hyes. now rewrite IH.
Qed.

Lemma unique_keys_app d1 d2 :
  unique_keys (d1 ++ d2) = true ->
  unique_keys d1 = true /\ unique_keys d2 = true
  /\ forall k, dmem d2 k = true -> dmem d1 k = false.
Proof.
  induction d1 as [|[k' v'] d1 IH]; simpl.
  - intros Hu. repeat split; auto.
  - intros Hu. apply andb_true_iff in Hu. destruct Hu as [Hfresh Hu].
    apply negb_true_iff in Hfresh. rewrite dmem_app in Hfresh.
    apply orb_false_iff in Hfresh. destruct Hfresh as [Hf1 Hf2].
    destruct (IH Hu) as (Hu1 & Hu2 & Hdisj).
    rewrite Hf1, Hu1. repeat split; auto.
    intros k Hk. unfold dmem; simpl.
    destruct (keq_spec k k') as [->|Hne]; [congruence|].
    now apply Hdisj.
Qed.

Lemma unique_keys_snoc d k v :
  unique_keys d = true -> dmem d k = false -> unique_keys (d ++ [(k, v)]) = true.
Proof.
  induction d as [|[k' v'] d IH]; simpl; [reflexivity|].
  intros Hu Hk. apply andb_true_iff in Hu. destruct Hu as [Hfresh Hu].
  unfold dmem in Hk; simpl in Hk.
  destruct (keq_spec k k') as [->|Hne]; [discriminate|].
  rewrite IH by assumption.
  rewrite dmem_app. apply negb_true_iff in Hfresh. rewrite Hfresh.
  unfold dmem; simpl. destruct (keq_spec k' k); [congruence|reflexivity].
Qed.

Lemma unique_keys_dset d k v : unique_keys d = true -> unique_keys (dset d k v) = true.
Proof.
  induction d as [|[k' v'] d IH]; simpl; [reflexivity|].
  intros Hu. apply andb_true_iff in Hu. destruct Hu as [Hfresh Hu].
  destruct (keq_spec k k') as [->|Hne]; simpl.
  - now rewrite Hfresh, Hu.
  - rewrite IH by assumption. rewrite dmem_dset.
    apply negb_true_iff in Hfresh. rewrite Hfresh.
    destruct (keq_spec k' k); [congruence|reflexivity].
Qed.

(** Reading back the pairs of a dictionary gives the dictionary. *)
Lemma fold_dset_unique (l : list (K * V)) d :
  unique_keys (d ++ l) = true ->
  fold_left (fun acc kv => dset acc (fst kv) (snd kv)) l d = d ++ l.
Proof.
  revert d. induction l as [|[k v] l IH]; intros d Hu; simpl.
  - now rewrite app_nil_r.
  - destruct (unique_keys_app _ _ Hu) as (_ & _ & Hdisj).
    assert (Hfresh : dmem d k = false).
    { apply Hdisj. unfold dmem; simpl. now rewrite keq_refl. }
    rewrite (dset_fresh _ _ _ Hfresh).
    rewrite IH; rewrite <- app_assoc; [reflexivity|exact Hu].
Qed.

Lemma from_pairs_dict d : is_dict d -> from_pairs d = d.
Proof. intros Hd. unfold from_pairs. now apply (fold_dset_unique d []). Qed.
End DictFacts.

(** ** The rank table *)

(** C1. [calculate_points] returns the table value for each of the ranks
    1 to 8 (20, 14, 12, 10, 8, 6, 4, 2) and 0 for every other integer. *)
Theorem calculate_points_table :
  calculate_points 1 = 20 /\ calculate_points 2 = 14 /\
  calculate_points 3 = 12 /\ calculate_points 4 = 10 /\
  calculate_points 5 = 8 /\ calculate_points 6 = 6 /\
  calculate_points 7 = 4 /\ calculate_points 8 = 2 /\
  forall rank : Z, rank < 1 \/ 8 < rank -> calculate_points rank = 0.
Proof.
  repeat (split; [reflexivity|]).
  intros rank Hout. unfold calculate_points, POINT_SYSTEM, dget, keq, EqKey_Z.
  repeat match goal with
         | |- context [Z.eqb rank ?k] => destruct (Z.eqb_spec rank k); [lia|]
         end.
  reflexivity.
Qed.

Lemma calculate_points_table_witness :
  (-3 < 1 \/ 8 < -3) /\ calculate_points (-3) = 0.
Proof.
  split; [left; lia|].
  apply (proj2 (proj2 (proj2 (proj2 (proj2 (proj2 (proj2 (proj2
           calculate_points_table)))))))).
  left; lia.
Defined.

(** The table never yields a negative number of points. *)
Lemma calculate_points_nonneg (rank : Z) : 0 <= calculate_points rank.
Proof.
  unfold calculate_points, POINT_SYSTEM, dget, keq, EqKey_Z.
  repeat match goal with
         | |- context [Z.eqb rank ?k] => destruct (Z.eqb rank k); [lia|]
         end.
  lia.
Qed.

(** ** The trailing-comma cleanup *)

Section Cleanup.
Variable close : ascii.

Lemma sub_comma_no_match (s : string) :
  comma_before close s = false -> sub_comma close 0 s = s.
Proof.
  induction s as [|c s IH]; simpl; [reflexivity|].
  intros Hno. apply orb_false_iff in Hno. destruct Hno as [Hhere Hrest].
  destruct (Ascii.eqb c ","); simpl in Hhere.
  - destruct (spaces_then close s); [discriminate|].
    now rewrite IH.
  - now rewrite IH.
Qed.

(** [comma_before] is the textual condition: a comma, then whitespace
    only, then the closing character. *)
Lemma spaces_then_text (s : string) (n : nat) :
  spaces_then close s = Some n ->
  exists ws post,
    s = (ws ++ String close post)%string /\ all_chars is_re_space ws = true.
Proof.
  revert n. induction s as [|c s IH]; simpl; intros n Hn; [discriminate|].
  destruct (is_re_space c) eqn:Hc.
  - destruct (spaces_then close s) as [k|]; [|discriminate].
    destruct (IH k eq_refl) as (ws & post & -> & Hws).
    exists (String c ws), post. simpl. now rewrite Hc, Hws.
  - destruct (Ascii.eqb_spec c close) as [->|]; [|discriminate].
    now exists EmptyString, s.
Qed.

Lemma comma_before_text (s : string) :
  comma_before close s = true ->
  exists pre ws post,
    s = (pre ++ String "," (ws ++ String close post))%string
    /\ all_chars is_re_space ws = true.
Proof.
  induction s as [|c s IH]; simpl; [discriminate|].
  intros Hs. apply orb_true_iff in Hs. destruct Hs as [Hhere|Hrest].
  - apply andb_true_iff in Hhere. destruct Hhere as [Hc Hm].
    destruct (Ascii.eqb_spec c ",") as [->|]; [|discriminate].
    destruct (spaces_then close s) as [n|] eqn:Hn; [|discriminate].
    destruct (spaces_then_text s n Hn) as (ws & post & -> & Hws).
    now exists EmptyString, ws, post.
  - destruct (IH Hrest) as (pre & ws & post & -> & Hws).
    now exists (String c pre), ws, post.
Qed.
Lemma spaces_then_bounds (s : string) (n : nat) :
  spaces_then close s = Some n -> (1 <= n <= String.length s)%nat.
Proof.
  revert n. induction s as [|c s IH]; simpl; intros n Hn; [discriminate|].
  destruct (is_re_space c).
  - destruct (spaces_then close s) as [k|]; [|discriminate].
    injection Hn as <-. specialize (IH k eq_refl). lia.
  - destruct (Ascii.eqb c close); [|discriminate]. injection Hn as <-. lia.
Qed.

(** A substitution never makes the text longer, and what it skips is
    gone. *)
Lemma sub_comma_length_skip (s : string) :
  forall k, (String.length (sub_comma close k s) <= String.length s - k)%nat.
Proof.
  induction s as [|c s IH]; intros k; simpl; [lia|].
  destruct k as [|k]; [|apply IH].
  destruct (Ascii.eqb c ",").
  - destruct (spaces_then close s) as [n|] eqn:Hn; simpl.
    + specialize (IH n). lia.
    + specialize (IH 0%nat). lia.
  - simpl. specialize (IH 0%nat). lia.
Qed.

(** Where the pattern matches, the substitution makes the text shorter. *)
Lemma sub_comma_shorter (s : string) :
  comma_before close s = true ->
  (String.length (sub_comma close 0 s) < String.length s)%nat.
Proof.
  induction s as [|c s IH]; simpl; [discriminate|].
  intros Hs. destruct (Ascii.eqb c ","); simpl in Hs.
  - destruct (spaces_then close s) as [n|] eqn:Hn; simpl.
    + pose proof (spaces_then_bounds s n Hn).
      pose proof (sub_comma_length_skip s n). lia.
    + specialize (IH Hs). lia.
  - simpl. specialize (IH Hs). lia.
Qed.
End Cleanup.

Lemma cleanup_clean (s : string) : clean s = true -> cleanup s = s.
Proof.
  unfold clean, cleanup. intros Hs.
  apply andb_true_iff in Hs. destruct Hs as [Hsq Hcu].
  apply negb_true_iff in Hsq, Hcu.
  rewrite (sub_comma_no_match "]" s Hsq). now apply sub_comma_no_match.
Qed.

Lemma cleanup_fixed_clean (s : string) : cleanup s = s -> clean s = true.
Proof.
  unfold cleanup, clean. intros Hfix.
  pose proof (sub_comma_length_skip "]" s 0) as H1.
  pose proof (sub_comma_length_skip "}" (sub_comma "]" 0 s) 0) as H2.
  rewrite Hfix in H2.
  destruct (comma_before "]" s) eqn:Hsq.
  { pose proof (sub_comma_shorter "]" s Hsq). lia. }
  rewrite (sub_comma_no_match "]" s Hsq) in Hfix.
  destruct (comma_before "}" s) eqn:Hcu; [|reflexivity].
  pose proof (sub_comma_shorter "}" s Hcu) as H3. rewrite Hfix in H3. lia.
Qed.




(** Text that is not clean can need two passes: of two commas before a
    bracket each pass removes one. *)
Remark cleanup_two_commas :
  cleanup "[1,,]" = "[1,]" /\ cleanup (cleanup "[1,,]") = "[1]".
Proof. split; reflexivity. Qed.

(** ** Decimal keys *)

Lemma to_int_not_nil (z : Z) : Z.to_int z <> Decimal.Pos Decimal.Nil /\ Z.to_int z <> Decimal.Neg Decimal.Nil.
Proof.
  destruct z as [|p|p]; simpl; split; try discriminate;
    intros [= Hnil]; now apply (DecimalPos.Unsigned.to_uint_nonnil p).
Qed.

Lemma str_of_Z_inj (a b : Z) : str_of_Z a = str_of_Z b -> a = b.
Proof.
  unfold str_of_Z. intros Heq.
  destruct (to_int_not_nil a) as [Ha1 Ha2], (to_int_not_nil b) as [Hb1 Hb2].
  pose proof (NilZero.isi _ Ha1 Ha2) as Hpa.
  pose proof (NilZero.isi _ Hb1 Hb2) as Hpb.
  rewrite Heq, Hpb in Hpa.
  apply DecimalZ.to_int_inj. congruence.
Qed.

(** ** The Ownership Index *)

Lemma owns_dset ua k0 tags k t :
  owns (dset ua k0 tags) k t <-> (k = k0 /\ In t tags) \/ (k <> k0 /\ owns ua k t).
Proof.
  unfold owns. destruct (keq_spec k k0) as [->|Hne].
  - rewrite dget_dset_same. split.
    + intros (ts & [= <-] & Hin). now left.
    + intros [[_ Hin]|[Hne _]]; [eauto|congruence].
  - rewrite (dget_dset_other _ _ _ _ Hne). split.
    + intros Hown. now right.
    + intros [[Heq _]|[_ Hown]]; [congruence|assumption].
Qed.

Lemma index_step_owns ua tag p k t :
  owns (index_step ua (tag, p)) k t
  <-> owns ua k t \/ (k = KInt (discord_id p) /\ t = tag).
Proof.
  unfold index_step; simpl.
  set (owner := KInt (discord_id p)).
  set (ua1 := if dmem ua owner then ua else dset ua owner []).
  assert (H1 : forall k' t', owns ua1 k' t' <-> owns ua k' t').
  { intros k' t'. unfold ua1. destruct (dmem ua owner) eqn:Hm; [tauto|].
    rewrite owns_dset. split.
    - intros [[_ []]|[_ Hown]]. assumption.
    - intros Hown. right. split; [|assumption].
      intros ->. destruct Hown as (ts & Hget & _).
      unfold dmem in Hm. now rewrite Hget in Hm. }
  assert (H2 : forall t', In t' (get_or (dget ua1 owner) []) <-> owns ua1 owner t').
  { intros t'. unfold owns. destruct (dget ua1 owner) as [ts|]; simpl.
    - split; [eauto|]. now intros (ts' & [= <-] & Hin).
    - split; [tauto|]. now intros (ts' & [=] & _). }
  destruct (existsb (String.eqb tag) (get_or (dget ua1 owner) [])) eqn:Hex.
  - apply existsb_exists in Hex. destruct Hex as (t0 & Hin & Heq).
    apply String.eqb_eq in Heq. subst t0. apply H2 in Hin.
    rewrite H1. split; [tauto|].
    intros [Hown|[-> ->]]; [assumption|]. now apply H1.
  - rewrite owns_dset, in_app_iff, H2, !H1. simpl.
    destruct (keq_spec k owner) as [->|Hne]; intuition congruence.
Qed.

Lemma fold_index_step_owns pd ua k t :
  owns (fold_left index_step pd ua) k t
  <-> owns ua k t \/ exists p, In (t, p) pd /\ k = KInt (discord_id p).
Proof.
  revert ua. induction pd as [|[tag p] pd IH]; intros ua; simpl.
  - split; [tauto|]. intros [Hown|(p & [] & _)]. assumption.
  - rewrite IH, index_step_owns. split.
    + intros [[Hown|[-> ->]]|(q & Hin & ->)]; eauto.
    + intros [Hown|(q & [[= -> ->]|Hin] & ->)]; eauto.
Qed.

(** The index [update_user_accounts] builds lists a tag under an owner
    exactly when an Identity Record with that tag has that owner. *)
Lemma rebuild_index_owns pd k t :
  owns (rebuild_index pd) k t <-> exists p, In (t, p) pd /\ k = KInt (discord_id p).
Proof.
  unfold rebuild_index. rewrite fold_index_step_owns. split; [|eauto].
  intros [(ts & [=] & _)|Hex]. assumption.
Qed.

Lemma index_step_keys ua entry :
  unique_keys ua = true -> int_keyed ua ->
  unique_keys (index_step ua entry) = true /\ int_keyed (index_step ua entry).
Proof.
  intros Hu Hint. unfold index_step.
  set (owner := KInt (discord_id (snd entry))).
  set (ua1 := if dmem ua owner then ua else dset ua owner []).
  assert (Hset : forall d v, int_keyed d -> int_keyed (dset d owner v)).
  { intros d v Hd k Hk. apply dmem_In in Hk. rewrite dmem_dset in Hk.
    apply orb_true_iff in Hk. destruct Hk as [Hk|Hk].
    - apply keq_eq in Hk. subst k. now exists (discord_id (snd entry)).
    - apply Hd. now apply dmem_In. }
  assert (H1 : unique_keys ua1 = true /\ int_keyed ua1).
  { unfold ua1. destruct (dmem ua owner); [now split|].
    split; [now apply unique_keys_dset|now apply Hset]. }
  destruct H1 as [Hu1 Hint1].
  destruct (existsb _ _); [now split|].
  split; [now apply unique_keys_dset|now apply Hset].
Qed.

Lemma rebuild_index_keys pd :
  unique_keys (rebuild_index pd) = true /\ int_keyed (rebuild_index pd).
Proof.
  unfold rebuild_index.
  assert (Hgen : forall ua, unique_keys ua = true -> int_keyed ua ->
            unique_keys (fold_left index_step pd ua) = true
            /\ int_keyed (fold_left index_step pd ua)).
  { induction pd as [|entry pd IH]; intros ua Hu Hint; simpl; [now split|].
    destruct (index_step_keys ua entry Hu Hint) as [Hu' Hint'].
    now apply IH. }
  apply Hgen; [reflexivity|]. intros k [].
Qed.

(** ** Save and load *)

Lemma int_keys_keyed ua : int_keys ua = true -> int_keyed ua.
Proof.
  unfold int_keys, int_keyed, dkeys. rewrite forallb_forall. intros Hall k Hk.
  apply in_map_iff in Hk. destruct Hk as ([k' v] & <- & Hin).
  specialize (Hall _ Hin). simpl in *. destruct k'; [eauto|discriminate].
Qed.

Lemma stored_keys_dget ua z :
  int_keyed ua -> dget (stored_keys ua) (str_of_Z z) = dget ua (KInt z).
Proof.
  unfold stored_keys. induction ua as [|[k v] ua IH]; intros Hint; simpl; [reflexivity|].
  assert (Hint' : int_keyed ua) by (intros k' Hk'; apply Hint; now right).
  destruct (Hint k (or_introl eq_refl)) as [z' ->]. simpl.
  destruct (keq_spec (KInt z) (KInt z')) as [[= ->]|Hne].
  - now rewrite keq_refl.
  - destruct (keq_spec (str_of_Z z) (str_of_Z z')) as [Heq|_].
    + apply str_of_Z_inj in Heq. congruence.
    + now apply IH.
Qed.

Lemma stored_keys_dmem ua z :
  int_keyed ua -> dmem (stored_keys ua) (str_of_Z z) = dmem ua (KInt z).
Proof. intros Hint. unfold dmem. now rewrite stored_keys_dget. Qed.

Lemma stored_keys_unique ua :
  int_keyed ua -> unique_keys ua = true -> unique_keys (stored_keys ua) = true.
Proof.
  induction ua as [|[k v] ua IH]; intros Hint Hu; simpl; [reflexivity|].
  assert (Hint' : int_keyed ua) by (intros k' Hk'; apply Hint; now right).
  simpl in Hu. apply andb_true_iff in Hu. destruct Hu as [Hfresh Hu].
  destruct (Hint k (or_introl eq_refl)) as [z ->]. simpl.
  fold (stored_keys ua). rewrite (stored_keys_dmem ua z Hint'), Hfresh.
  now apply IH.
Qed.

Lemma load_after_save st dk :
  load_player_data (save_player_data IoOk st dk)
  = Return (state_of_document (dump_document st)).
Proof. reflexivity. Qed.

Lemma loaded_keys_no_int (l : dict string (list string)) z :
  dget (loaded_keys l) (KInt z) = None.
Proof. induction l as [|[k v] l IH]; simpl; [reflexivity|exact IH]. Qed.

Lemma loaded_keys_dget (l : dict string (list string)) k :
  dget (loaded_keys l) (KStr k) = dget l k.
Proof.
  induction l as [|[k' v] l IH]; simpl; [reflexivity|].
  change (keq (KStr k) (KStr k')) with (keq k k').
  now destruct (keq k k').
Qed.

Lemma loaded_stored_keys ua :
  dkeys (loaded_keys (stored_keys ua)) = map loaded_key (dkeys ua).
Proof.
  unfold dkeys, loaded_keys, stored_keys. rewrite !map_map. reflexivity.
Qed.

(** The loader always returns, and start-up is the load followed by the
    rebuild of the index. *)
Lemma startup_after_load (dk : disk) :
  exists st0, load_player_data dk = Return st0
              /\ startup dk = Return (update_user_accounts st0).
Proof.
  unfold startup, load_player_data, load_body.
  destruct (primary dk) as [| |d1]; simpl;
    [destruct (backup dk) as [| |d2]; simpl| |];
    eexists; split; reflexivity.
Qed.

(** What [load_player_data] does for every on-disk configuration: it
    reads the primary store when it exists and the backup only when the
    primary is absent; when the store it reads cannot be read or parsed,
    or when both are absent, it starts from the empty registry; it never
    raises. *)
Lemma load_player_data_cases (dk : disk) :
  load_player_data dk =
    Return match primary dk, backup dk with
           | Holds d, _ => state_of_document d
           | Missing, Holds d => state_of_document d
           | _, _ => empty_state
           end.
Proof.
  unfold load_player_data, load_body.
  destruct (primary dk) as [| |d]; simpl; try reflexivity.
  destruct (backup dk) as [| |d]; reflexivity.
Qed.

(** Everywhere but at a primary file that cannot be read next to a backup
    that can, the loader does what the specification says. *)
Lemma load_as_specified_elsewhere (dk : disk) :
  (primary dk = Garbled -> forall d, backup dk <> Holds d) ->
  load_player_data dk = Return (load_as_specified dk).
Proof.
  intros Hnot. rewrite load_player_data_cases. unfold load_as_specified.
  destruct (primary dk) as [| |d]; try reflexivity.
  destruct (backup dk) as [| |d]; try reflexivity.
  now destruct (Hnot eq_refl d).
Qed.

(** C3, at the input where the code fails it.  The primary file exists
    but cannot be parsed, and the backup holds a sound document.  The
    parse error is raised inside the [try] block and caught by its
    [except], which empties both globals: the backup is never read,
    although the same backup is loaded when the primary is absent. *)
Theorem load_garbled_primary_skips_backup :
  let d := {| doc_player_data :=
                Some [("PYL", {| discord_id := 42; points := 20; name := "ann" |})];
              doc_user_accounts := Some [("42", ["PYL"])] |} in
  let dk := {| primary := Garbled; backup := Holds d |} in
  load_player_data dk = Return empty_state
  /\ load_as_specified dk = state_of_document d
  /\ load_player_data dk <> Return (load_as_specified dk)
  /\ load_player_data {| primary := Missing; backup := Holds d |}
     = Return (state_of_document d).
Proof. repeat split. discriminate. Qed.

(** C4, as the code has it.  [save_player_data] writes the Ownership
    Index next to the Identity Records, its keys turned into strings, and
    [load_player_data] takes the index from the file as it is; it is the
    start-up sequence, which runs [update_user_accounts] right after the
    load, that replaces it by the index rebuilt from the loaded records
    alone: a tag is listed under an owner exactly when a record with that
    tag has that owner. *)
Theorem index_persisted_then_rebuilt_at_startup (st : state) (dk : disk) (d : document) (bk : file) :
  primary (save_player_data IoOk st dk) = Holds (dump_document st)
  /\ doc_user_accounts (dump_document st)
     = Some (from_pairs (stored_keys (user_accounts st)))
  /\ (exists st', load_player_data {| primary := Holds d; backup := bk |} = Return st'
                  /\ user_accounts st' = loaded_keys (get_or (doc_user_accounts d) []))
  /\ (exists st0 st1,
        load_player_data dk = Return st0 /\ startup dk = Return st1
        /\ player_data st1 = player_data st0
        /\ user_accounts st1 = rebuild_index (player_data st0)
        /\ forall k t, owns (user_accounts st1) k t
                       <-> exists p, In (t, p) (player_data st0)
                                     /\ k = KInt (discord_id p)).
Proof.
  split; [reflexivity|]. split; [reflexivity|]. split.
  - eexists. split; reflexivity.
  - destruct (startup_after_load dk) as (st0 & Hload & Hstart).
    exists st0, (update_user_accounts st0).
    split; [exact Hload|]. split; [exact Hstart|].
    split; [reflexivity|]. split; [reflexivity|].
    intros k t. apply rebuild_index_owns.
Qed.

(** C4, against the specification's wording: the file written for a registry with one linked
    identity holds the index, and a file whose index disagrees with its
    records is loaded with that index, not with a rebuilt one. *)
Lemma save_writes_index_load_trusts_it :
  let pd := [("PYL", {| discord_id := 42; points := 20; name := "ann" |})] in
  let st := {| player_data := pd; user_accounts := [(KInt 42, ["PYL"])] |} in
  let stale := {| doc_player_data := Some pd;
                  doc_user_accounts := Some [("99", ["QGR"])] |} in
  (exists d, primary (save_player_data IoOk st {| primary := Missing; backup := Missing |})
             = Holds d
             /\ doc_user_accounts d = Some [("42", ["PYL"])])
  /\ load_player_data {| primary := Holds stale; backup := Missing |}
     = Return {| player_data := pd; user_accounts := [(KStr "99", ["QGR"])] |}
  /\ rebuild_index pd = [(KInt 42, ["PYL"])].
Proof.
  split; [eexists; split; reflexivity|]. split; reflexivity.
Qed.

(** C5. After a successful save, loading gives back the Identity
    Registry that was saved: the same tags, each with the same record
    (owner id, points, display name). *)
Theorem save_load_round_trip (st : state) (dk : disk) :
  is_dict (player_data st) ->
  exists st',
    load_player_data (save_player_data IoOk st dk) = Return st'
    /\ player_data st' = player_data st
    /\ forall tag, dget (player_data st') tag = dget (player_data st) tag.
Proof.
  intros Hd. rewrite load_after_save. eexists. split; [reflexivity|].
  assert (Heq : player_data (state_of_document (dump_document st)) = player_data st).
  { simpl. now apply from_pairs_dict. }
  split; [exact Heq|]. intros tag. now rewrite Heq.
Qed.

Lemma save_load_round_trip_witness :
  let st := {| player_data :=
                 [("PYL", {| discord_id := 42; points := 20; name := "ann" |});
                  ("QGR", {| discord_id := 7; points := 0; name := "bob" |})];
               user_accounts := [(KInt 42, ["PYL"]); (KInt 7, ["QGR"])] |} in
  let dk := {| primary := Garbled; backup := Missing |} in
  is_dict (player_data st)
  /\ exists st',
       load_player_data (save_player_data IoOk st dk) = Return st'
       /\ player_data st' = player_data st
       /\ forall tag, dget (player_data st') tag = dget (player_data st) tag.
Proof.
  split; [reflexivity|].
  apply save_load_round_trip. reflexivity.
Defined.

(** C10. After a successful save and a load, the keys of the Ownership
    Index are the decimal strings of the owner ids: the accounts of owner
    [z] sit under the string key, a lookup by the integer id finds
    nothing, and [update_user_accounts] lists every linked tag under its
    owner's integer id again. *)
Theorem reloaded_index_has_string_keys (st : state) (dk : disk) :
  is_dict (player_data st) ->
  is_dict (user_accounts st) ->
  int_keys (user_accounts st) = true ->
  exists st',
    load_player_data (save_player_data IoOk st dk) = Return st'
    /\ dkeys (user_accounts st') = map loaded_key (dkeys (user_accounts st))
    /\ (forall z, dget (user_accounts st') (KStr (str_of_Z z))
                  = dget (user_accounts st) (KInt z))
    /\ (forall z, dget (user_accounts st') (KInt z) = None)
    /\ (forall tag p, In (tag, p) (player_data st) ->
                      owns (user_accounts (update_user_accounts st'))
                        (KInt (discord_id p)) tag).
Proof.
  intros Hpd Hua Hint. apply int_keys_keyed in Hint.
  rewrite load_after_save. eexists. split; [reflexivity|].
  assert (Hstored : from_pairs (stored_keys (user_accounts st))
                    = stored_keys (user_accounts st)).
  { apply from_pairs_dict. now apply stored_keys_unique. }
  simpl. rewrite Hstored, (from_pairs_dict _ Hpd).
  split; [apply loaded_stored_keys|].
  split; [intros z; rewrite loaded_keys_dget; now apply stored_keys_dget|].
  split; [intros z; apply loaded_keys_no_int|].
  intros tag p Hin. apply rebuild_index_owns. eauto.
Qed.

Lemma reloaded_index_has_string_keys_witness :
  let st := {| player_data :=
                 [("PYL", {| discord_id := 42; points := 20; name := "ann" |});
                  ("QGR", {| discord_id := 7; points := 0; name := "bob" |})];
               user_accounts := [(KInt 42, ["PYL"]); (KInt 7, ["QGR"])] |} in
  let dk := {| primary := Missing; backup := Missing |} in
  (is_dict (player_data st) /\ is_dict (user_accounts st)
   /\ int_keys (user_accounts st) = true)
  /\ exists st',
       load_player_data (save_player_data IoOk st dk) = Return st'
       /\ dkeys (user_accounts st') = [KStr "42"; KStr "7"]
       /\ dget (user_accounts st') (KInt 42) = None.
Proof.
  split; [repeat split; reflexivity|].
  destruct (reloaded_index_has_string_keys
              {| player_data :=
                   [("PYL", {| discord_id := 42; points := 20; name := "ann" |});
                    ("QGR", {| discord_id := 7; points := 0; name := "bob" |})];
                 user_accounts := [(KInt 42, ["PYL"]); (KInt 7, ["QGR"])] |}
              {| primary := Missing; backup := Missing |}
              eq_refl eq_refl eq_refl) as (st' & Hload & Hkeys & _ & Hint & _).
  exists st'. split; [exact Hload|]. split; [exact Hkeys|apply Hint].
Defined.

(** ** The matcher *)

Lemma match_loop_ok (pd : dict string player) (players : list json) (found : list linked) :
  forallb record_ok players = true ->
  match_loop pd players found
  = Return (found ++ map as_match
              (filter (fun p => negb (is_empty (tag_of p)) && dmem pd (tag_of p)) players)).
Proof.
  revert found. induction players as [|player players IH]; intros found Hok; simpl.
  - now rewrite app_nil_r.
  - simpl in Hok. apply andb_true_iff in Hok. destruct Hok as [Hrec Hrest].
    destruct player as [| | | | |l|o]; try discriminate. simpl in Hrec. simpl.
    assert (Htag : exists raw, obj_get o "tag" (JStr EmptyString) = JStr raw).
    { unfold obj_get. destruct (dget o "tag") as [[| | | |raw| |]|];
        try discriminate; simpl; eauto. }
    destruct Htag as [raw Hraw]. rewrite Hraw. simpl.
    assert (Hrank : obj_get o "rank" (obj_get o "position" (JInt 0))
                    = rank_of (JObj o)).
    { unfold obj_get, rank_of. destruct (dget o "rank"); [reflexivity|].
      simpl. now destruct (dget o "position"). }
    destruct (is_empty (normalize_tag raw)); simpl; [now apply IH|].
    destruct (dmem pd (normalize_tag raw)); simpl; [|now apply IH].
    rewrite IH by assumption. rewrite <- app_assoc. simpl.
    unfold as_match at 2. simpl. now rewrite Hraw, Hrank.
Qed.

(** On records it can read, the matcher looks at the first 8 only, in
    their order, normalises each tag (every ['#'] removed, upper case),
    takes the rank from [rank], else [position], else 0, and emits
    exactly the records whose normalised tag is non-empty and a key of
    the registry; what stands at position 9 or later changes nothing.
    Where the registry has no empty key, as [link] keeps it, this is the
    selection by key alone. *)
Lemma find_linked_players_in_top_8_spec (players : list json) (pd : dict string player) :
  forallb record_ok (firstn 8 players) = true ->
  find_linked_players_in_top_8 players pd = Return (matches_by_nonempty_key players pd)
  /\ (forall late, (8 <= List.length players)%nat ->
        find_linked_players_in_top_8 (players ++ late) pd
        = find_linked_players_in_top_8 players pd)
  /\ (dmem pd EmptyString = false ->
        matches_by_nonempty_key players pd = matches_by_key players pd).
Proof.
  intros Hok. split; [|split].
  - unfold find_linked_players_in_top_8, matches_by_nonempty_key.
    now rewrite match_loop_ok.
  - intros late Hlen. unfold find_linked_players_in_top_8.
    rewrite firstn_app.
    replace (8 - List.length players)%nat with 0%nat by lia.
    simpl. now rewrite app_nil_r.
  - intros Hempty. unfold matches_by_nonempty_key, matches_by_key. f_equal.
    apply filter_ext. intros p.
    destruct (tag_of p) eqn:Htag; simpl; [now rewrite Hempty|reflexivity].
Qed.

(** C6, at the input where the code fails it.  The registry has [PYL];
    the scraped list has [#PYL] at rank 1 and, second, a record whose
    tag is [null].  [None] has no [replace]: the matcher raises
    [AttributeError] at the second record and emits nothing, and
    [get_linked_players_placements] turns the exception into the empty
    list, so the registered record of rank 1 is not matched and the
    scoring that follows adds no points. *)
Theorem matcher_aborts_on_null_tag :
  let pd := [("PYL", {| discord_id := 42; points := 0; name := "ann" |})] in
  let st := {| player_data := pd; user_accounts := [(KInt 42, ["PYL"])] |} in
  let dk := {| primary := Missing; backup := Missing |} in
  let players :=
    [JObj [("tag", JStr "#PYL"); ("name", JStr "ann"); ("rank", JInt 1)];
     JObj [("tag", JNull); ("name", JStr "guest"); ("rank", JInt 2)]] in
  matches_by_key players pd
  = [{| lp_tag := "PYL"; lp_name := JStr "ann"; lp_rank := JInt 1 |}]
  /\ find_linked_players_in_top_8 players pd = Raise AttributeError
  /\ placements_of players pd = []
  /\ result (update_points_for_leaderboard IoOk (placements_of players pd) st dk)
     = Return []
  /\ memory (update_points_for_leaderboard IoOk (placements_of players pd) st dk) = st.
Proof. repeat split. Qed.

(** A record that is not an object makes the matcher raise as well. *)
Remark matcher_raises_on_unreadable_record :
  find_linked_players_in_top_8 [JObj [("tag", JNull)]] [] = Raise AttributeError
  /\ find_linked_players_in_top_8 [JInt 5] [] = Raise AttributeError.
Proof. split; reflexivity. Qed.

(** ** Order percentages *)

Lemma percent_loop_shares (items : list (string * Z)) (total : Z) (acc : dict string float) :
  unique_keys items = true ->
  (forall k, dmem items k = true -> dmem acc k = false) ->
  percent_loop items total acc = (xs <- shares items total ;; Return (acc ++ xs)).
Proof.
  revert acc. induction items as [|[k pts] items IH]; intros acc Hu Hdisj; simpl.
  - now rewrite app_nil_r.
  - simpl in Hu. apply andb_true_iff in Hu. destruct Hu as [Hfresh Hu].
    apply negb_true_iff in Hfresh.
    unfold share. destruct (true_divide pts total) as [q|e]; simpl; [|reflexivity].
    assert (Hk : dmem acc k = false).
    { apply Hdisj. unfold dmem; simpl. now rewrite keq_refl. }
    rewrite (dset_fresh _ _ _ Hk).
    rewrite IH; [|assumption|].
    + destruct (shares items total) as [xs|e]; simpl; [|reflexivity].
      now rewrite <- app_assoc.
    + intros k' Hk'. rewrite dmem_app. apply orb_false_iff. split.
      * apply Hdisj. unfold dmem; simpl. destruct (keq k' k); [reflexivity|exact Hk'].
      * unfold dmem; simpl. destruct (keq_spec k' k) as [->|_]; [congruence|reflexivity].
Qed.

Lemma shares_entries (items : list (string * Z)) (total : Z) (res : dict string float) :
  shares items total = Return res ->
  dkeys res = dkeys items
  /\ forall owner pts, dget items owner = Some pts ->
       exists x, share pts total = Return x /\ dget res owner = Some x.
Proof.
  revert res. induction items as [|[k pts] items IH]; intros res; simpl.
  - intros [= <-]. split; [reflexivity|discriminate].
  - destruct (share pts total) as [x|e] eqn:Hx; simpl; [|discriminate].
    destruct (shares items total) as [xs|e]; simpl; [|discriminate].
    intros [= <-]. destruct (IH xs eq_refl) as [Hkeys Hget].
    split; [simpl; now rewrite Hkeys|].
    intros owner p. simpl. destruct (keq owner k).
    + intros [= <-]. eauto.
    + apply Hget.
Qed.

(** ** Divisions that do not overflow *)

Lemma digits2_pos_bounds (p : positive) :
  2 ^ (Zpos (digits2_pos p) - 1) <= Zpos p < 2 ^ Zpos (digits2_pos p).
Proof.
  induction p as [p IH|p IH|]; simpl digits2_pos.
  - rewrite Pos2Z.inj_succ.
    replace (Z.succ (Zpos (digits2_pos p)) - 1) with (Z.succ (Zpos (digits2_pos p) - 1)) by lia.
    rewrite !Z.pow_succ_r by lia. lia.
  - rewrite Pos2Z.inj_succ.
    replace (Z.succ (Zpos (digits2_pos p)) - 1) with (Z.succ (Zpos (digits2_pos p) - 1)) by lia.
    rewrite !Z.pow_succ_r by lia. lia.
  - simpl. lia.
Qed.

Lemma Zdigits2_le (m k : Z) : 0 <= m < 2 ^ k -> 0 <= k -> Zdigits2 m <= k.
Proof.
  intros [Hlo Hhi] Hk. destruct m as [|p|p]; simpl; [lia| |lia].
  destruct (Z.le_gt_cases (Zpos (digits2_pos p)) k) as [Hle|Hgt]; [exact Hle|].
  pose proof (digits2_pos_bounds p) as [Hb _].
  assert (2 ^ k <= 2 ^ (Zpos (digits2_pos p) - 1)) by (apply Z.pow_le_mono_r; lia).
  lia.
Qed.

Lemma Zdigits2_lt_pow (m : Z) : 0 <= m -> m < 2 ^ Zdigits2 m.
Proof.
  intros Hm. destruct m as [|p|p]; simpl; [lia| |lia].
  apply digits2_pos_bounds.
Qed.

Lemma Zdigits2_nonneg (m : Z) : 0 <= Zdigits2 m.
Proof. destruct m; simpl; lia. Qed.

Lemma shr_1_m (mrs : shr_record) : 0 <= shr_m mrs -> shr_m (shr_1 mrs) = shr_m mrs / 2.
Proof.
  destruct mrs as [m r s]. simpl. intros Hm.
  destruct m as [|[p|p|]|p]; simpl; try lia; try reflexivity.
  - apply Z.div_unique with (r := 1); lia.
  - apply Z.div_unique with (r := 0); lia.
Qed.

Lemma iter_shr_1_m (p : positive) :
  forall mrs, 0 <= shr_m mrs ->
  shr_m (iter_pos shr_1 p mrs) = shr_m mrs / 2 ^ Zpos p.
Proof.
  induction p as [p IH|p IH|]; intros mrs Hm; simpl iter_pos.
  - assert (H1 : 0 <= shr_m (shr_1 mrs)) by (rewrite shr_1_m by lia; apply Z.div_pos; lia).
    assert (H2 : 0 <= shr_m (iter_pos shr_1 p (shr_1 mrs)))
      by (rewrite IH by lia; apply Z.div_pos; [lia|apply Z.pow_pos_nonneg; lia]).
    rewrite IH, IH, shr_1_m by lia.
    rewrite !Z.div_div by (try apply Z.pow_pos_nonneg; lia).
    f_equal. rewrite <- Z.pow_add_r, <- (Z.pow_succ_r 2) by lia.
    f_equal. lia.
  - assert (H2 : 0 <= shr_m (iter_pos shr_1 p mrs))
      by (rewrite IH by lia; apply Z.div_pos; [lia|apply Z.pow_pos_nonneg; lia]).
    rewrite IH, IH by lia.
    rewrite !Z.div_div by (try apply Z.pow_pos_nonneg; lia).
    f_equal. rewrite <- Z.pow_add_r by lia.
    f_equal. lia.
  - rewrite shr_1_m by lia. reflexivity.
Qed.

Lemma fexp_eq (x : Z) : fexp prec emax x = Z.max (x - 53) (-1074).
Proof. reflexivity. Qed.

Lemma shr_fexp_out (m e : Z) (l : location) :
  0 <= m ->
  0 <= shr_m (fst (shr_fexp prec emax m e l)) < 2 ^ 53
  /\ snd (shr_fexp prec emax m e l) = Z.max e (fexp prec emax (Zdigits2 m + e)).
Proof.
  intros Hm. unfold shr_fexp. rewrite fexp_eq.
  set (d := Zdigits2 m).
  assert (Hrec : shr_m (shr_record_of_loc m l) = m) by (destruct l as [|[]]; reflexivity).
  pose proof (Zdigits2_lt_pow m Hm) as Hlt. fold d in Hlt.
  pose proof (Zdigits2_nonneg m) as Hd. fold d in Hd.
  unfold shr. destruct (Z.max (d + e - 53) (-1074) - e) as [|p|p] eqn:Hn; cbn [fst snd].
  - rewrite Hrec. split; [|lia]. split; [lia|].
    apply Z.lt_le_trans with (2 ^ d); [exact Hlt|apply Z.pow_le_mono_r; lia].
  - rewrite iter_shr_1_m by (rewrite Hrec; lia). rewrite Hrec. split; [|lia].
    split; [apply Z.div_pos; [lia|apply Z.pow_pos_nonneg; lia]|].
    apply Z.div_lt_upper_bound; [apply Z.pow_pos_nonneg; lia|].
    rewrite <- Z.pow_add_r by lia.
    apply Z.lt_le_trans with (2 ^ d); [exact Hlt|apply Z.pow_le_mono_r; lia].
  - rewrite Hrec. split; [|lia]. split; [lia|].
    apply Z.lt_le_trans with (2 ^ d); [exact Hlt|apply Z.pow_le_mono_r; lia].
Qed.

Lemma round_nearest_even_bounds (m : Z) (l : location) :
  0 <= m -> 0 <= round_nearest_even m l <= m + 1.
Proof.
  intros Hm. unfold round_nearest_even.
  destruct l as [|[]]; try lia. destruct (Z.even m); lia.
Qed.

(** Rounding a magnitude below [2^1000] never gives an infinity. *)
Lemma binary_round_aux_finite (s : bool) (m e : Z) (l : location) :
  0 <= m -> Zdigits2 m + e <= 1000 -> e <= 900 ->
  forall s', binary_round_aux prec emax s m e l <> S754_infinity s'.
Proof.
  intros Hm Hd He s'. unfold binary_round_aux.
  destruct (shr_fexp_out m e l Hm) as [Hm1 He1].
  destruct (shr_fexp prec emax m e l) as [mrs1 e1]. cbn [fst snd] in Hm1, He1.
  set (m2 := round_nearest_even (shr_m mrs1) (loc_of_shr_record mrs1)).
  assert (Hm2 : 0 <= m2 <= 2 ^ 53).
  { pose proof (round_nearest_even_bounds (shr_m mrs1) (loc_of_shr_record mrs1)).
    unfold m2. lia. }
  destruct (shr_fexp_out m2 e1 loc_Exact (proj1 Hm2)) as [_ He2].
  destruct (shr_fexp prec emax m2 e1 loc_Exact) as [mrs2 e2]. cbn [fst snd] in He2.
  assert (Hd2 : Zdigits2 m2 <= 54).
  { apply Zdigits2_le; [|lia]. split; [lia|].
    apply Z.le_lt_trans with (2 ^ 53); [lia|]. apply Z.pow_lt_mono_r; lia. }
  rewrite fexp_eq in He1, He2.
  destruct (shr_m mrs2); try discriminate.
  replace (e2 <=? emax - prec) with true; [discriminate|].
  symmetry. apply Z.leb_le. unfold emax, prec. lia.
Qed.

Lemma SFdiv_finite (s1 s2 : bool) (ma mb : positive) :
  Zpos ma < 2 ^ 1000 ->
  forall s', SFdiv prec emax (S754_finite s1 ma 0) (S754_finite s2 mb 0)
             <> S754_infinity s'.
Proof.
  intros Hma s'. unfold SFdiv, SFdiv_core_binary.
  set (d1 := Zdigits2 (Zpos ma)). set (d2 := Zdigits2 (Zpos mb)).
  set (e' := Z.min (fexp prec emax (d1 + 0 - (d2 + 0))) (0 - 0)).
  assert (Hd1 : 0 <= d1 <= 1000).
  { split; [apply Zdigits2_nonneg|]. apply Zdigits2_le; lia. }
  assert (He' : e' <= 0) by (unfold e'; lia).
  set (m' := match 0 - 0 - e' with
             | 0 => Zpos ma
             | Zpos _ => Z.shiftl (Zpos ma) (0 - 0 - e')
             | Zneg _ => 0
             end).
  assert (Hm' : 0 <= m' < 2 ^ (d1 - e')).
  { pose proof (Zdigits2_lt_pow (Zpos ma) ltac:(lia)) as Hlt. fold d1 in Hlt.
    unfold m'. destruct (0 - 0 - e') as [|p|p] eqn:Hs; try lia.
    - replace (d1 - e') with d1 by lia. lia.
    - rewrite Z.shiftl_mul_pow2 by lia.
      replace (d1 - e') with (d1 + Zpos p) by lia.
      rewrite Z.pow_add_r by lia.
      assert (0 < 2 ^ Zpos p) by (apply Z.pow_pos_nonneg; lia). nia. }
  pose proof (Z.div_eucl_eq m' (Zpos mb) ltac:(lia)) as Heq.
  pose proof (Z.mod_pos_bound m' (Zpos mb) ltac:(lia)) as Hr.
  unfold Z.modulo in Hr.
  destruct (Z.div_eucl m' (Zpos mb)) as [q r].
  assert (Hq : 0 <= q <= m') by nia.
  apply binary_round_aux_finite; [lia| |lia].
  assert (Zdigits2 q <= d1 - e'); [|lia].
  apply Zdigits2_le; lia.
Qed.

(** A quotient whose numerator is below [2^1000] in magnitude is
    representable: the division returns. *)
Lemma true_divide_returns (a b : Z) :
  b <> 0 -> Z.abs a < 2 ^ 1000 -> exists q, true_divide a b = Return q.
Proof.
  intros Hb Ha. unfold true_divide.
  destruct (Z.eqb_spec b 0) as [|_]; [contradiction|].
  destruct (Z.abs a) as [|ma|ma] eqn:Hma; [eauto| |eauto].
  destruct (Z.abs b) as [|mb|mb]; [eauto| |eauto].
  pose proof (SFdiv_finite (xorb (a <? 0) (b <? 0)) false ma mb Ha) as Hfin.
  destruct (SFdiv prec emax _ _) as [s|s| |s m e]; eauto.
  now destruct (Hfin s).
Qed.

Lemma shares_returns (items : list (string * Z)) (total : Z) :
  total <> 0 ->
  (forall owner pts, In (owner, pts) items -> Z.abs pts < 2 ^ 1000) ->
  exists res, shares items total = Return res.
Proof.
  intros Htotal. induction items as [|[k pts] items IH]; intros Hsmall; simpl; [eauto|].
  destruct (true_divide_returns pts total Htotal (Hsmall k pts (or_introl eq_refl)))
    as [q Hq].
  unfold share. rewrite Hq. simpl.
  destruct IH as [xs Hxs]; [intros o p Hin; apply (Hsmall o p); now right|].
  rewrite Hxs. simpl. eauto.
Qed.

Lemma round_half_even_nearest (n d : Z) :
  0 < d ->
  let k := round_half_even n d in
  Z.abs (2 * n - 2 * k * d) <= d
  /\ (Z.abs (2 * n - 2 * k * d) = d -> Z.even k = true).
Proof.
  intros Hd. unfold round_half_even.
  pose proof (Z.div_mod n d ltac:(lia)) as Hdiv.
  pose proof (Z.mod_pos_bound n d Hd) as Hmod.
  set (q := n / d) in *. set (r := n mod d) in *.
  destruct (Z.compare_spec (2 * r) d) as [Heq|Hlt|Hgt]; cbv zeta.
  - destruct (Z.even q) eqn:Hev.
    + split; [|auto]. nia.
    + split; [nia|]. intros _. rewrite Z.even_add, Hev. reflexivity.
  - split; [nia|]. intros Habs. nia.
  - split; [nia|]. intros Habs. nia.
Qed.

(** C7, as the code has it.  With a zero total the result is empty;
    otherwise there is one entry per owner, in the order of the input,
    holding [round((pts / total) * 100, 1)] computed on floats; the call
    raises where a division overflows, which no number of points below
    [2^1000] in magnitude does.  [round] goes to the nearest tenth of the
    float's exact value and, on a tie, to the even tenth, not upward. *)
Theorem calculate_order_percentages_spec (player_points : dict string Z) :
  is_dict player_points ->
  let total := sum_values player_points in
  (total = 0 -> calculate_order_percentages player_points = Return [])
  /\ (total <> 0 ->
      calculate_order_percentages player_points = shares player_points total
      /\ ((forall owner pts, In (owner, pts) player_points -> Z.abs pts < 2 ^ 1000) ->
          exists res, calculate_order_percentages player_points = Return res)
      /\ forall res, calculate_order_percentages player_points = Return res ->
           dkeys res = dkeys player_points
           /\ forall owner pts, dget player_points owner = Some pts ->
                exists q, true_divide pts total = Return q
                          /\ dget res owner
                             = Some (round1 (SFmul prec emax q (float_of_Z 100))))
  /\ (forall s m e,
        round1 (S754_finite s m e) = float_of_tenths s (tenths_of m e)
        /\ (e < 0 ->
            let d := Z.shiftl 1 (- e) in
            let k := tenths_of m e in
            Z.abs (2 * (10 * Zpos m) - 2 * k * d) <= d
            /\ (Z.abs (2 * (10 * Zpos m) - 2 * k * d) = d -> Z.even k = true))).
Proof.
  intros Hd total.
  assert (Hcalc : total <> 0 ->
            calculate_order_percentages player_points = shares player_points total).
  { intros Hne. unfold calculate_order_percentages. fold total.
    destruct (Z.eqb_spec total 0) as [|_]; [contradiction|].
    rewrite percent_loop_shares; [|exact Hd|reflexivity].
    now destruct (shares player_points total). }
  split; [|split].
  - intros Hz. unfold calculate_order_percentages. fold total. now rewrite Hz.
  - intros Hne. split; [now apply Hcalc|]. split.
    + intros Hsmall. rewrite (Hcalc Hne). now apply shares_returns.
    + intros res Hres. rewrite (Hcalc Hne) in Hres.
      destruct (shares_entries _ _ _ Hres) as [Hkeys Hget].
      split; [exact Hkeys|]. intros owner pts Hin.
      destruct (Hget owner pts Hin) as (x & Hx & Hgx).
      unfold share in Hx. destruct (true_divide pts total) as [q|e]; [|discriminate].
      simpl in Hx. injection Hx as <-. eauto.
  - intros s m e. split; [reflexivity|].
    intros He. cbv zeta. unfold tenths_of.
    destruct (Z.leb_spec 0 e) as [Hge|_]; [lia|].
    apply round_half_even_nearest.
    rewrite Z.shiftl_1_l. apply Z.pow_pos_nonneg; lia.
Qed.

Lemma calculate_order_percentages_spec_witness :
  (is_dict [("A", 100); ("B", 0)] /\ sum_values [("A", 100); ("B", 0)] <> 0)
  /\ calculate_order_percentages [("A", 100); ("B", 0)]
     = Return [("A", float_of_Z 100); ("B", S754_zero false)].
Proof.
  split; [split; [reflexivity|discriminate]|].
  destruct (calculate_order_percentages_spec [("A", 100); ("B", 0)] eq_refl)
    as (_ & Hne & _).
  destruct (Hne ltac:(discriminate)) as (Heq & _).
  rewrite Heq. vm_compute. reflexivity.
Defined.

(** C7, against the specification's wording: for the totals 1 and 15 the first share is
    6.25 exactly; half-up rounding gives 6.3, the code returns 6.2. *)
Lemma order_percentages_tie_goes_to_even :
  calculate_order_percentages [("A", 1); ("B", 15)]
  = Return [("A", float_of_tenths false 62); ("B", float_of_tenths false 938)]
  /\ half_up_tenths 1 (sum_values [("A", 1); ("B", 15)]) = 63
  /\ float_of_tenths false 62 <> float_of_tenths false 63.
Proof.
  split; [vm_compute; reflexivity|]. split; [reflexivity|].
  vm_compute. discriminate.
Qed.

(** ** Tag validation and the link command *)

Lemma upper_char_idem (c : ascii) : upper_char (upper_char c) = upper_char c.
Proof. destruct c as [[] [] [] [] [] [] [] []]; reflexivity. Qed.

Lemma upper_idem (s : string) : upper (upper s) = upper s.
Proof.
  induction s as [|c s IH]; simpl; [reflexivity|].
  now rewrite upper_char_idem, IH.
Qed.

Lemma dollar_span (p : ascii -> bool) (s : string) :
  char_in line_feed s = false -> dollar (snd (span p s)) = all_chars p s.
Proof.
  induction s as [|c s IH]; simpl; [reflexivity|].
  intros Hlf. apply orb_false_iff in Hlf. destruct Hlf as [Hc Hs].
  destruct (p c); simpl.
  - specialize (IH Hs). now destruct (span p s).
  - destruct s; [|reflexivity].
    rewrite Ascii.eqb_sym. exact Hc.
Qed.

Lemma span_all (p : ascii -> bool) (s : string) :
  all_chars p s = true -> fst (span p s) = String.length s.
Proof.
  induction s as [|c s IH]; simpl; [reflexivity|].
  destruct (p c); simpl; [|discriminate].
  intros Hs. specialize (IH Hs). destruct (span p s). simpl in *. now rewrite IH.
Qed.

(** On text without a line feed, [validate_player_tag] accepts exactly the
    well-formed tags. *)
Lemma validate_player_tag_well_formed (t : string) :
  upper t = t -> char_in line_feed t = false ->
  validate_player_tag t = well_formed_tag t.
Proof.
  intros Hup Hlf. unfold validate_player_tag, well_formed_tag. rewrite Hup.
  pose proof (dollar_span in_tag_alphabet t Hlf) as Hdollar.
  pose proof (span_all in_tag_alphabet t) as Hall.
  destruct (span in_tag_alphabet t) as [n rest]. simpl in *.
  rewrite Hdollar. destruct (all_chars in_tag_alphabet t); simpl.
  - rewrite (Hall eq_refl). now rewrite andb_true_r.
  - now rewrite andb_false_r.
Qed.

(** A line feed that ends the text is let through by [$]. *)
Remark validate_player_tag_trailing_line_feed :
  validate_player_tag (String "P" (String "Y" (String "L" (String line_feed EmptyString))))
  = true.
Proof. reflexivity. Qed.

(** For a tag argument whose normalised form has no line feed: the
    format check comes first, and [link] replies [InvalidTag] when the
    normalised tag is not made of at least 3 characters of the tag
    alphabet; it replies [AlreadyLinked] when the normalised tag is well
    formed and already a key of the registry; in both cases the registry,
    the Ownership Index and the disk are left as they were.  Otherwise
    the record (owner id, 0 points, display name) is stored under the
    normalised tag, the other records are kept, the tag is listed under
    the owner and the state is saved. *)
Lemma link_slash_spec (env : io) (player_tag : string) (user_id : Z)
    (display_name : string) (st : state) (dk : disk) :
  let t := normalize_tag player_tag in
  char_in line_feed t = false ->
  (well_formed_tag t = false ->
     link_slash env player_tag user_id display_name st dk = (InvalidTag, st, dk))
  /\ (well_formed_tag t = true -> dmem (player_data st) t = true ->
        link_slash env player_tag user_id display_name st dk = (AlreadyLinked, st, dk))
  /\ (well_formed_tag t = true -> dmem (player_data st) t = false ->
        exists st',
          link_slash env player_tag user_id display_name st dk
          = (Linked, st', save_player_data env st' dk)
          /\ dget (player_data st') t
             = Some {| discord_id := user_id; points := 0; name := display_name |}
          /\ (forall t', t' <> t -> dget (player_data st') t' = dget (player_data st) t')
          /\ owns (user_accounts st') (KInt user_id) t).
Proof.
  intros t Hlf.
  assert (Hval : validate_player_tag t = well_formed_tag t).
  { apply validate_player_tag_well_formed; [apply upper_idem|exact Hlf]. }
  assert (Hne : well_formed_tag t = true -> is_empty t = false).
  { unfold well_formed_tag. destruct t; [|reflexivity].
    simpl. discriminate. }
  unfold link_slash. fold t. rewrite Hval.
  split; [|split].
  - intros Hwf. rewrite Hwf. now rewrite orb_true_r.
  - intros Hwf Hmem. now rewrite (Hne Hwf), Hwf, Hmem.
  - intros Hwf Hmem. rewrite (Hne Hwf), Hwf, Hmem. simpl.
    eexists. split; [reflexivity|]. simpl. split; [apply dget_dset_same|].
    split; [intros t' Hneq; now apply dget_dset_other|].
    unfold owns. rewrite dget_dset_same. eexists. split; [reflexivity|].
    apply in_or_app. right. now left.
Qed.

(** C9, at the input where the code fails it.  The tag argument is
    [pyl] followed by a line feed.  Its normalised form, [PYL] and the
    line feed, is not made of characters of the tag alphabet, yet the
    [$] of the pattern matches before the final line feed: [link] does
    not reply [InvalidTag], it stores a record under the key with the
    line feed, which is not the key [PYL] that the matcher looks up for
    this player. *)
Theorem link_accepts_trailing_line_feed :
  let player_tag := ("pyl" ++ String line_feed EmptyString)%string in
  let t := normalize_tag player_tag in
  let dk := {| primary := Missing; backup := Missing |} in
  t = ("PYL" ++ String line_feed EmptyString)%string
  /\ well_formed_tag t = false
  /\ validate_player_tag t = true
  /\ exists st',
       link_slash IoOk player_tag 42 "ann" empty_state dk
       = (Linked, st', save_player_data IoOk st' dk)
       /\ dget (player_data st') t
          = Some {| discord_id := 42; points := 0; name := "ann" |}
       /\ dget (player_data st') "PYL" = None.
Proof.
  repeat split. eexists. repeat split.
Qed.

(** ** Applying the points of a batch *)

(** What [int()] can raise, and when it overflows. *)
Lemma py_int_raises (v : json) (e : exn) :
  py_int v = Raise e ->
  e = ValueError \/ e = TypeError
  \/ (e = OverflowError /\ exists s, v = JFloat (S754_infinity s)).
Proof.
  destruct v as [|b|z|x|s|l|o]; simpl; try discriminate;
    try (intros [= <-]; tauto).
  - destruct x as [s|s| |s m e']; simpl; try discriminate.
    + intros [= <-]. right. right. eauto.
    + intros [= <-]. tauto.
  - destruct (int_of_str s); [discriminate|]. intros [= <-]. tauto.
Qed.

Section ScoreLoop.
Variables (player_info : linked) (rest : list linked)
          (pd : dict string player) (updates : list update).

(** A rank that cannot be coerced by [ValueError] or [TypeError] is
    skipped and the loop goes on. *)
Lemma score_loop_skips_uncoercible :
  py_int (lp_rank player_info) = Raise ValueError
  \/ py_int (lp_rank player_info) = Raise TypeError ->
  score_loop (player_info :: rest) pd updates = score_loop rest pd updates.
Proof. intros [Hr|Hr]; simpl; now rewrite Hr. Qed.

(** A rank worth no points is skipped. *)
Lemma score_loop_skips_zero (rank : Z) :
  py_int (lp_rank player_info) = Return rank ->
  calculate_points rank = 0 ->
  score_loop (player_info :: rest) pd updates = score_loop rest pd updates.
Proof. intros Hr Hz. simpl. now rewrite Hr, Hz. Qed.

(** A rank worth points adds them to the record and is reported. *)
Lemma score_loop_adds (rank : Z) (p : player) :
  py_int (lp_rank player_info) = Return rank ->
  0 < calculate_points rank ->
  dget pd (lp_tag player_info) = Some p ->
  score_loop (player_info :: rest) pd updates
  = score_loop rest
      (dset pd (lp_tag player_info) (add_points p (calculate_points rank)))
      (updates ++ [{| u_tag := lp_tag player_info; u_name := lp_name player_info;
                      u_rank := rank; u_points_added := calculate_points rank;
                      u_total_points := points p + calculate_points rank |}]).
Proof.
  intros Hr Hpos Hget. simpl. rewrite Hr, Hget.
  apply Z.ltb_lt in Hpos. now rewrite Hpos.
Qed.

(** An infinite rank leaves the loop with [OverflowError]. *)
Lemma score_loop_overflow (s : bool) :
  lp_rank player_info = JFloat (S754_infinity s) ->
  score_loop (player_info :: rest) pd updates = (Raise OverflowError, pd).
Proof. intros Hr. simpl. now rewrite Hr. Qed.
End ScoreLoop.

(** With no infinite rank, and every matched tag in the registry, the loop
    runs to its end. *)
Lemma score_loop_returns (linked_players : list linked) :
  forall (pd : dict string player) (updates : list update),
  (forall info, In info linked_players ->
     (forall s, lp_rank info <> JFloat (S754_infinity s))
     /\ dmem pd (lp_tag info) = true) ->
  exists updates' pd', score_loop linked_players pd updates = (Return updates', pd').
Proof.
  induction linked_players as [|info rest IH]; intros pd updates Hall; simpl; [eauto|].
  destruct (Hall info (or_introl eq_refl)) as [Hfin Hmem].
  assert (Hrest : forall pd' : dict string player, (forall k, dmem pd' k = dmem pd k) ->
            forall info', In info' rest ->
              (forall s, lp_rank info' <> JFloat (S754_infinity s))
              /\ dmem pd' (lp_tag info') = true).
  { intros pd' Hsame info' Hin. destruct (Hall info' (or_intror Hin)) as [Hf Hm].
    split; [exact Hf|]. now rewrite Hsame. }
  destruct (py_int (lp_rank info)) as [rank|e] eqn:Hr.
  - destruct (0 <? calculate_points rank).
    + unfold dmem in Hmem. destruct (dget pd (lp_tag info)) as [p|] eqn:Hget; [|discriminate].
      apply IH, Hrest. intros k. rewrite dmem_dset.
      destruct (keq_spec k (lp_tag info)) as [->|_]; [|reflexivity].
      unfold dmem. now rewrite Hget.
    + apply IH, Hrest. reflexivity.
  - destruct (py_int_raises _ _ Hr) as [->|[->|[-> [s Hinf]]]].
    + apply IH, Hrest. reflexivity.
    + apply IH, Hrest. reflexivity.
    + now destruct (Hfin s).
Qed.

(** When the call returns, the state was saved once if the list of updates
    is not empty and not at all if it is. *)
Lemma update_points_saves_once (env : io) (linked_players : list linked)
    (st : state) (dk : disk) (updates : list update) :
  result (update_points_for_leaderboard env linked_players st dk) = Return updates ->
  saves (update_points_for_leaderboard env linked_players st dk)
  = match updates with [] => 0%nat | _ => 1%nat end.
Proof.
  unfold update_points_for_leaderboard.
  destruct linked_players as [|info rest]; [now intros [= <-]|].
  destruct (score_loop (info :: rest) (player_data st) []) as [[ups|e] pd].
  - destruct ups; now intros [= <-].
  - discriminate.
Qed.

(** C2, at the input where the code fails it.  Three linked players stand
    at ranks 1, infinity (what [json.loads] makes of [Infinity]) and 3:
    [int()] raises [OverflowError], which the handler for [ValueError] and
    [TypeError] does not catch; the call raises, the third player is
    never scored, and the 20 points already added to the first one are
    not saved. *)
Theorem update_points_aborts_on_infinite_rank :
  let pd := [("PYL", {| discord_id := 42; points := 0; name := "ann" |});
             ("QGR", {| discord_id := 7; points := 0; name := "bob" |});
             ("GRJ", {| discord_id := 9; points := 0; name := "cy" |})] in
  let st := {| player_data := pd; user_accounts := rebuild_index pd |} in
  let dk := {| primary := Missing; backup := Missing |} in
  let players :=
    [JObj [("tag", JStr "#PYL"); ("name", JStr "ann"); ("rank", JInt 1)];
     JObj [("tag", JStr "#QGR"); ("name", JStr "bob");
           ("rank", JFloat (S754_infinity false))];
     JObj [("tag", JStr "#GRJ"); ("name", JStr "cy"); ("rank", JInt 3)]] in
  exists batch,
    find_linked_players_in_top_8 players pd = Return batch
    /\ update_points_for_leaderboard IoOk batch st dk
       = {| result := Raise OverflowError;
            memory :=
              {| player_data :=
                   [("PYL", {| discord_id := 42; points := 20; name := "ann" |});
                    ("QGR", {| discord_id := 7; points := 0; name := "bob" |});
                    ("GRJ", {| discord_id := 9; points := 0; name := "cy" |})];
                 user_accounts := rebuild_index pd |};
            files := dk;
            saves := 0 |}.
Proof. eexists. split; reflexivity. Qed.

(** ** The shape of the globals is kept *)

Lemma int_keys_dset (ua : dict pykey (list string)) (z : Z) (tags : list string) :
  int_keys ua = true -> int_keys (dset ua (KInt z) tags) = true.
Proof.
  unfold int_keys. induction ua as [|[k v] ua IH]; simpl; [reflexivity|].
  intros Hall. apply andb_true_iff in Hall. destruct Hall as [Hk Hall].
  destruct (keq (KInt z) k); simpl; rewrite Hk; simpl; [exact Hall|now apply IH].
Qed.

Lemma int_keys_rebuild_index (pd : dict string player) :
  int_keys (rebuild_index pd) = true.
Proof.
  unfold rebuild_index.
  assert (Hgen : forall ua, int_keys ua = true ->
            int_keys (fold_left index_step pd ua) = true).
  { induction pd as [|entry pd IH]; intros ua Hua; simpl; [exact Hua|].
    apply IH. unfold index_step.
    set (owner := KInt (discord_id (snd entry))).
    assert (H1 : int_keys (if dmem ua owner then ua else dset ua owner []) = true).
    { destruct (dmem ua owner); [exact Hua|now apply int_keys_dset]. }
    destruct (existsb _ _); [exact H1|now apply int_keys_dset]. }
  now apply Hgen.
Qed.

(** After [update_user_accounts], hence after start-up. *)
Lemma update_user_accounts_ok (st : state) :
  is_dict (player_data st) -> state_ok (update_user_accounts st).
Proof.
  intros Hpd. split; [exact Hpd|]. split.
  - apply rebuild_index_keys.
  - apply int_keys_rebuild_index.
Qed.

(** After the link command, whatever its reply. *)
Lemma link_slash_ok (env : io) (player_tag : string) (user_id : Z)
    (display_name : string) (st : state) (dk : disk) :
  state_ok st ->
  state_ok (snd (fst (link_slash env player_tag user_id display_name st dk))).
Proof.
  intros (Hpd & Hua & Hint). unfold link_slash.
  destruct (is_empty _ || negb _); [now repeat split|].
  destruct (dmem (player_data st) _); [now repeat split|].
  simpl. split; [now apply unique_keys_dset|].
  set (owner := KInt user_id).
  assert (H1 : is_dict (if dmem (user_accounts st) owner then user_accounts st
                        else dset (user_accounts st) owner [])
               /\ int_keys (if dmem (user_accounts st) owner then user_accounts st
                            else dset (user_accounts st) owner []) = true).
  { destruct (dmem (user_accounts st) owner); [now split|].
    split; [now apply unique_keys_dset|now apply int_keys_dset]. }
  destruct H1 as [Hd1 Hi1].
  split; [now apply unique_keys_dset|now apply int_keys_dset].
Qed.

(** After the scoring loop, however it is left. *)
Lemma score_loop_dict (linked_players : list linked) :
  forall (pd : dict string player) (updates : list update),
  is_dict pd -> is_dict (snd (score_loop linked_players pd updates)).
Proof.
  induction linked_players as [|info rest IH]; intros pd updates Hpd; simpl; [exact Hpd|].
  destruct (py_int (lp_rank info)) as [rank|e].
  - destruct (0 <? calculate_points rank); [|now apply IH].
    destruct (dget pd (lp_tag info)); [|exact Hpd].
    apply IH. now apply unique_keys_dset.
  - destruct e; simpl; try exact Hpd; now apply IH.
Qed.

(** * Further properties *)

(** ** Deleting from dictionaries and lists *)

Section DictDeleteFacts.
Context {K V : Type} `{EqKeyLaws K}.
Implicit Types (d : dict K V) (k : K) (v : V).

Lemma dmem_ddel_sub d k k' : dmem (ddel d k) k' = true -> dmem d k' = true.
Proof.
unfold dmem. induction d as [|[k0 v0] d IH]; simpl; [discriminate|].
destruct (keq k k0); simpl.
- intros Hm. destruct (keq k' k0); [reflexivity|exact Hm].
- destruct (keq k' k0); [reflexivity|exact IH].
Qed.

Lemma unique_keys_ddel d k : unique_keys d = true -> unique_keys (ddel d k) = true.
Proof.
induction d as [|[k0 v0] d IH]; simpl; [reflexivity|].
intros Hu. apply andb_true_iff in Hu. destruct Hu as [Hfresh Hu].
destruct (keq k k0); simpl; [exact Hu|].
rewrite IH by assumption. rewrite andb_true_r.
apply negb_true_iff in Hfresh. apply negb_true_iff.
destruct (dmem (ddel d k) k0) eqn:Hm; [|reflexivity].
apply dmem_ddel_sub in Hm. congruence.
Qed.

Lemma dget_ddel_other d k k' : k' <> k -> dget (ddel d k) k' = dget d k'.
Proof.
intros Hne. induction d as [|[k0 v0] d IH]; simpl; [reflexivity|].
destruct (keq_spec k k0) as [->|Hk]; simpl.
- now rewrite (keq_neq _ _ Hne).
- now rewrite IH.
Qed.

Lemma dget_ddel_same d k : unique_keys d = true -> dget (ddel d k) k = None.
Proof.
induction d as [|[k0 v0] d IH]; simpl; [reflexivity|].
intros Hu. apply andb_true_iff in Hu. destruct Hu as [Hfresh Hu].
apply negb_true_iff in Hfresh.
destruct (keq_spec k k0) as [->|Hk]; simpl.
- unfold dmem in Hfresh. now destruct (dget d k0).
- rewrite (keq_neq _ _ Hk). now apply IH.
Qed.

Lemma ddel_snoc_fresh d k v : dmem d k = false -> ddel (d ++ [(k, v)]) k = d.
Proof.
unfold dmem. induction d as [|[k0 v0] d IH]; simpl.
- now rewrite keq_refl.
- destruct (keq k k0); [discriminate|]. intros Hm. now rewrite IH.
Qed.

Lemma dset_same d k v : dget d k = Some v -> dset d k v = d.
Proof.
induction d as [|[k0 v0] d IH]; simpl; [discriminate|].
destruct (keq_spec k k0) as [->|Hk].
- now intros [= ->].
- intros Hg. now rewrite IH.
Qed.

Lemma dset_dset d k v v' : dset (dset d k v) k v' = dset d k v'.
Proof.
induction d as [|[k0 v0] d IH]; simpl.
- now rewrite keq_refl.
- destruct (keq k k0) eqn:Hk; simpl; rewrite Hk; [reflexivity|now rewrite IH].
Qed.

Lemma dkeys_dset_fresh d k v : dmem d k = false -> dkeys (dset d k v) = dkeys d ++ [k].
Proof.
intros Hm. rewrite (dset_fresh _ _ _ Hm). unfold dkeys. now rewrite map_app.
Qed.
End DictDeleteFacts.

Lemma remove_first_snoc (t : string) (tags : list string) :
  ~ In t tags -> remove_first t (tags ++ [t]) = tags.
Proof.
induction tags as [|t0 tags IH]; simpl; intros Hnot.
- now rewrite String.eqb_refl.
- destruct (String.eqb_spec t t0) as [->|_]; [tauto|].
  rewrite IH; [reflexivity|tauto].
Qed.

Lemma In_remove_first (t : string) (tags : list string) (x : string) :
  NoDup tags -> (In x (remove_first t tags) <-> In x tags /\ x <> t).
Proof.
induction tags as [|t0 tags IH]; simpl; intros Hnd; [tauto|].
inversion Hnd as [|? ? Hnot Hnd']; subst.
destruct (String.eqb_spec t t0) as [->|Hne].
- split; [intros Hin; split; [now right|congruence]|]. intros [[->|Hin] Hx]; tauto.
- simpl. rewrite (IH Hnd'). split.
  + intros [->|[Hin Hx]]; split; auto.
  + intros [[->|Hin] Hx]; auto.
Qed.

Lemma NoDup_remove_first (t : string) (tags : list string) :
  NoDup tags -> NoDup (remove_first t tags).
Proof.
induction tags as [|t0 tags IH]; simpl; intros Hnd; [constructor|].
inversion Hnd as [|? ? Hnot Hnd']; subst.
destruct (String.eqb t t0) eqn:Heq; [exact Hnd'|].
constructor; [|now apply IH].
intros Hin. apply In_remove_first in Hin; tauto.
Qed.

Lemma existsb_eqb_In (t : string) (tags : list string) :
  existsb (String.eqb t) tags = true <-> In t tags.
Proof.
rewrite existsb_exists. split.
- intros (x & Hin & Heq). apply String.eqb_eq in Heq. now subst.
- intros Hin. exists t. split; [exact Hin|apply String.eqb_refl].
Qed.

(** ** The Ownership Index stays consistent *)

Lemma owns_ddel (ua : dict pykey (list string)) (k0 k : pykey) (t : string) :
  is_dict ua -> (owns (ddel ua k0) k t <-> k <> k0 /\ owns ua k t).
Proof.
intros Hd. unfold owns. destruct (keq_spec k k0) as [->|Hne].
- rewrite (dget_ddel_same _ _ Hd). split.
  + now intros (ts & [=] & _).
  + intros [Hk _]. congruence.
- rewrite (dget_ddel_other _ _ _ Hne). tauto.
Qed.

Lemma owns_In (ua : dict pykey (list string)) (k : pykey) (tags : list string) (t : string) :
  dget ua k = Some tags -> (owns ua k t <-> In t tags).
Proof.
intros Hg. unfold owns. rewrite Hg. split.
- now intros (ts & [= <-] & Hin).
- eauto.
Qed.

Lemma owns_absent (ua : dict pykey (list string)) (k : pykey) (t : string) :
  dget ua k = None -> ~ owns ua k t.
Proof. intros Hg (ts & Hts & _). congruence. Qed.

(** The index update of [link_slash]. *)
Lemma link_index_owns (ua : dict pykey (list string)) (owner k : pykey) (t t' : string) :
  let ua1 := if dmem ua owner then ua else dset ua owner [] in
  owns (dset ua1 owner (get_or (dget ua1 owner) [] ++ [t])) k t'
  <-> owns ua k t' \/ (k = owner /\ t' = t).
Proof.
intros ua1.
assert (H1 : forall k' x, owns ua1 k' x <-> owns ua k' x).
{ intros k' x. unfold ua1. destruct (dmem ua owner) eqn:Hm; [tauto|].
  rewrite owns_dset. split.
  - intros [[_ []]|[_ Hown]]. assumption.
  - intros Hown. right. split; [|assumption].
    intros ->. destruct Hown as (ts & Hget & _).
    unfold dmem in Hm. now rewrite Hget in Hm. }
assert (H2 : forall x, In x (get_or (dget ua1 owner) []) <-> owns ua1 owner x).
{ intros x. unfold owns. destruct (dget ua1 owner) as [ts|]; simpl.
  - split; [eauto|]. now intros (ts' & [= <-] & Hin).
  - split; [tauto|]. now intros (ts' & [=] & _). }
rewrite owns_dset, in_app_iff, H2, !H1. simpl.
destruct (keq_spec k owner) as [->|Hne]; intuition congruence.
Qed.

Lemma rebuild_index_lists (pd : dict string player) :
  forall k tags, dget (rebuild_index pd) k = Some tags -> tags <> [] /\ NoDup tags.
Proof.
unfold rebuild_index.
assert (Hgen : forall ua,
          (forall k tags, dget ua k = Some tags -> tags <> [] /\ NoDup tags) ->
          forall k tags, dget (fold_left index_step pd ua) k = Some tags ->
                         tags <> [] /\ NoDup tags).
{ induction pd as [|[tag p] pd IH]; intros ua Hua; simpl; [exact Hua|].
  apply IH. intros k tags. unfold index_step; simpl.
  set (owner := KInt (discord_id p)).
  destruct (dmem ua owner) eqn:Hm.
  - unfold dmem in Hm. destruct (dget ua owner) as [ts|] eqn:Hts; [|discriminate].
    simpl. destruct (existsb (String.eqb tag) ts) eqn:Hex; [apply Hua|].
    destruct (keq_spec k owner) as [->|Hne].
    + rewrite dget_dset_same. intros [= <-].
      destruct (Hua _ _ Hts) as [_ Hnd]. split; [now destruct ts|].
      apply NoDup_app; [exact Hnd|repeat constructor; tauto|].
      intros x Hx [<-|[]]. apply existsb_eqb_In in Hx. congruence.
    + rewrite dget_dset_other by assumption. apply Hua.
  - rewrite dget_dset_same. simpl.
    destruct (keq_spec k owner) as [->|Hne].
    + rewrite dget_dset_same. intros [= <-]. split; [discriminate|].
      repeat constructor. tauto.
    + rewrite !dget_dset_other by assumption. apply Hua. }
apply Hgen. discriminate.
Qed.

Lemma rebuild_index_consistent (pd : dict string player) :
  is_dict pd ->
  index_consistent {| player_data := pd; user_accounts := rebuild_index pd |}.
Proof.
intros Hpd. split; [exact Hpd|]. split; [apply rebuild_index_keys|].
split; [apply rebuild_index_lists|].
intros k t. simpl. rewrite rebuild_index_owns. split.
- intros (p & Hin & ->). exists p. split; [now apply In_dget|reflexivity].
- intros (p & Hget & ->). exists p. split; [now apply dget_In|reflexivity].
Qed.

(** X1.  [update_user_accounts] makes the index consistent with the
    records, whatever the index was before. *)
Theorem update_user_accounts_consistent (st : state) :
  is_dict (player_data st) -> index_consistent (update_user_accounts st).
Proof. intros Hpd. now apply rebuild_index_consistent. Qed.

Lemma update_user_accounts_consistent_witness :
  let st := {| player_data :=
                 [("PYL", {| discord_id := 42; points := 20; name := "ann" |});
                  ("QGR", {| discord_id := 42; points := 0; name := "ann" |})];
               user_accounts := [(KStr "42", ["PYL"])] |} in
  is_dict (player_data st) /\ index_consistent (update_user_accounts st).
Proof.
split; [reflexivity|].
apply update_user_accounts_consistent. reflexivity.
Defined.

Lemma link_slash_ok_consistent (env : io) (player_tag : string) (user_id : Z)
    (display_name : string) (st : state) (dk : disk) :
  index_consistent st ->
  index_consistent (snd (fst (link_slash env player_tag user_id display_name st dk))).
Proof.
intros Hst. pose proof Hst as (Hpd & Hua & Hlists & Hcons). unfold link_slash.
set (t := normalize_tag player_tag).
destruct (is_empty t || negb (validate_player_tag t)); [exact Hst|].
destruct (dmem (player_data st) t) eqn:Hmem; [exact Hst|].
cbn [fst snd].
set (owner := KInt user_id).
set (ua1 := if dmem (user_accounts st) owner then user_accounts st
            else dset (user_accounts st) owner []).
assert (Hfresh : forall k, ~ owns (user_accounts st) k t).
{ intros k Hown. apply Hcons in Hown. destruct Hown as (p & Hget & _).
  unfold dmem in Hmem. now rewrite Hget in Hmem. }
split; [now apply unique_keys_dset|]. split.
{ simpl. apply unique_keys_dset. unfold ua1.
  destruct (dmem (user_accounts st) owner); [exact Hua|now apply unique_keys_dset]. }
split.
- intros k tags. simpl. fold owner. fold ua1.
  destruct (keq_spec k owner) as [->|Hne].
  + rewrite dget_dset_same. intros [= <-]. split; [now destruct (get_or _ _)|].
    assert (Hold : NoDup (get_or (dget ua1 owner) [])
                   /\ ~ In t (get_or (dget ua1 owner) [])).
    { unfold ua1. destruct (dmem (user_accounts st) owner) eqn:Hm.
      - unfold dmem in Hm.
        destruct (dget (user_accounts st) owner) as [ts|] eqn:Hts; [|discriminate].
        simpl. split; [apply (Hlists _ _ Hts)|].
        intros Hin. apply (Hfresh owner). now apply (owns_In _ _ _ _ Hts).
      - rewrite dget_dset_same. simpl. split; [constructor|tauto]. }
    destruct Hold as [Hnd Hnot].
    apply NoDup_app; [exact Hnd|repeat constructor; tauto|].
    intros x Hx [<-|[]]. tauto.
  + rewrite dget_dset_other by assumption. unfold ua1.
    destruct (dmem (user_accounts st) owner); [apply Hlists|].
    rewrite dget_dset_other by assumption. apply Hlists.
- intros k t'. simpl. fold owner. fold ua1.
  pose proof (link_index_owns (user_accounts st) owner k t t') as Hl.
  cbv zeta in Hl. fold ua1 in Hl. rewrite Hl, Hcons.
  destruct (String.eqb_spec t' t) as [->|Hne].
  + rewrite dget_dset_same. split.
    * intros [(p & Hget & _)|[-> _]].
      -- unfold dmem in Hmem. now rewrite Hget in Hmem.
      -- eexists. split; [reflexivity|reflexivity].
    * intros (p & [= <-] & ->). now right.
  + rewrite dget_dset_other by assumption. split.
    * intros [Hex|[_ Heq]]; [exact Hex|congruence].
    * intros Hex. now left.
Qed.

(** X2.  The link command keeps the index consistent, whatever it replies. *)
Theorem link_slash_consistent (env : io) (player_tag : string) (user_id : Z)
    (display_name : string) (st : state) (dk : disk) :
  index_consistent st ->
  index_consistent (snd (fst (link_slash env player_tag user_id display_name st dk))).
Proof. apply link_slash_ok_consistent. Qed.

Lemma link_slash_consistent_witness :
  let pd := [("PYL", {| discord_id := 42; points := 20; name := "ann" |});
             ("QGR", {| discord_id := 7; points := 14; name := "bob" |})] in
  let st := {| player_data := pd; user_accounts := rebuild_index pd |} in
  let dk := {| primary := Missing; backup := Missing |} in
  index_consistent st
  /\ index_consistent (snd (fst (link_slash IoOk "#grj" 42 "ann" st dk))).
Proof.
intros pd st dk.
assert (Hst : index_consistent st) by (apply rebuild_index_consistent; reflexivity).
split; [exact Hst|]. apply link_slash_consistent. exact Hst.
Defined.


(** X3.  The unlink command replies [NotLinked] and changes nothing for a
    tag that is not a key of the registry; for a key it removes that
    record and no other, and saves. *)
Theorem unlink_slash_removes_record (env : io) (player_tag : string)
    (st : state) (dk : disk) :
  let t := normalize_tag player_tag in
  is_dict (player_data st) ->
  (dmem (player_data st) t = false ->
     unlink_slash env player_tag st dk = (NotLinked, st, dk))
  /\ (dmem (player_data st) t = true ->
        exists st',
          unlink_slash env player_tag st dk
          = (Unlinked, st', save_player_data env st' dk)
          /\ dget (player_data st') t = None
          /\ forall t', t' <> t -> dget (player_data st') t' = dget (player_data st) t').
Proof.
intros t Hpd. unfold unlink_slash, dmem. fold t.
destruct (dget (player_data st) t) as [p|]; split; try discriminate.
- intros _. eexists. split; [reflexivity|]. simpl. split.
  + now apply dget_ddel_same.
  + intros t' Hne. now apply dget_ddel_other.
- reflexivity.
Qed.

Lemma unlink_slash_removes_record_witness :
  let st := {| player_data :=
                 [("PYL", {| discord_id := 42; points := 20; name := "ann" |});
                  ("QGR", {| discord_id := 42; points := 0; name := "ann" |})];
               user_accounts := [(KInt 42, ["PYL"; "QGR"])] |} in
  let dk := {| primary := Missing; backup := Missing |} in
  (is_dict (player_data st) /\ dmem (player_data st) (normalize_tag "#pyl") = true)
  /\ exists st',
       unlink_slash IoOk "#pyl" st dk = (Unlinked, st', save_player_data IoOk st' dk)
       /\ dget (player_data st') "PYL" = None.
Proof.
split; [split; reflexivity|].
destruct (unlink_slash_removes_record IoOk "#pyl"
            {| player_data :=
                 [("PYL", {| discord_id := 42; points := 20; name := "ann" |});
                  ("QGR", {| discord_id := 42; points := 0; name := "ann" |})];
               user_accounts := [(KInt 42, ["PYL"; "QGR"])] |}
            {| primary := Missing; backup := Missing |} eq_refl) as [_ Hyes].
destruct (Hyes eq_refl) as (st' & Hrun & Hgone & _).
exists st'. split; [exact Hrun|exact Hgone].
Defined.

(** X4.  The unlink command keeps the index consistent: the tag leaves its
    owner's list, and an owner left without tags leaves the index. *)
Theorem unlink_slash_consistent (env : io) (player_tag : string)
    (st : state) (dk : disk) :
  index_consistent st ->
  index_consistent (snd (fst (unlink_slash env player_tag st dk))).
Proof.
intros Hst. pose proof Hst as (Hpd & Hua & Hlists & Hcons). unfold unlink_slash.
set (t := normalize_tag player_tag).
destruct (dget (player_data st) t) as [p|] eqn:Hp; [|exact Hst].
set (owner := KInt (discord_id p)).
assert (Hown : owns (user_accounts st) owner t).
{ apply Hcons. now exists p. }
destruct Hown as (tags & Htags & Hin).
rewrite Htags. rewrite (proj2 (existsb_eqb_In t tags) Hin).
destruct (Hlists _ _ Htags) as [_ Hnd].
cbn [fst snd].
set (ua' := match remove_first t tags with
            | [] => ddel (user_accounts st) owner
            | _ :: _ => dset (user_accounts st) owner (remove_first t tags)
            end).
assert (Hsame : match remove_first t tags with
                | [] => ddel (user_accounts st) owner
                | s :: l => dset (user_accounts st) owner (s :: l)
                end = ua').
{ unfold ua'. now destruct (remove_first t tags). }
rewrite Hsame. clear Hsame.
assert (Hother : forall k, k <> owner -> dget ua' k = dget (user_accounts st) k).
{ intros k Hne. unfold ua'. destruct (remove_first t tags).
  - now apply dget_ddel_other.
  - now apply dget_dset_other. }
assert (Howner : match dget ua' owner with
                 | Some ts => ts = remove_first t tags /\ ts <> []
                 | None => remove_first t tags = []
                 end).
{ unfold ua'. destruct (remove_first t tags) as [|x l] eqn:Hrem.
  - now rewrite (dget_ddel_same _ _ Hua).
  - rewrite dget_dset_same. split; [reflexivity|discriminate]. }
assert (E : forall k t', owns ua' k t'
                         <-> owns (user_accounts st) k t' /\ ~ (k = owner /\ t' = t)).
{ intros k t'. destruct (keq_spec k owner) as [->|Hne].
  - rewrite (owns_In _ _ _ _ Htags).
    destruct (dget ua' owner) as [ts|] eqn:Hts.
    + destruct Howner as [-> _]. rewrite (owns_In _ _ _ _ Hts).
      rewrite (In_remove_first t tags t' Hnd). intuition congruence.
    + split; [intros Hown; now apply owns_absent in Hown|].
      intros [Hin' Hnot]. exfalso.
      assert (Hrm : In t' (remove_first t tags)).
      { apply In_remove_first; [exact Hnd|]. split; [exact Hin'|]. intros ->. tauto. }
      rewrite Howner in Hrm. exact Hrm.
  - unfold owns. rewrite (Hother _ Hne). intuition congruence. }
split; [now apply unique_keys_ddel|]. split.
{ unfold ua'. destruct (remove_first t tags);
    [now apply unique_keys_ddel|now apply unique_keys_dset]. }
split.
- intros k ts. simpl. destruct (keq_spec k owner) as [->|Hne].
  + intros Hts. rewrite Hts in Howner. destruct Howner as [-> Hnonempty].
    split; [exact Hnonempty|now apply NoDup_remove_first].
  + rewrite (Hother _ Hne). apply Hlists.
- intros k t'. simpl. rewrite E, Hcons.
  destruct (String.eqb_spec t' t) as [->|Hne].
  + rewrite (dget_ddel_same _ _ Hpd). split.
    * intros [(p0 & Hp0 & ->) Hnot]. exfalso. apply Hnot.
      rewrite Hp in Hp0. injection Hp0 as <-. now split.
    * now intros (p0 & [=] & _).
  + rewrite (dget_ddel_other _ _ _ Hne). split.
    * now intros [Hex _].
    * intros Hex. split; [exact Hex|]. intros [_ Heq]. congruence.
Qed.

Lemma unlink_slash_consistent_witness :
  let pd := [("PYL", {| discord_id := 42; points := 20; name := "ann" |});
             ("QGR", {| discord_id := 7; points := 14; name := "bob" |})] in
  let st := {| player_data := pd; user_accounts := rebuild_index pd |} in
  let dk := {| primary := Missing; backup := Missing |} in
  index_consistent st
  /\ index_consistent (snd (fst (unlink_slash IoOk "#qgr" st dk))).
Proof.
intros pd st dk.
assert (Hst : index_consistent st) by (apply rebuild_index_consistent; reflexivity).
split; [exact Hst|]. apply unlink_slash_consistent. exact Hst.
Defined.


(** X5.  Linking a tag and unlinking it again gives back the registry and
    the index as they were. *)
Theorem link_then_unlink_restores (env env' : io) (player_tag : string)
    (user_id : Z) (display_name : string) (st : state) (dk : disk) :
  index_consistent st ->
  fst (fst (link_slash env player_tag user_id display_name st dk)) = Linked ->
  fst (unlink_slash env' player_tag
         (snd (fst (link_slash env player_tag user_id display_name st dk)))
         (snd (link_slash env player_tag user_id display_name st dk)))
  = (Unlinked, st).
Proof.
intros (Hpd & Hua & Hlists & Hcons). unfold link_slash.
set (t := normalize_tag player_tag).
destruct (is_empty t || negb (validate_player_tag t)); [discriminate|].
destruct (dmem (player_data st) t) eqn:Hmem; [discriminate|].
intros _. cbn [fst snd]. unfold unlink_slash. fold t. cbn [player_data user_accounts].
rewrite dget_dset_same. cbn [discord_id].
set (owner := KInt user_id).
set (ua1 := if dmem (user_accounts st) owner then user_accounts st
            else dset (user_accounts st) owner []).
rewrite dget_dset_same.
assert (Hfresh : forall k, ~ owns (user_accounts st) k t).
{ intros k Hown. apply Hcons in Hown. destruct Hown as (p & Hget & _).
  unfold dmem in Hmem. now rewrite Hget in Hmem. }
assert (Hpd' : ddel (dset (player_data st) t
                       {| discord_id := user_id; points := 0; name := display_name |}) t
               = player_data st).
{ rewrite (dset_fresh _ _ _ Hmem). now apply ddel_snoc_fresh. }
rewrite Hpd'.
assert (Hex : existsb (String.eqb t) (get_or (dget ua1 owner) [] ++ [t]) = true).
{ apply existsb_eqb_In, in_or_app. right. now left. }
rewrite Hex.
assert (Hua' : match remove_first t (get_or (dget ua1 owner) [] ++ [t]) with
               | [] => ddel (dset ua1 owner (get_or (dget ua1 owner) [] ++ [t])) owner
               | s :: l =>
                   dset (dset ua1 owner (get_or (dget ua1 owner) [] ++ [t])) owner (s :: l)
               end = user_accounts st).
{ unfold ua1. destruct (dmem (user_accounts st) owner) eqn:Hm.
  - unfold dmem in Hm.
    destruct (dget (user_accounts st) owner) as [ts|] eqn:Hts; [|discriminate].
    simpl. rewrite remove_first_snoc.
    + destruct (Hlists _ _ Hts) as [Hne _].
      destruct ts as [|s l]; [congruence|].
      rewrite dset_dset. now apply dset_same.
    + intros Hin. apply (Hfresh owner). now apply (owns_In _ _ _ _ Hts).
  - rewrite dget_dset_same. simpl. rewrite String.eqb_refl.
    rewrite dset_dset, (dset_fresh _ _ _ Hm). now apply ddel_snoc_fresh. }
rewrite Hua'. now destruct st.
Qed.

Lemma link_then_unlink_restores_witness :
  let st := {| player_data :=
                 [("PYL", {| discord_id := 42; points := 20; name := "ann" |})];
               user_accounts := [(KInt 42, ["PYL"])] |} in
  let dk := {| primary := Missing; backup := Missing |} in
  (index_consistent st /\ fst (fst (link_slash IoOk "#qgr" 42 "ann" st dk)) = Linked)
  /\ fst (unlink_slash IoOk "#qgr"
            (snd (fst (link_slash IoOk "#qgr" 42 "ann" st dk)))
            (snd (link_slash IoOk "#qgr" 42 "ann" st dk)))
     = (Unlinked, st).
Proof.
assert (Hst : index_consistent
                {| player_data :=
                     [("PYL", {| discord_id := 42; points := 20; name := "ann" |})];
                   user_accounts :=
                     rebuild_index
                       [("PYL", {| discord_id := 42; points := 20; name := "ann" |})] |}).
{ apply rebuild_index_consistent. reflexivity. }
split; [split; [exact Hst|reflexivity]|].
apply (link_then_unlink_restores IoOk IoOk "#qgr" 42 "ann" _ _ Hst). reflexivity.
Defined.

(** ** Scoring only adds points *)

Lemma grown_refl (pd : dict string player) : grown pd pd.
Proof.
induction pd as [|e pd IH]; constructor; [|exact IH].
repeat split; reflexivity || lia.
Qed.

Lemma grown_trans (a b c : dict string player) : grown a b -> grown b c -> grown a c.
Proof.
intros Hab. revert c. induction Hab as [|x y a b Hxy Hab IH]; intros c Hbc.
- inversion Hbc. constructor.
- inversion Hbc as [|? z ? c' Hyz Hbc']; subst. constructor; [|now apply IH].
  destruct Hxy as (H1 & H2 & H3 & H4), Hyz as (H5 & H6 & H7 & H8).
  repeat split; congruence || lia.
Qed.

Lemma grown_dset (pd : dict string player) (t : string) (p : player) (delta : Z) :
  dget pd t = Some p -> 0 <= delta -> grown pd (dset pd t (add_points p delta)).
Proof.
intros Hget Hdelta. induction pd as [|[k q] pd IH]; simpl in *; [discriminate|].
destruct (keq t k).
- injection Hget as ->. constructor; [|apply grown_refl].
  simpl. repeat split; lia.
- constructor; [|now apply IH]. repeat split; reflexivity || lia.
Qed.

Lemma grown_dget (pd pd' : dict string player) (t : string) :
  grown pd pd' ->
  match dget pd t, dget pd' t with
  | Some p, Some p' =>
      discord_id p' = discord_id p /\ name p' = name p /\ points p <= points p'
  | None, None => True
  | _, _ => False
  end.
Proof.
induction 1 as [|[k p] [k' p'] pd pd' Hrel Hrest IH]; simpl; [exact I|].
destruct Hrel as (Hk & Hid & Hname & Hpts). simpl in *. subst k'.
destruct (keq t k); [|exact IH]. repeat split; congruence || lia.
Qed.

Lemma grown_keys (pd pd' : dict string player) : grown pd pd' -> dkeys pd' = dkeys pd.
Proof.
induction 1 as [|e e' pd pd' Hrel Hrest IH]; simpl; [reflexivity|].
destruct Hrel as (Hk & _). now rewrite IH, Hk.
Qed.

Lemma grown_dmem (pd pd' : dict string player) (t : string) :
  grown pd pd' -> dmem pd' t = dmem pd t.
Proof.
intros Hg. pose proof (grown_dget pd pd' t Hg) as H. unfold dmem.
destruct (dget pd t), (dget pd' t); tauto.
Qed.

Lemma grown_unique (pd pd' : dict string player) :
  grown pd pd' -> unique_keys pd' = unique_keys pd.
Proof.
induction 1 as [|[k p] [k' p'] pd pd' Hrel Hrest IH]; simpl; [reflexivity|].
destruct Hrel as (Hk & _). simpl in Hk. subst k'.
now rewrite IH, (grown_dmem pd pd' k Hrest).
Qed.

Lemma score_loop_grown (linked_players : list linked) :
  forall (pd : dict string player) (updates : list update),
  grown pd (snd (score_loop linked_players pd updates)).
Proof.
induction linked_players as [|info rest IH]; intros pd updates; simpl; [apply grown_refl|].
destruct (py_int (lp_rank info)) as [rank|e].
- destruct (0 <? calculate_points rank); [|apply IH].
  destruct (dget pd (lp_tag info)) as [p|] eqn:Hget; [|apply grown_refl].
  eapply grown_trans; [|apply IH].
  apply grown_dset; [exact Hget|apply calculate_points_nonneg].
- destruct e; simpl; try apply grown_refl; apply IH.
Qed.

Lemma update_points_memory (env : io) (linked_players : list linked)
    (st : state) (dk : disk) :
  memory (update_points_for_leaderboard env linked_players st dk)
  = with_player_data st
      (match linked_players with
       | [] => player_data st
       | _ => snd (score_loop linked_players (player_data st) [])
       end).
Proof.
unfold update_points_for_leaderboard. destruct linked_players as [|info rest].
- now destruct st.
- destruct (score_loop (info :: rest) (player_data st) []) as [[[|u ups]|e] pd];
    reflexivity.
Qed.

Lemma update_points_grown (env : io) (linked_players : list linked)
    (st : state) (dk : disk) :
  grown (player_data st)
    (player_data (memory (update_points_for_leaderboard env linked_players st dk)))
  /\ user_accounts (memory (update_points_for_leaderboard env linked_players st dk))
     = user_accounts st.
Proof.
rewrite update_points_memory. simpl. split; [|reflexivity].
destruct linked_players; [apply grown_refl|apply score_loop_grown].
Qed.

(** X6.  However the scoring call ends, it leaves the index alone and in
    the registry it only adds points: the tags and their order, every
    owner and every name stay, and no record loses points. *)
Theorem update_points_only_adds_points (env : io) (linked_players : list linked)
    (st : state) (dk : disk) :
  let st' := memory (update_points_for_leaderboard env linked_players st dk) in
  user_accounts st' = user_accounts st
  /\ dkeys (player_data st') = dkeys (player_data st)
  /\ (forall t, dget (player_data st) t = None -> dget (player_data st') t = None)
  /\ forall t p, dget (player_data st) t = Some p ->
       exists p', dget (player_data st') t = Some p'
                  /\ discord_id p' = discord_id p /\ name p' = name p
                  /\ points p <= points p'.
Proof.
destruct (update_points_grown env linked_players st dk) as [Hg Hua].
cbv zeta.
set (pd' := player_data (memory (update_points_for_leaderboard env linked_players st dk))) in *.
split; [exact Hua|]. split; [now apply grown_keys|]. split.
- intros t Hnone. pose proof (grown_dget _ _ t Hg) as H. rewrite Hnone in H.
  destruct (dget pd' t); [contradiction|reflexivity].
- intros t p Hsome. pose proof (grown_dget _ _ t Hg) as H. rewrite Hsome in H.
  destruct (dget pd' t) as [p'|]; [eauto|contradiction].
Qed.

(** X7.  The scoring call keeps the index consistent, however it ends. *)
Theorem update_points_consistent (env : io) (linked_players : list linked)
    (st : state) (dk : disk) :
  index_consistent st ->
  index_consistent (memory (update_points_for_leaderboard env linked_players st dk)).
Proof.
intros (Hpd & Hua & Hlists & Hcons).
destruct (update_points_grown env linked_players st dk) as [Hg Heq].
set (st' := memory _) in *.
split; [unfold is_dict; now rewrite (grown_unique _ _ Hg)|].
rewrite Heq. split; [exact Hua|]. split; [exact Hlists|].
intros k t. rewrite Hcons. pose proof (grown_dget _ _ t Hg) as H.
destruct (dget (player_data st) t) as [p|], (dget (player_data st') t) as [p'|];
  try contradiction.
- destruct H as (Hid & _). split; intros (q & [= <-] & ->); eexists; split;
    try reflexivity; now rewrite Hid.
- split; now intros (q & [=] & _).
Qed.

Lemma update_points_consistent_witness :
  let pd := [("PYL", {| discord_id := 42; points := 20; name := "ann" |});
             ("QGR", {| discord_id := 7; points := 14; name := "bob" |})] in
  let st := {| player_data := pd; user_accounts := rebuild_index pd |} in
  let dk := {| primary := Missing; backup := Missing |} in
  let batch := [{| lp_tag := "QGR"; lp_name := JStr "bob"; lp_rank := JInt 3 |}] in
  index_consistent st
  /\ index_consistent (memory (update_points_for_leaderboard IoOk batch st dk)).
Proof.
intros pd st dk batch.
assert (Hst : index_consistent st) by (apply rebuild_index_consistent; reflexivity).
split; [exact Hst|]. apply update_points_consistent. exact Hst.
Defined.


(** ** What a scoring call reports *)

Lemma fold_add_shift {A : Type} (f : A -> Z) (l : list A) (a : Z) :
  fold_left (fun acc x => acc + f x) l a = a + fold_left (fun acc x => acc + f x) l 0.
Proof.
revert a. induction l as [|x l IH]; intros a; simpl; [lia|].
rewrite (IH (a + f x)), (IH (f x)). lia.
Qed.

Lemma points_added_app (a b : list update) :
  points_added (a ++ b) = points_added a + points_added b.
Proof.
unfold points_added. rewrite fold_left_app.
now rewrite (fold_add_shift u_points_added b).
Qed.

Lemma registry_points_cons (e : string * player) (pd : dict string player) :
  registry_points (e :: pd) = points (snd e) + registry_points pd.
Proof.
unfold registry_points. simpl.
now rewrite (fold_add_shift (fun kv => points (snd kv)) pd).
Qed.

Lemma registry_points_dset (pd : dict string player) (t : string) (p : player) (delta : Z) :
  dget pd t = Some p ->
  registry_points (dset pd t (add_points p delta)) = registry_points pd + delta.
Proof.
induction pd as [|[k q] pd IH]; simpl; [discriminate|].
destruct (keq t k).
- intros [= ->]. rewrite !registry_points_cons. simpl. lia.
- intros Hget. rewrite !registry_points_cons, IH by assumption. simpl. lia.
Qed.

Lemma calculate_points_positive (rank : Z) :
  0 < calculate_points rank ->
  1 <= rank <= 8 /\ 2 <= calculate_points rank <= 20.
Proof.
unfold calculate_points, POINT_SYSTEM, dget, keq, EqKey_Z.
repeat match goal with
       | |- context [Z.eqb rank ?k] => destruct (Z.eqb_spec rank k); [lia|]
       end.
lia.
Qed.

Lemma score_loop_report (linked_players : list linked) :
  forall (pd : dict string player) (updates updates' : list update)
         (pd' : dict string player),
  score_loop linked_players pd updates = (Return updates', pd') ->
  exists new,
    updates' = updates ++ new
    /\ Forall (sound_update pd) new
    /\ registry_points pd' = registry_points pd + points_added new
    /\ (new = [] -> pd' = pd).
Proof.
induction linked_players as [|info rest IH]; intros pd updates updates' pd'; simpl.
- intros [= <- <-]. exists []. rewrite app_nil_r. repeat split; auto.
  unfold points_added; simpl; lia.
- destruct (py_int (lp_rank info)) as [rank|e].
  + destruct (0 <? calculate_points rank) eqn:Hpos; [|apply IH].
    destruct (dget pd (lp_tag info)) as [p|] eqn:Hget; [|discriminate].
    intros Hrun. apply IH in Hrun. destruct Hrun as (new & -> & Hsound & Hsum & _).
    apply Z.ltb_lt in Hpos. destruct (calculate_points_positive rank Hpos) as [Hr Hp].
    eexists (_ :: new). rewrite <- app_assoc. split; [reflexivity|]. split; [|split].
    * constructor.
      -- unfold sound_update, dmem. simpl. rewrite Hget. repeat split; lia.
      -- eapply Forall_impl; [|exact Hsound].
         intros u (Hm & Hrest). split; [|exact Hrest].
         rewrite dmem_dset in Hm. apply orb_true_iff in Hm. destruct Hm as [Hm|Hm]; [|exact Hm].
         apply keq_eq in Hm. rewrite Hm. unfold dmem. now rewrite Hget.
    * rewrite Hsum, (registry_points_dset _ _ _ _ Hget).
      change (?u :: new) with ([u] ++ new). rewrite points_added_app.
      unfold points_added at 2. simpl. lia.
    * discriminate.
  + destruct e; try (intros Hrun; discriminate Hrun); apply IH.
Qed.

(** X8.  When the scoring call returns, every update it reports names a
    linked tag, a rank from 1 to 8 and the points of that rank (from 2 to
    20), the points in the registry have grown by exactly the points
    reported, and an empty report means that neither the registry nor the
    disk was touched. *)
Theorem update_points_report (env : io) (linked_players : list linked)
    (st : state) (dk : disk) (updates : list update) :
  let r := update_points_for_leaderboard env linked_players st dk in
  result r = Return updates ->
  Forall (sound_update (player_data st)) updates
  /\ registry_points (player_data (memory r))
     = registry_points (player_data st) + points_added updates
  /\ (updates = [] -> memory r = st /\ files r = dk).
Proof.
cbv zeta. unfold update_points_for_leaderboard.
destruct linked_players as [|info rest].
- intros [= <-]. split; [constructor|]. split; [unfold points_added; simpl; lia|].
  intros _. split; reflexivity.
- destruct (score_loop (info :: rest) (player_data st) []) as [[ups|e] pd] eqn:Hrun.
  + apply score_loop_report in Hrun. destruct Hrun as (new & Hups & Hsound & Hsum & Hsame).
    simpl in Hups. subst ups.
    destruct new as [|u new]; simpl; intros [= <-].
    * rewrite (Hsame eq_refl). split; [constructor|].
      split; [unfold points_added; simpl; lia|].
      intros _. split; [now destruct st|reflexivity].
    * split; [exact Hsound|]. split; [exact Hsum|]. discriminate.
  + discriminate.
Qed.

Lemma update_points_report_witness :
  let pd := [("PYL", {| discord_id := 42; points := 5; name := "ann" |})] in
  let st := {| player_data := pd; user_accounts := [(KInt 42, ["PYL"])] |} in
  let dk := {| primary := Missing; backup := Missing |} in
  let batch := [{| lp_tag := "PYL"; lp_name := JStr "ann"; lp_rank := JStr "2" |}] in
  exists updates,
    result (update_points_for_leaderboard IoOk batch st dk) = Return updates
    /\ registry_points
         (player_data (memory (update_points_for_leaderboard IoOk batch st dk)))
       = registry_points pd + points_added updates.
Proof.
eexists. split; [reflexivity|].
apply (update_points_report IoOk
         [{| lp_tag := "PYL"; lp_name := JStr "ann"; lp_rank := JStr "2" |}]
         {| player_data := [("PYL", {| discord_id := 42; points := 5; name := "ann" |})];
            user_accounts := [(KInt 42, ["PYL"])] |}
         {| primary := Missing; backup := Missing |}).
reflexivity.
Defined.

(** ** From the matcher to the scoring *)

Lemma remove_upper (s : string) :
  remove_char "#" (upper s) = upper (remove_char "#" s).
Proof.
induction s as [|c s IH]; simpl; [reflexivity|].
assert (Hc : Ascii.eqb (upper_char c) "#" = Ascii.eqb c "#")
  by (destruct c as [[] [] [] [] [] [] [] []]; reflexivity).
rewrite Hc. destruct (Ascii.eqb c "#"); simpl; now rewrite IH.
Qed.

Lemma remove_char_idem (ch : ascii) (s : string) :
  remove_char ch (remove_char ch s) = remove_char ch s.
Proof.
induction s as [|c s IH]; simpl; [reflexivity|].
destruct (Ascii.eqb c ch) eqn:Hc; [exact IH|]. simpl. now rewrite Hc, IH.
Qed.

Lemma normalize_tag_idem (s : string) :
  normalize_tag (normalize_tag s) = normalize_tag s.
Proof.
unfold normalize_tag. now rewrite remove_upper, remove_char_idem, upper_idem.
Qed.

Lemma match_loop_emits (pd : dict string player) (players : list json) :
  forall found batch,
  match_loop pd players found = Return batch ->
  Forall (emitted_ok pd) found ->
  Forall (emitted_ok pd) batch
  /\ (List.length batch <= List.length found + List.length players)%nat.
Proof.
induction players as [|player players IH]; intros found batch; simpl.
- intros [= <-] Hfound. split; [exact Hfound|lia].
- destruct player as [| | | | |l|o]; simpl; try discriminate.
  destruct (obj_get o "tag" (JStr EmptyString)) as [| | | |raw| |]; simpl; try discriminate.
  destruct (is_empty (normalize_tag raw)) eqn:Hemp.
  + intros Hrun Hfound. destruct (IH _ _ Hrun Hfound) as [Hall Hlen]. split; [exact Hall|lia].
  + destruct (dmem pd (normalize_tag raw)) eqn:Hmem.
    * intros Hrun Hfound. apply IH in Hrun.
      -- destruct Hrun as [Hall Hlen]. split; [exact Hall|].
         rewrite length_app in Hlen. simpl in Hlen. lia.
      -- apply Forall_app. split; [exact Hfound|]. constructor; [|constructor].
         unfold emitted_ok. simpl. repeat split; auto. apply normalize_tag_idem.
    * intros Hrun Hfound. destruct (IH _ _ Hrun Hfound) as [Hall Hlen]. split; [exact Hall|lia].
Qed.

Lemma match_loop_unreadable (pd : dict string player) (players : list json) :
  forall found,
  forallb record_ok players = false ->
  match_loop pd players found = Raise AttributeError.
Proof.
induction players as [|player players IH]; intros found; simpl; [discriminate|].
intros Hbad. apply andb_false_iff in Hbad.
destruct player as [| | | | |l|o]; simpl; try reflexivity.
unfold obj_get. simpl in Hbad.
destruct (dget o "tag") as [v|]; simpl.
- destruct v as [| | | |raw| |]; simpl; try reflexivity.
  destruct Hbad as [Hbad|Hbad]; [discriminate|].
  destruct (is_empty (normalize_tag raw)); [now apply IH|].
  destruct (dmem pd (normalize_tag raw)); now apply IH.
- destruct Hbad as [Hbad|Hbad]; [discriminate|]. now apply IH.
Qed.

Lemma matcher_emits_registered_aux (players : list json) (pd : dict string player)
    (batch : list linked) :
  find_linked_players_in_top_8 players pd = Return batch ->
  Forall (fun info => dmem pd (lp_tag info) = true) batch.
Proof.
unfold find_linked_players_in_top_8. intros Hrun.
destruct (match_loop_emits pd _ _ _ Hrun (Forall_nil _)) as [Hall _].
eapply Forall_impl; [|exact Hall]. now intros info (_ & Hm & _).
Qed.

(** X9.  Whenever the matcher returns, it returns at most 8 matches, each
    with a non-empty tag in normal form that is a key of the registry. *)
Theorem matcher_emits_registered (players : list json) (pd : dict string player)
    (batch : list linked) :
  find_linked_players_in_top_8 players pd = Return batch ->
  (List.length batch <= 8)%nat /\ Forall (emitted_ok pd) batch.
Proof.
unfold find_linked_players_in_top_8. intros Hrun.
destruct (match_loop_emits pd _ _ _ Hrun (Forall_nil _)) as [Hall Hlen].
split; [|exact Hall]. change (List.length (@nil linked)) with 0%nat in Hlen.
pose proof (firstn_le_length 8 players). lia.
Qed.

Lemma matcher_emits_registered_witness :
  let pd := [("PYL", {| discord_id := 42; points := 20; name := "ann" |})] in
  let players :=
    [JObj [("tag", JStr "#pyl"); ("rank", JInt 1)]; JObj [("tag", JStr "#QGR")]] in
  exists batch,
    find_linked_players_in_top_8 players pd = Return batch
    /\ (List.length batch <= 8)%nat /\ Forall (emitted_ok pd) batch.
Proof.
eexists. split; [reflexivity|].
apply (matcher_emits_registered
         [JObj [("tag", JStr "#pyl"); ("rank", JInt 1)]; JObj [("tag", JStr "#QGR")]]
         [("PYL", {| discord_id := 42; points := 20; name := "ann" |})]).
reflexivity.
Defined.

(** X10.  The matcher raises exactly when one of the first 8 records is not
    an object or has a tag that is not a string; what it raises is
    [AttributeError], and records after the 8th are never looked at. *)
Theorem matcher_raises_iff_unreadable (players : list json) (pd : dict string player) :
  (forallb record_ok (firstn 8 players) = false
   <-> find_linked_players_in_top_8 players pd = Raise AttributeError)
  /\ (forall e, find_linked_players_in_top_8 players pd = Raise e -> e = AttributeError).
Proof.
unfold find_linked_players_in_top_8.
destruct (forallb record_ok (firstn 8 players)) eqn:Hok.
- rewrite match_loop_ok by exact Hok. split; [split; discriminate|discriminate].
- rewrite match_loop_unreadable by exact Hok.
  split; [split; reflexivity|]. now intros e [= <-].
Qed.

Lemma score_loop_raises (linked_players : list linked) :
  forall (pd pd' : dict string player) (updates : list update) (e : exn),
  (forall info, In info linked_players -> dmem pd (lp_tag info) = true) ->
  score_loop linked_players pd updates = (Raise e, pd') ->
  e = OverflowError
  /\ exists info s, In info linked_players /\ lp_rank info = JFloat (S754_infinity s).
Proof.
induction linked_players as [|info rest IH]; intros pd pd' updates e Hall; simpl;
  [discriminate|].
assert (Hrest : forall pd0 : dict string player,
          (forall k, dmem pd0 k = dmem pd k) ->
          forall info', In info' rest -> dmem pd0 (lp_tag info') = true).
{ intros pd0 Hsame info' Hin. rewrite Hsame. apply Hall. now right. }
assert (Hstep : forall pd0 ups,
          (forall k, dmem pd0 k = dmem pd k) ->
          score_loop rest pd0 ups = (Raise e, pd') ->
          e = OverflowError
          /\ exists info' s, (info = info' \/ In info' rest)
                             /\ lp_rank info' = JFloat (S754_infinity s)).
{ intros pd0 ups Hsame Hrun.
  destruct (IH _ _ _ _ (Hrest pd0 Hsame) Hrun) as [He (i & s & Hin & Hr)].
  split; [exact He|]. exists i, s. split; [now right|exact Hr]. }
destruct (py_int (lp_rank info)) as [rank|e0] eqn:Hr.
- destruct (0 <? calculate_points rank); [|now apply Hstep].
  pose proof (Hall info (or_introl eq_refl)) as Hmem. unfold dmem in Hmem.
  destruct (dget pd (lp_tag info)) as [p|] eqn:Hget; [|discriminate].
  apply Hstep. intros k. rewrite dmem_dset.
  destruct (keq_spec k (lp_tag info)) as [->|_]; [|reflexivity].
  unfold dmem. now rewrite Hget.
- destruct (py_int_raises _ _ Hr) as [->|[->|[-> [s Hinf]]]].
  + now apply Hstep.
  + now apply Hstep.
  + intros [= <- _]. split; [reflexivity|]. exists info, s. split; [now left|exact Hinf].
Qed.

(** X11.  Scoring what the matcher returned for the same registry never
    fails on a missing tag: the call returns unless a matched record has
    an infinite rank, and then what it raises is [OverflowError]. *)
Theorem scoring_after_matching (env : io) (players : list json) (st : state)
    (dk : disk) (batch : list linked) :
  find_linked_players_in_top_8 players (player_data st) = Return batch ->
  let r := update_points_for_leaderboard env batch st dk in
  (forall e, result r = Raise e ->
     e = OverflowError
     /\ exists info s, In info batch /\ lp_rank info = JFloat (S754_infinity s))
  /\ ((forall info s, In info batch -> lp_rank info <> JFloat (S754_infinity s)) ->
      exists updates, result r = Return updates).
Proof.
intros Hmatch. apply matcher_emits_registered_aux in Hmatch.
assert (Hmem : forall info, In info batch -> dmem (player_data st) (lp_tag info) = true).
{ intros info Hin. rewrite Forall_forall in Hmatch. now apply Hmatch. }
cbv zeta. unfold update_points_for_leaderboard.
destruct batch as [|info rest];
  [split; [discriminate|intros _; eexists; reflexivity]|].
destruct (score_loop (info :: rest) (player_data st) []) as [[ups|e] pd] eqn:Hrun.
- split; [destruct ups; discriminate|]. intros _. destruct ups; simpl; eauto.
- simpl. split.
  + intros e' [= <-]. exact (score_loop_raises _ _ _ _ _ Hmem Hrun).
  + intros Hfin. destruct (score_loop_raises _ _ _ _ _ Hmem Hrun) as [_ (i & s & Hin & Hr)].
    now destruct (Hfin i s Hin).
Qed.

Lemma scoring_after_matching_witness :
  let pd := [("PYL", {| discord_id := 42; points := 20; name := "ann" |})] in
  let st := {| player_data := pd; user_accounts := [(KInt 42, ["PYL"])] |} in
  let dk := {| primary := Missing; backup := Missing |} in
  let players := [JObj [("tag", JStr "#pyl"); ("rank", JNull)]] in
  exists batch,
    find_linked_players_in_top_8 players pd = Return batch
    /\ forall e, result (update_points_for_leaderboard IoOk batch st dk) = Raise e ->
                 e = OverflowError.
Proof.
eexists. split; [reflexivity|].
intros e He.
pose proof (scoring_after_matching IoOk
              [JObj [("tag", JStr "#pyl"); ("rank", JNull)]]
              {| player_data :=
                   [("PYL", {| discord_id := 42; points := 20; name := "ann" |})];
                 user_accounts := [(KInt 42, ["PYL"])] |}
              {| primary := Missing; backup := Missing |} _ eq_refl) as Hspec.
cbv zeta in Hspec. destruct Hspec as [Hraise _].
exact (proj1 (Hraise e He)).
Defined.

(** ** Tags *)

Lemma char_in_remove_char (ch : ascii) (s : string) :
  char_in ch (remove_char ch s) = false.
Proof.
induction s as [|c s IH]; simpl; [reflexivity|].
destruct (Ascii.eqb c ch) eqn:Hc; [exact IH|].
simpl. rewrite Ascii.eqb_sym, Hc. exact IH.
Qed.

Lemma upper_no_lower (s : string) :
  all_chars (fun c => negb (is_lower c)) (upper s) = true.
Proof.
induction s as [|c s IH]; simpl; [reflexivity|].
rewrite IH, andb_true_r.
destruct c as [[] [] [] [] [] [] [] []]; reflexivity.
Qed.

(** X12.  Normalising a tag gives a text without ['#'] and without
    lower-case letters, and normalising again, or upper-casing first,
    changes nothing: two spellings that differ in case and in ['#'] only
    name the same tag. *)
Theorem normalize_tag_canonical (s : string) :
  normalize_tag (normalize_tag s) = normalize_tag s
  /\ normalize_tag (upper s) = normalize_tag s
  /\ normalize_tag (String "#" s) = normalize_tag s
  /\ char_in "#" (normalize_tag s) = false
  /\ all_chars (fun c => negb (is_lower c)) (normalize_tag s) = true.
Proof.
split; [apply normalize_tag_idem|]. split; [|split; [reflexivity|split]].
- unfold normalize_tag. now rewrite remove_upper, upper_idem.
- unfold normalize_tag. rewrite <- remove_upper. apply char_in_remove_char.
- apply upper_no_lower.
Qed.

Lemma span_split (p : ascii -> bool) (s : string) :
  exists pre,
    s = (pre ++ snd (span p s))%string
    /\ all_chars p pre = true
    /\ String.length pre = fst (span p s)
    /\ match snd (span p s) with
       | EmptyString => True
       | String c _ => p c = false
       end.
Proof.
induction s as [|c s IH]; simpl.
- now exists EmptyString.
- destruct (p c) eqn:Hc.
  + destruct IH as (pre & Hs & Hall & Hlen & Hrest).
    destruct (span p s) as [n rest]. simpl in *.
    exists (String c pre). simpl. rewrite Hc, Hall, Hlen, <- Hs. repeat split. exact Hrest.
  + exists EmptyString. simpl. repeat split. exact Hc.
Qed.

Lemma span_app (p : ascii -> bool) (pre rest : string) :
  all_chars p pre = true ->
  match rest with
  | EmptyString => True
  | String c _ => p c = false
  end ->
  span p (pre ++ rest) = (String.length pre, rest).
Proof.
intros Hall Hrest. induction pre as [|c pre IH]; simpl in *.
- destruct rest as [|c rest]; simpl; [reflexivity|]. now rewrite Hrest.
- apply andb_true_iff in Hall. destruct Hall as [Hc Hall].
  rewrite Hc, (IH Hall). reflexivity.
Qed.

(** X13.  [validate_player_tag] accepts exactly the texts whose upper-case
    form is a well-formed tag, or a well-formed tag followed by one line
    feed. *)
Theorem validate_player_tag_accepts (tag : string) :
  validate_player_tag tag = true
  <-> exists body,
        well_formed_tag body = true
        /\ (upper tag = body
            \/ upper tag = (body ++ String line_feed EmptyString)%string).
Proof.
unfold validate_player_tag, well_formed_tag. split.
- destruct (span_split in_tag_alphabet (upper tag)) as (pre & Hs & Hall & Hlen & _).
  destruct (span in_tag_alphabet (upper tag)) as [n rest]. simpl in *.
  intros Hok. apply andb_true_iff in Hok. destruct Hok as [Hn Hdollar].
  exists pre. rewrite Hall, Hlen, Hn. split; [reflexivity|].
  destruct rest as [|c [|c' rest]]; simpl in Hdollar; try discriminate.
  + left. rewrite Hs. clear. induction pre; simpl; [reflexivity|now f_equal].
  + right. apply Ascii.eqb_eq in Hdollar. now subst c.
- intros (body & Hwf & Hup). apply andb_true_iff in Hwf. destruct Hwf as [Hall Hlen].
  destruct Hup as [->| ->].
  + replace body with (body ++ EmptyString)%string
      by (clear; induction body; simpl; [reflexivity|now f_equal]).
    rewrite (span_app _ body EmptyString Hall I). now rewrite Hlen.
  + rewrite (span_app _ body (String line_feed EmptyString) Hall eq_refl).
    rewrite Hlen. reflexivity.
Qed.

(** ** More on save and load *)

Lemma stored_loaded_keys (l : dict string (list string)) :
  stored_keys (loaded_keys l) = l.
Proof.
unfold stored_keys, loaded_keys. rewrite map_map. simpl.
rewrite <- (map_id l) at 2. apply map_ext. now intros [k v].
Qed.

(** X14.  The backup is the previous write: after two successful saves,
    the backup file holds what the first one wrote, and a load that finds
    only this backup gives back the registry of the first save. *)
Theorem backup_holds_previous_save (st1 st2 : state) (dk : disk) :
  is_dict (player_data st1) ->
  let dk2 := save_player_data IoOk st2 (save_player_data IoOk st1 dk) in
  backup dk2 = Holds (dump_document st1)
  /\ exists st',
       load_player_data {| primary := Missing; backup := backup dk2 |} = Return st'
       /\ player_data st' = player_data st1.
Proof.
intros Hd. cbv zeta. simpl. split; [reflexivity|].
eexists. split; [reflexivity|]. simpl. now apply from_pairs_dict.
Qed.

Lemma backup_holds_previous_save_witness :
  let st1 := {| player_data :=
                  [("PYL", {| discord_id := 42; points := 20; name := "ann" |})];
                user_accounts := [(KInt 42, ["PYL"])] |} in
  let dk := {| primary := Missing; backup := Missing |} in
  is_dict (player_data st1)
  /\ backup (save_player_data IoOk empty_state (save_player_data IoOk st1 dk))
     = Holds (dump_document st1).
Proof.
split; [reflexivity|].
apply (backup_holds_previous_save
         {| player_data :=
              [("PYL", {| discord_id := 42; points := 20; name := "ann" |})];
            user_accounts := [(KInt 42, ["PYL"])] |}
         empty_state {| primary := Missing; backup := Missing |}).
reflexivity.
Defined.

(** X15.  Loading a file that holds both members as dictionaries and saving
    at once writes the same document back. *)
Theorem load_save_round_trip (pd : dict string player)
    (ua : dict string (list string)) (bk : file) (dk' : disk) :
  is_dict pd -> is_dict ua ->
  let d := {| doc_player_data := Some pd; doc_user_accounts := Some ua |} in
  exists st,
    load_player_data {| primary := Holds d; backup := bk |} = Return st
    /\ primary (save_player_data IoOk st dk') = Holds d.
Proof.
intros Hpd Hua. cbv zeta. eexists. split; [reflexivity|].
simpl. unfold dump_document. simpl.
rewrite stored_loaded_keys, (from_pairs_dict _ Hpd), (from_pairs_dict _ Hua).
reflexivity.
Qed.

Lemma load_save_round_trip_witness :
  let pd := [("PYL", {| discord_id := 42; points := 20; name := "ann" |})] in
  let ua := [("42", ["PYL"])] in
  let d := {| doc_player_data := Some pd; doc_user_accounts := Some ua |} in
  (is_dict pd /\ is_dict ua)
  /\ exists st,
       load_player_data {| primary := Holds d; backup := Missing |} = Return st
       /\ primary (save_player_data IoOk st {| primary := Holds d; backup := Missing |})
          = Holds d.
Proof.
split; [split; reflexivity|].
apply (load_save_round_trip
         [("PYL", {| discord_id := 42; points := 20; name := "ann" |})]
         [("42", ["PYL"])] Missing); reflexivity.
Defined.

(** ** More on the trailing-comma cleanup *)

Section CleanupMore.
Variable close : ascii.
Hypothesis close_not_comma : Ascii.eqb close "," = false.
Hypothesis close_not_space : is_re_space close = false.

Lemma significant_sub_comma (s : string) :
  significant (sub_comma close 0 s) = significant s
  /\ forall n, spaces_then close s = Some n ->
       String close (significant (sub_comma close n s)) = significant s.
Proof.
induction s as [|c s [IH0 IHn]]; simpl; [split; [reflexivity|discriminate]|].
split.
- destruct (Ascii.eqb c ",") eqn:Hc; simpl.
  + destruct (spaces_then close s) as [n|] eqn:Hn; simpl.
    * rewrite close_not_comma, close_not_space. simpl. now apply IHn.
    * now rewrite Hc, IH0.
  + rewrite Hc. simpl. destruct (is_re_space c); now rewrite IH0.
- intros n. destruct (is_re_space c) eqn:Hsp.
  + destruct (spaces_then close s) as [k|] eqn:Hk; simpl; [|discriminate].
    intros [= <-]. rewrite orb_true_r. now apply IHn.
  + destruct (Ascii.eqb_spec c close) as [->|_]; [|discriminate].
    intros [= <-]. rewrite close_not_comma. simpl. now rewrite IH0.
Qed.

Lemma length_sub_comma (s : string) :
  (String.length (sub_comma close 0 s) <= String.length s)%nat
  /\ forall n, spaces_then close s = Some n ->
       (S (String.length (sub_comma close n s)) <= String.length s)%nat.
Proof.
induction s as [|c s [IH0 IHn]]; simpl; [split; [lia|discriminate]|].
split.
- destruct (Ascii.eqb c ",").
  + destruct (spaces_then close s) as [n|] eqn:Hn; simpl; [|lia].
    specialize (IHn n eq_refl). lia.
  + simpl. lia.
- intros n. destruct (is_re_space c).
  + destruct (spaces_then close s) as [k|] eqn:Hk; simpl; [|discriminate].
    intros [= <-]. specialize (IHn k eq_refl). lia.
  + destruct (Ascii.eqb c close); [|discriminate]. intros [= <-]. lia.
Qed.

(** After a comma that is followed neither by [close] nor by another
    comma, the substitution leaves nothing for the pattern of [x]. *)
Lemma spaces_then_sub_comma (x : ascii) (s : string) :
  spaces_then x s = None -> spaces_then close s = None ->
  spaces_then "," s = None ->
  spaces_then x (sub_comma close 0 s) = None.
Proof.
induction s as [|c s IH]; simpl; [reflexivity|].
destruct (is_re_space c) eqn:Hsp.
- intros Hx Hc Hk.
  assert (Hcomma : Ascii.eqb c "," = false).
  { destruct (Ascii.eqb_spec c ",") as [->|]; [discriminate|reflexivity]. }
  rewrite Hcomma. simpl. rewrite Hsp.
  destruct (spaces_then x s); [discriminate|].
  destruct (spaces_then close s); [discriminate|].
  destruct (spaces_then "," s); [discriminate|].
  now rewrite IH.
- destruct (Ascii.eqb c x) eqn:Hx; [discriminate|].
  destruct (Ascii.eqb c close) eqn:Hc; [discriminate|].
  destruct (Ascii.eqb c ",") eqn:Hk; [discriminate|].
  intros _ _ _. simpl. now rewrite Hsp, Hx.
Qed.

Lemma comma_before_sub_comma (x : ascii) (s : string) :
  x = close \/ comma_before x s = false ->
  comma_before "," s = false ->
  comma_before x (sub_comma close 0 s) = false
  /\ forall n, spaces_then close s = Some n ->
       comma_before x (sub_comma close n s) = false.
Proof.
induction s as [|c s IH]; simpl; [split; [reflexivity|discriminate]|].
intros Hx Hndc. apply orb_false_iff in Hndc. destruct Hndc as [Hhere Hndc].
assert (Hx' : x = close \/ comma_before x s = false).
{ destruct Hx as [Hx|Hx]; [now left|right].
  apply orb_false_iff in Hx. tauto. }
destruct (IH Hx' Hndc) as [IH0 IHn]. split.
- destruct (Ascii.eqb c ",") eqn:Hc; simpl.
  + simpl in Hhere.
    destruct (spaces_then "," s) eqn:Hk; [discriminate|].
    destruct (spaces_then close s) as [n|] eqn:Hn; simpl.
    * rewrite close_not_comma. simpl. now apply IHn.
    * rewrite Hc, IH0. simpl.
      rewrite spaces_then_sub_comma; [reflexivity| |exact Hn|exact Hk].
      destruct Hx as [->|Hx]; [exact Hn|].
      simpl in Hx. apply orb_false_iff in Hx.
      destruct Hx as [Hx _]. now destruct (spaces_then x s).
  + now rewrite Hc, IH0.
- intros n. destruct (is_re_space c).
  + destruct (spaces_then close s) as [k|] eqn:Hk; simpl; [|discriminate].
    intros [= <-]. now apply IHn.
  + destruct (Ascii.eqb c close); [|discriminate]. intros [= <-]. exact IH0.
Qed.
End CleanupMore.

(** X16.  The cleanup deletes commas and whitespace only: every other
    character of the text survives, in order, and the text never gets
    longer. *)
Theorem cleanup_keeps_significant (s : string) :
  significant (cleanup s) = significant s
  /\ (String.length (cleanup s) <= String.length s)%nat.
Proof.
unfold cleanup. split.
- rewrite (proj1 (significant_sub_comma "}" eq_refl eq_refl _)).
  apply (proj1 (significant_sub_comma "]" eq_refl eq_refl _)).
- pose proof (proj1 (length_sub_comma "}" (sub_comma "]" 0 s))).
  pose proof (proj1 (length_sub_comma "]" s)). lia.
Qed.

(** X17.  Where no two commas of the text are separated by whitespace
    only, one pass of the cleanup leaves no comma before a closing
    bracket or brace, so a second pass changes nothing. *)
Theorem cleanup_stable_without_double_commas (s : string) :
  comma_before "," s = false ->
  clean (cleanup s) = true /\ cleanup (cleanup s) = cleanup s.
Proof.
intros Hndc.
assert (Hclean : clean (cleanup s) = true).
{ unfold cleanup, clean.
  destruct (comma_before_sub_comma "]" eq_refl "]" s (or_introl eq_refl) Hndc)
    as [Hsq _].
  destruct (comma_before_sub_comma "]" eq_refl "," s (or_intror Hndc) Hndc)
    as [Hndc1 _].
  destruct (comma_before_sub_comma "}" eq_refl "]" _ (or_intror Hsq) Hndc1)
    as [Hsq2 _].
  destruct (comma_before_sub_comma "}" eq_refl "}" _ (or_introl eq_refl) Hndc1)
    as [Hcu2 _].
  now rewrite Hsq2, Hcu2. }
split; [exact Hclean|now apply cleanup_clean].
Qed.

Lemma cleanup_stable_without_double_commas_witness :
  comma_before "," "[{1: 2,}, {3: 4, },  ]" = false
  /\ cleanup (cleanup "[{1: 2,}, {3: 4, },  ]") = cleanup "[{1: 2,}, {3: 4, },  ]".
Proof.
split; [reflexivity|].
apply (cleanup_stable_without_double_commas "[{1: 2,}, {3: 4, },  ]"). reflexivity.
Defined.

(** ** Whole and empty shares *)

Lemma SFdiv_same (m : positive) :
  SFdiv prec emax (S754_finite false m 0) (S754_finite false m 0) = float_of_Z 1.
Proof.
unfold SFdiv, SFdiv_core_binary.
replace (Zdigits2 (Zpos m) + 0 - (Zdigits2 (Zpos m) + 0)) with 0 by lia.
change (Z.min (fexp prec emax 0) (0 - 0)) with (-53).
change (0 - 0 - -53) with 53.
cbv iota.
assert (Hdiv : Z.div_eucl (Z.shiftl (Zpos m) 53) (Zpos m) = (2 ^ 53, 0)).
{ rewrite Z.shiftl_mul_pow2 by lia.
  pose proof (Z.div_mul (2 ^ 53) (Zpos m) ltac:(lia)) as Hq.
  pose proof (Z.mod_mul (2 ^ 53) (Zpos m) ltac:(lia)) as Hr.
  rewrite (Z.mul_comm (2 ^ 53)) in Hq, Hr.
  unfold Z.div in Hq. unfold Z.modulo in Hr.
  destruct (Z.div_eucl (Zpos m * 2 ^ 53) (Zpos m)) as [q r].
  now subst. }
rewrite Hdiv.
unfold new_location. destruct (Z.even (Zpos m)); reflexivity.
Qed.

Lemma share_whole (t : Z) : t <> 0 -> share t t = Return (float_of_Z 100).
Proof.
intros Ht. unfold share, true_divide.
destruct (Z.eqb_spec t 0) as [|_]; [contradiction|].
rewrite xorb_nilpotent.
destruct (Z.abs t) as [|m|m] eqn:Hm; [lia| |lia].
rewrite SFdiv_same. reflexivity.
Qed.

Lemma share_nothing (total : Z) :
  total <> 0 -> share 0 total = Return (S754_zero (total <? 0)).
Proof.
intros Ht. unfold share, true_divide.
destruct (Z.eqb_spec total 0) as [|_]; [contradiction|].
simpl. destruct (Z.abs total); simpl; now destruct (total <? 0).
Qed.

(** X18.  In the order percentages an owner who holds the whole total gets
    exactly 100.0 and an owner without points gets a zero (negative zero
    under a negative total); a sole owner with points always gets
    100.0. *)
Theorem whole_and_empty_shares (player_points : dict string Z) (res : dict string float) :
  is_dict player_points ->
  let total := sum_values player_points in
  total <> 0 ->
  calculate_order_percentages player_points = Return res ->
  (forall owner, dget player_points owner = Some total ->
                 dget res owner = Some (float_of_Z 100))
  /\ (forall owner, dget player_points owner = Some 0 ->
                    dget res owner = Some (S754_zero (total <? 0)))
  /\ (forall owner t, t <> 0 ->
        calculate_order_percentages [(owner, t)] = Return [(owner, float_of_Z 100)]).
Proof.
intros Hd total Hne Hres.
unfold calculate_order_percentages in Hres. fold total in Hres.
destruct (Z.eqb_spec total 0) as [|_]; [contradiction|].
rewrite percent_loop_shares in Hres; [|exact Hd|reflexivity].
destruct (shares player_points total) as [xs|e] eqn:Hxs; [|discriminate].
simpl in Hres. injection Hres as <-.
destruct (shares_entries _ _ _ Hxs) as [_ Hget].
split; [|split].
- intros owner Hown. destruct (Hget owner total Hown) as (x & Hx & Hgx).
  rewrite share_whole in Hx by assumption. now injection Hx as <-.
- intros owner Hown. destruct (Hget owner 0 Hown) as (x & Hx & Hgx).
  rewrite share_nothing in Hx by assumption. now injection Hx as <-.
- intros owner t Ht. unfold calculate_order_percentages, sum_values. simpl.
  destruct (Z.eqb_spec t 0) as [|_]; [contradiction|].
  pose proof (share_whole t Ht) as Hs. unfold share in Hs.
  destruct (true_divide t t) as [q|e]; simpl in *; [|discriminate].
  now injection Hs as ->.
Qed.

Lemma whole_and_empty_shares_witness :
  (is_dict [("A", 100); ("B", 0)] /\ sum_values [("A", 100); ("B", 0)] <> 0)
  /\ exists res,
       calculate_order_percentages [("A", 100); ("B", 0)] = Return res
       /\ dget res "A" = Some (float_of_Z 100).
Proof.
split; [split; [reflexivity|discriminate]|].
eexists. split; [reflexivity|].
pose proof (whole_and_empty_shares [("A", 100); ("B", 0)] _ eq_refl
              ltac:(discriminate) eq_refl) as Hspec.
destruct Hspec as [Hwhole _]. apply Hwhole. reflexivity.
Defined.

(** ** The views of the accounts *)

(** The points of a tag, 0 for a tag without record. *)
Lemma sum_points_present (pd : dict string player) (tags : list string) :
  forall acc,
  (forall t, In t tags -> dmem pd t = true) ->
  sum_points pd tags acc
  = Return (acc + fold_left (fun a t => a + tag_points pd t) tags 0).
Proof.
induction tags as [|t tags IH]; intros acc Hall; simpl.
- f_equal. lia.
- pose proof (Hall t (or_introl eq_refl)) as Hm. unfold dmem in Hm.
  destruct (dget pd t) as [p|] eqn:Hp; [|discriminate].
  assert (Ht : tag_points pd t = points p) by (unfold tag_points; now rewrite Hp).
  rewrite IH by (intros t' Hin; apply Hall; now right).
  rewrite Ht, (fold_add_shift (tag_points pd) tags (points p)). f_equal. lia.
Qed.

Lemma accounts_loop_present (pd : dict string player) (tags : list string) :
  forall total info,
  (forall t, In t tags -> dmem pd t = true) ->
  accounts_loop pd tags total info
  = Return (total + fold_left (fun a t => a + tag_points pd t) tags 0,
            info ++ map (fun t => (t, tag_points pd t)) tags).
Proof.
induction tags as [|t tags IH]; intros total info Hall; simpl.
- rewrite app_nil_r. do 2 f_equal. lia.
- pose proof (Hall t (or_introl eq_refl)) as Hm. unfold dmem in Hm.
  destruct (dget pd t) as [p|] eqn:Hp; [|discriminate].
  assert (Ht : tag_points pd t = points p) by (unfold tag_points; now rewrite Hp).
  rewrite IH by (intros t' Hin; apply Hall; now right).
  rewrite Ht, (fold_add_shift (tag_points pd) tags (points p)), <- app_assoc.
  simpl. do 2 f_equal. lia.
Qed.

Lemma consistent_listed (st : state) (k : pykey) (tags : list string) (t : string) :
  index_consistent st -> dget (user_accounts st) k = Some tags -> In t tags ->
  dmem (player_data st) t = true.
Proof.
intros (_ & _ & _ & Hcons) Hk Hin.
assert (Hown : owns (user_accounts st) k t) by (exists tags; now split).
apply Hcons in Hown. destruct Hown as (p & Hp & _). unfold dmem. now rewrite Hp.
Qed.

Lemma totals_loop_present (pd : dict string player) (items : list (pykey * list string)) :
  forall acc : dict pykey Z,
  unique_keys items = true ->
  (forall k, dmem items k = true -> dmem acc k = false) ->
  (forall k tags t, In (k, tags) items -> In t tags -> dmem pd t = true) ->
  totals_loop pd items acc
  = Return (acc ++ map (fun kv => (fst kv, tags_points pd (snd kv))) items).
Proof.
induction items as [|[k tags] items IH]; intros acc Hu Hdisj Hall; simpl.
- now rewrite app_nil_r.
- simpl in Hu. apply andb_true_iff in Hu. destruct Hu as [Hfresh Hu].
  apply negb_true_iff in Hfresh.
  rewrite sum_points_present by (intros t Hin; apply (Hall k tags); [now left|exact Hin]).
  simpl.
  assert (Hk : dmem acc k = false).
  { apply Hdisj. unfold dmem; simpl. now rewrite keq_refl. }
  rewrite (dset_fresh _ _ _ Hk).
  rewrite IH.
  + now rewrite <- app_assoc.
  + exact Hu.
  + intros k' Hk'. rewrite dmem_app. apply orb_false_iff. split.
    * apply Hdisj. unfold dmem; simpl. destruct (keq k' k); [reflexivity|exact Hk'].
    * unfold dmem; simpl. destruct (keq_spec k' k) as [->|_]; [congruence|reflexivity].
  + intros k' tags' t Hin. apply (Hall k' tags' t). now right.
Qed.

Lemma user_totals_consistent (st : state) :
  index_consistent st ->
  user_totals st
  = Return (map (fun kv => (fst kv, tags_points (player_data st) (snd kv)))
              (user_accounts st)).
Proof.
intros Hst. pose proof Hst as (_ & Hua & _). unfold user_totals.
rewrite totals_loop_present; [reflexivity|exact Hua|reflexivity|].
intros k tags t Hin Hint. apply (consistent_listed st k tags t Hst); [|exact Hint].
now apply In_dget.
Qed.

(** X19.  With a consistent index the account views never fail on a missing
    tag: the totals of the leaderboard and of the daily orders hold, for
    each owner of the index and in its order, the sum of the points of
    the owner's tags, and [points_slash] reports that sum and one line
    per tag, or no account for a user the index does not have. *)
Theorem views_of_consistent_state (st : state) :
  index_consistent st ->
  user_totals st
  = Return (map (fun kv => (fst kv, tags_points (player_data st) (snd kv)))
              (user_accounts st))
  /\ forall user_id,
       points_slash user_id st
       = Return match dget (user_accounts st) (KInt user_id) with
                | None => NoAccounts
                | Some tags =>
                    Accounts (tags_points (player_data st) tags) (List.length tags)
                      (map (fun t => (t, tag_points (player_data st) t)) tags)
                end.
Proof.
intros Hst. split; [now apply user_totals_consistent|].
intros user_id. unfold points_slash.
destruct (dget (user_accounts st) (KInt user_id)) as [tags|] eqn:Hk; [|reflexivity].
pose proof Hst as (_ & _ & Hlists & _).
destruct (Hlists _ _ Hk) as [Hne _].
destruct tags as [|t tags]; [congruence|].
rewrite accounts_loop_present
  by (intros t' Hin; now apply (consistent_listed st (KInt user_id) (t :: tags))).
reflexivity.
Qed.

Lemma views_of_consistent_state_witness :
  let pd := [("PYL", {| discord_id := 42; points := 20; name := "ann" |});
             ("QGR", {| discord_id := 7; points := 14; name := "bob" |})] in
  let st := {| player_data := pd; user_accounts := rebuild_index pd |} in
  index_consistent st
  /\ points_slash 42 st = Return (Accounts 20 1 [("PYL", 20)]).
Proof.
intros pd st.
assert (Hst : index_consistent st) by (apply rebuild_index_consistent; reflexivity).
split; [exact Hst|].
destruct (views_of_consistent_state st Hst) as [_ Hview].
rewrite (Hview 42). reflexivity.
Defined.


(** ** The daily orders with nothing scored *)

Lemma totals_nonempty_raises (get_user : pykey -> bool) (st : state)
    (totals : dict pykey Z) :
  user_totals st = Return totals -> totals <> [] ->
  fold_left (fun acc kv => acc + snd kv) totals 0 = 0 ->
  calculate_daily_orders get_user st = Raise ZeroDivisionError.
Proof.
intros Htotals Hne Hzero. unfold calculate_daily_orders. rewrite Htotals. simpl.
destruct totals as [|[k v] totals]; [congruence|].
rewrite Hzero. reflexivity.
Qed.

(** X20.  While no linked account has points, as right after the first
    link, [calculate_daily_orders] raises [ZeroDivisionError]: the total
    it divides by is 0. *)
Theorem daily_orders_without_points (get_user : pykey -> bool) (st : state) :
  index_consistent st ->
  user_accounts st <> [] ->
  (forall t p, dget (player_data st) t = Some p -> points p = 0) ->
  calculate_daily_orders get_user st = Raise ZeroDivisionError.
Proof.
intros Hst Hne Hzero.
apply (totals_nonempty_raises get_user st _ (user_totals_consistent st Hst)).
- destruct (user_accounts st); [congruence|discriminate].
- assert (Htags : forall tags, tags_points (player_data st) tags = 0).
  { intros tags. unfold tags_points.
    assert (Hgen : forall a, fold_left (fun a t => a + tag_points (player_data st) t) tags a = a).
    { induction tags as [|t tags IH]; intros a; simpl; [reflexivity|].
      rewrite IH. unfold tag_points.
      destruct (dget (player_data st) t) as [p|] eqn:Hp; [rewrite (Hzero t p Hp)|]; lia. }
    apply Hgen. }
  assert (Hgen : forall (l : dict pykey (list string)) a,
            fold_left (fun acc (kv : pykey * Z) => acc + snd kv)
              (map (fun kv => (fst kv, tags_points (player_data st) (snd kv))) l) a = a).
  { induction l as [|kv l IH]; intros a; simpl; [reflexivity|].
    rewrite IH, Htags. lia. }
  apply Hgen.
Qed.

Lemma daily_orders_without_points_witness :
  let st := snd (fst (link_slash IoOk "#pyl" 42 "ann" empty_state
                        {| primary := Missing; backup := Missing |})) in
  calculate_daily_orders (fun _ => true) st = Raise ZeroDivisionError.
Proof.
apply daily_orders_without_points.
- apply link_slash_ok_consistent. apply (rebuild_index_consistent []). reflexivity.
- discriminate.
- intros t p Hp. simpl in Hp.
  destruct (keq t _) in Hp; [now injection Hp as <-|discriminate].
Defined.

(** ** The totals add up *)

Lemma fold_add_sum {A : Type} (f : A -> Z) (l : list A) :
  fold_left (fun acc x => acc + f x) l 0 = fold_right Z.add 0 (map f l).
Proof.
induction l as [|x l IH]; simpl; [reflexivity|].
rewrite (fold_add_shift f l (f x)), IH. reflexivity.
Qed.

Lemma sum_app (l1 l2 : list Z) :
  fold_right Z.add 0 (l1 ++ l2) = fold_right Z.add 0 l1 + fold_right Z.add 0 l2.
Proof. induction l1 as [|x l1 IH]; simpl; [reflexivity|]. rewrite IH. lia. Qed.

Lemma sum_perm (l l' : list Z) :
  Permutation l l' -> fold_right Z.add 0 l = fold_right Z.add 0 l'.
Proof. induction 1; simpl; lia. Qed.

Section DictKeysFacts.
Context {K V : Type} `{EqKeyLaws K}.

Lemma unique_keys_NoDup (d : dict K V) : unique_keys d = true -> NoDup (dkeys d).
Proof.
induction d as [|[k v] d IH]; simpl; [constructor|].
intros Hu. apply andb_true_iff in Hu. destruct Hu as [Hfresh Hu].
apply negb_true_iff in Hfresh. constructor; [|now apply IH].
intros Hin. apply dmem_In in Hin. congruence.
Qed.
End DictKeysFacts.

Lemma listed_tags_NoDup (f : string -> pykey) (ua : dict pykey (list string)) :
  unique_keys ua = true ->
  (forall k tags, In (k, tags) ua -> NoDup tags /\ forall t, In t tags -> f t = k) ->
  NoDup (flat_map snd ua).
Proof.
induction ua as [|[k tags] ua IH]; simpl; [constructor|].
intros Hu Hall. apply andb_true_iff in Hu. destruct Hu as [Hfresh Hu].
apply negb_true_iff in Hfresh.
destruct (Hall k tags (or_introl eq_refl)) as [Hnd Hf].
apply NoDup_app; [exact Hnd| |].
- apply IH; [exact Hu|]. intros k' tags' Hin. apply Hall. now right.
- intros t Hin Hin'. apply in_flat_map in Hin'. destruct Hin' as ([k' tags'] & He & Ht).
  simpl in Ht. destruct (Hall k' tags' (or_intror He)) as [_ Hf'].
  assert (k' = k) by (rewrite <- (Hf t Hin); symmetry; now apply Hf'). subst k'.
  assert (Hm : dmem ua k = true).
  { apply dmem_In. unfold dkeys. now apply (in_map fst) in He. }
  congruence.
Qed.

Lemma consistent_tags_permutation (st : state) :
  index_consistent st ->
  Permutation (flat_map snd (user_accounts st)) (dkeys (player_data st)).
Proof.
intros (Hpd & Hua & Hlists & Hcons).
apply NoDup_Permutation.
- apply (listed_tags_NoDup
           (fun t => match dget (player_data st) t with
                     | Some p => KInt (discord_id p)
                     | None => KInt 0
                     end)); [exact Hua|].
  intros k tags Hin. apply (In_dget _ _ _ Hua) in Hin.
  split; [now apply (Hlists k tags)|].
  intros t Ht.
  assert (Hown : owns (user_accounts st) k t) by (exists tags; now split).
  apply Hcons in Hown. destruct Hown as (p & Hp & ->). now rewrite Hp.
- now apply unique_keys_NoDup.
- intros t. rewrite in_flat_map. split.
  + intros ([k tags] & Hin & Ht). simpl in Ht.
    apply (In_dget _ _ _ Hua) in Hin.
    assert (Hown : owns (user_accounts st) k t) by (exists tags; now split).
    apply Hcons in Hown. destruct Hown as (p & Hp & _).
    apply dmem_In. unfold dmem. now rewrite Hp.
  + intros Hin. apply dmem_In in Hin. unfold dmem in Hin.
    destruct (dget (player_data st) t) as [p|] eqn:Hp; [|discriminate].
    assert (Hown : owns (user_accounts st) (KInt (discord_id p)) t)
      by (apply Hcons; eauto).
    destruct Hown as (tags & Htags & Ht).
    exists (KInt (discord_id p), tags). split; [now apply dget_In|exact Ht].
Qed.

Lemma registry_points_by_tag (pd : dict string player) :
  is_dict pd ->
  registry_points pd = fold_right Z.add 0 (map (tag_points pd) (dkeys pd)).
Proof.
intros Hd. unfold registry_points.
rewrite (fold_add_sum (fun kv : string * player => points (snd kv))).
f_equal. unfold dkeys. rewrite map_map. apply map_ext_in.
intros [t p] Hin. simpl. unfold tag_points. now rewrite (In_dget _ _ _ Hd Hin).
Qed.

Lemma totals_by_tag (pd : dict string player) (ua : dict pykey (list string)) :
  fold_left (fun acc (kv : pykey * Z) => acc + snd kv)
    (map (fun kv => (fst kv, tags_points pd (snd kv))) ua) 0
  = fold_right Z.add 0 (map (tag_points pd) (flat_map snd ua)).
Proof.
rewrite (fold_add_sum (fun kv : pykey * Z => snd kv)), map_map. simpl.
induction ua as [|[k tags] ua IH]; simpl; [reflexivity|].
rewrite map_app, sum_app, IH. f_equal.
unfold tags_points. apply fold_add_sum.
Qed.

Lemma totals_sum_consistent (st : state) :
  index_consistent st ->
  fold_left (fun acc (kv : pykey * Z) => acc + snd kv)
    (map (fun kv => (fst kv, tags_points (player_data st) (snd kv)))
       (user_accounts st)) 0
  = registry_points (player_data st).
Proof.
intros Hst. rewrite totals_by_tag, registry_points_by_tag by apply Hst.
apply sum_perm, Permutation_map. now apply consistent_tags_permutation.
Qed.

(** X21.  With a consistent index the totals per owner, which the
    leaderboard and the daily orders compute, add up to the points of all
    the records: no record is left out and none is counted twice. *)
Theorem totals_add_up (st : state) :
  index_consistent st ->
  exists totals,
    user_totals st = Return totals
    /\ dkeys totals = dkeys (user_accounts st)
    /\ fold_left (fun acc kv => acc + snd kv) totals 0
       = registry_points (player_data st).
Proof.
intros Hst. eexists. split; [now apply user_totals_consistent|]. split.
- unfold dkeys. rewrite map_map. reflexivity.
- now apply totals_sum_consistent.
Qed.

Lemma totals_add_up_witness :
  let pd := [("PYL", {| discord_id := 42; points := 20; name := "ann" |});
             ("QGR", {| discord_id := 7; points := 14; name := "bob" |});
             ("GRJ", {| discord_id := 42; points := 2; name := "ann" |})] in
  exists totals,
    user_totals {| player_data := pd; user_accounts := rebuild_index pd |}
    = Return totals
    /\ fold_left (fun acc kv => acc + snd kv) totals 0 = 36.
Proof.
intros pd.
destruct (totals_add_up {| player_data := pd; user_accounts := rebuild_index pd |}
            (rebuild_index_consistent pd eq_refl)) as (totals & Hrun & _ & Hsum).
exists totals. split; [exact Hrun|exact Hsum].
Defined.

(** ** The leaderboard *)

Section SortingFacts.
Context {A : Type}.
Variable lt : A -> A -> bool.

Lemma In_insert_desc (x z : A) (l : list A) :
  In z (insert_desc lt x l) <-> z = x \/ In z l.
Proof.
induction l as [|y l IH]; simpl; [intuition congruence|].
destruct (lt x y); simpl; [rewrite IH|]; intuition congruence.
Qed.

Lemma In_sorted_desc (z : A) (l : list A) : In z (sorted_desc lt l) <-> In z l.
Proof.
induction l as [|x l IH]; simpl; [tauto|].
rewrite In_insert_desc, IH. intuition congruence.
Qed.

Lemma insert_desc_length (x : A) (l : list A) :
  List.length (insert_desc lt x l) = S (List.length l).
Proof.
induction l as [|y l IH]; simpl; [reflexivity|].
destruct (lt x y); simpl; [now rewrite IH|reflexivity].
Qed.

Lemma sorted_desc_length (l : list A) :
  List.length (sorted_desc lt l) = List.length l.
Proof.
induction l as [|x l IH]; simpl; [reflexivity|].
now rewrite insert_desc_length, IH.
Qed.
Lemma insert_desc_perm (x : A) (l : list A) :
  Permutation (insert_desc lt x l) (x :: l).
Proof.
induction l as [|y l IH]; simpl; [reflexivity|].
destruct (lt x y); [|reflexivity].
rewrite IH. apply perm_swap.
Qed.

Lemma sorted_desc_perm (l : list A) : Permutation (sorted_desc lt l) l.
Proof.
induction l as [|x l IH]; simpl; [reflexivity|].
rewrite insert_desc_perm. now constructor.
Qed.
End SortingFacts.

Section SortingByKey.
Context {A : Type}.
Variable key : A -> Z.

Lemma insert_desc_sorted (x : A) (l : list A) :
  StronglySorted (fun a b => key b <= key a) l ->
  StronglySorted (fun a b => key b <= key a)
    (insert_desc (fun a b => key a <? key b) x l).
Proof.
induction 1 as [|y l Hl IH Hy]; simpl; [repeat constructor|].
destruct (Z.ltb_spec (key x) (key y)) as [Hlt|Hge].
- constructor; [exact IH|]. apply Forall_forall. intros z Hz.
  apply In_insert_desc in Hz. destruct Hz as [->|Hz].
  + lia.
  + rewrite Forall_forall in Hy. now apply Hy.
- constructor; [now constructor|]. constructor; [exact Hge|].
  apply Forall_forall. intros z Hz. rewrite Forall_forall in Hy.
  specialize (Hy z Hz). simpl in Hy. lia.
Qed.

Lemma sorted_desc_sorted (l : list A) :
  StronglySorted (fun a b => key b <= key a)
    (sorted_desc (fun a b => key a <? key b) l).
Proof.
induction l as [|x l IH]; simpl; [constructor|]. now apply insert_desc_sorted.
Qed.
End SortingByKey.

Lemma In_firstn_sub {A : Type} (n : nat) (l : list A) (z : A) :
  In z (firstn n l) -> In z l.
Proof.
revert n. induction l as [|x l IH]; intros [|n]; simpl; try tauto.
intros [->|Hin]; [now left|right; now apply (IH n)].
Qed.

Lemma StronglySorted_firstn {A : Type} (R : A -> A -> Prop) (n : nat) (l : list A) :
  StronglySorted R l -> StronglySorted R (firstn n l).
Proof.
intros Hs. revert n. induction Hs as [|x l Hl IH Hx]; intros [|n]; simpl;
  try constructor.
- apply IH.
- apply Forall_forall. intros z Hz. rewrite Forall_forall in Hx.
  apply Hx. now apply (In_firstn_sub n).
Qed.

Lemma StronglySorted_filter {A : Type} (R : A -> A -> Prop) (f : A -> bool) (l : list A) :
  StronglySorted R l -> StronglySorted R (filter f l).
Proof.
induction 1 as [|x l Hl IH Hx]; simpl; [constructor|].
destruct (f x); [|exact IH]. constructor; [exact IH|].
apply Forall_forall. intros z Hz. apply filter_In in Hz.
rewrite Forall_forall in Hx. now apply Hx.
Qed.

Lemma StronglySorted_map {A B : Type} (R : B -> B -> Prop) (g : A -> B) (l : list A) :
  StronglySorted R (map g l) -> StronglySorted (fun a b => R (g a) (g b)) l.
Proof.
induction l as [|x l IH]; simpl; intros Hs; [constructor|].
apply StronglySorted_inv in Hs. destruct Hs as [Hl Hx].
constructor; [now apply IH|].
apply Forall_forall. intros z Hz. rewrite Forall_forall in Hx.
apply Hx. now apply in_map.
Qed.

Lemma filter_length_bound {A : Type} (f : A -> bool) (l : list A) :
  (List.length (filter f l) <= List.length l)%nat.
Proof.
induction l as [|x l IH]; simpl; [lia|]. destruct (f x); simpl; lia.
Qed.

Lemma details_loop_present (pd : dict string player) (tags : list string) :
  forall acc,
  (forall t, In t tags -> dmem pd t = true) ->
  details_loop pd tags acc
  = Return (acc ++ map (fun t => (t, tag_points pd t)) tags).
Proof.
induction tags as [|t tags IH]; intros acc Hall; simpl.
- now rewrite app_nil_r.
- pose proof (Hall t (or_introl eq_refl)) as Hm. unfold dmem in Hm.
  destruct (dget pd t) as [p|] eqn:Hp; [|discriminate].
  assert (Ht : tag_points pd t = points p) by (unfold tag_points; now rewrite Hp).
  rewrite IH by (intros t' Hin; apply Hall; now right).
  now rewrite Ht, <- app_assoc.
Qed.

(** Numbering a list from [i], as [enumerate] does. *)
Lemma combine_seq_firstn {A : Type} (n : nat) (l : list A) :
  forall i,
  combine (seq i (List.length (firstn n l))) (firstn n l) = combine (seq i n) l.
Proof.
revert n. induction l as [|x l IH]; intros n i.
- rewrite firstn_nil. simpl. now destruct (seq i n).
- destruct n as [|n]; simpl; [reflexivity|]. now rewrite IH.
Qed.

Lemma map_snd_combine_seq {A : Type} (l : list A) :
  forall i, map snd (combine (seq i (List.length l)) l) = l.
Proof.
induction l as [|x l IH]; intros i; simpl; [reflexivity|]. now rewrite IH.
Qed.

Lemma In_combine_seq {A : Type} (l : list A) (x : A) :
  forall i, In x l -> exists n, In (n, x) (combine (seq i (List.length l)) l).
Proof.
induction l as [|y l IH]; intros i; simpl; [tauto|].
intros [->|Hin].
- exists i. now left.
- destruct (IH (S i) Hin) as [n Hn]. exists n. now right.
Qed.

Lemma filter_keeps_distinct_keys {A K : Type} (key : A -> K) (keep : A -> bool)
    (xs : list A) (Hnd : NoDup (map key xs)) :
  NoDup (map key (filter keep xs)).
Proof.
induction xs as [|x xs IH]; simpl in *; [constructor|].
apply NoDup_cons_iff in Hnd. destruct Hnd as [Hx Hnd].
destruct (keep x); simpl; [|now apply IH].
constructor; [|now apply IH].
intros Hin. apply Hx. apply in_map_iff in Hin.
destruct Hin as (y & Hy & Hin). apply filter_In in Hin.
apply in_map_iff. exists y. tauto.
Qed.

Lemma board_loop_rows (get_user : pykey -> bool) (st : state)
    (l : list (pykey * Z)) :
  forall i rows,
  (forall u tot, In (u, tot) l ->
     exists tags, dget (user_accounts st) u = Some tags
                  /\ forall t, In t tags -> dmem (player_data st) t = true) ->
  exists rows',
    board_loop get_user st l i rows = Return (rows ++ rows')
    /\ map (fun r => (br_place r, (br_user r, br_total_points r))) rows'
       = filter (fun e => get_user (fst (snd e))) (combine (seq i (List.length l)) l)
    /\ map (fun r => (br_user r, br_total_points r)) rows'
       = filter (fun e => get_user (fst e)) l
    /\ StronglySorted (fun r r' => (br_place r < br_place r')%nat) rows'
    /\ Forall (fun r => (i <= br_place r < i + List.length l)%nat /\ row_of st r) rows'.
Proof.
induction l as [|[u tot] l IH]; intros i rows Hall; simpl.
- exists []. rewrite app_nil_r. repeat split; constructor.
- assert (Hrest : forall u' tot', In (u', tot') l ->
            exists tags, dget (user_accounts st) u' = Some tags
                         /\ forall t, In t tags -> dmem (player_data st) t = true).
  { intros u' tot' Hin. apply (Hall u' tot'). now right. }
  assert (Hweak : forall rows' : list board_row,
            Forall (fun r => (S i <= br_place r < S i + List.length l)%nat
                             /\ row_of st r) rows' ->
            Forall (fun r => (i <= br_place r < i + S (List.length l))%nat
                             /\ row_of st r) rows').
  { intros rows'. apply Forall_impl. intros r [Hpl Hex]. split; [lia|exact Hex]. }
  destruct (get_user u) eqn:Hu.
  + destruct (Hall u tot (or_introl eq_refl)) as (tags & Htags & Hpresent).
    rewrite Htags.
    set (details := if (List.length tags <=? 3)%nat
                    then Some (map (fun t => (t, tag_points (player_data st) t)) tags)
                    else None).
    assert (Hdet : (if (List.length tags <=? 3)%nat
                    then d <- details_loop (player_data st) tags [] ;; Return (Some d)
                    else Return None) = Return details).
    { unfold details. destruct (List.length tags <=? 3)%nat; [|reflexivity].
      now rewrite details_loop_present. }
    cbv zeta. rewrite Hdet. simpl.
    destruct (IH (S i)
                (rows ++ [{| br_place := i; br_user := u; br_total_points := tot;
                             br_account_count := List.length tags;
                             br_details := details |}]) Hrest)
      as (rows' & Hrun & Hnum & Hmap & Hsorted & Hrows).
    eexists (_ :: rows'). split; [rewrite Hrun, <- app_assoc; reflexivity|].
    split; [simpl; now rewrite Hnum|].
    split; [simpl; now rewrite Hmap|]. split.
    * constructor; [exact Hsorted|]. simpl.
      revert Hrows. apply Forall_impl. intros r [Hpl _]. lia.
    * constructor; [|now apply Hweak].
      simpl. split; [lia|]. exists tags. now repeat split.
  + destruct (IH (S i) rows Hrest) as (rows' & Hrun & Hnum & Hmap & Hsorted & Hrows).
    exists rows'. split; [exact Hrun|]. split; [exact Hnum|]. split; [exact Hmap|].
    split; [exact Hsorted|now apply Hweak].
Qed.

Lemma StronglySorted_and {A : Type} (R S : A -> A -> Prop) (l : list A) :
  StronglySorted R l -> StronglySorted S l ->
  StronglySorted (fun a b => R a b /\ S a b) l.
Proof.
induction l as [|x l IH]; intros HR HS; [constructor|].
apply StronglySorted_inv in HR. apply StronglySorted_inv in HS.
destruct HR as [HR HRx], HS as [HS HSx].
constructor; [now apply IH|].
rewrite Forall_forall in *. intros z Hz. split; auto.
Qed.

Lemma leaderboard_nonempty (get_user : pykey -> bool) (st : state)
    (totals : dict pykey Z) :
  user_totals st = Return totals -> totals <> [] ->
  create_leaderboard_embed get_user st
  = (rows <- board_loop get_user st
               (firstn 10 (sorted_desc (fun x y => snd x <? snd y) totals)) 1 [] ;;
     Return (TopPlayers rows)).
Proof.
intros Hrun Hne. unfold create_leaderboard_embed. rewrite Hrun. simpl.
pose proof (sorted_desc_length (fun x y : pykey * Z => snd x <? snd y) totals) as Hlen.
destruct (sorted_desc _ totals) eqn:Hs; [|reflexivity].
destruct totals; [congruence|discriminate].
Qed.

(** X22.  With a consistent index [create_leaderboard_embed] never fails
    on a missing key.  It shows no players exactly when the index is
    empty.  Otherwise the owners are ranked by the sum of the points of
    their tags, greatest first, and the rows are exactly, in order, the
    entries at the places 1 to 10 of this ranking whose user the bot can
    resolve, each with its place in the ranking: an owner who cannot be
    resolved gets no row and leaves a gap in the numbering.  Every row
    has the sum of the points of the user's tags, the number of those
    tags and, for at most 3 tags, the points of each. *)
Theorem leaderboard_of_consistent_state (get_user : pykey -> bool) (st : state) :
  index_consistent st ->
  let totals := map (fun kv => (fst kv, tags_points (player_data st) (snd kv)))
                  (user_accounts st) in
  let ranking := sorted_desc (fun x y => snd x <? snd y) totals in
  Permutation ranking totals
  /\ StronglySorted (fun x y => snd y <= snd x) ranking
  /\ exists b,
    create_leaderboard_embed get_user st = Return b
    /\ (b = NoPlayers <-> user_accounts st = [])
    /\ forall rows, b = TopPlayers rows ->
         map (fun r => (br_place r, (br_user r, br_total_points r))) rows
         = filter (fun e => get_user (fst (snd e))) (combine (seq 1 10) ranking)
         /\ (List.length rows <= 10)%nat
         /\ StronglySorted
              (fun r r' => br_total_points r' <= br_total_points r
                           /\ (br_place r < br_place r')%nat) rows
         /\ Forall (fun r =>
              get_user (br_user r) = true
              /\ (1 <= br_place r <= 10)%nat
              /\ exists tags,
                   dget (user_accounts st) (br_user r) = Some tags
                   /\ br_total_points r = tags_points (player_data st) tags
                   /\ br_account_count r = List.length tags
                   /\ br_details r
                      = if (List.length tags <=? 3)%nat
                        then Some (map (fun t => (t, tag_points (player_data st) t)) tags)
                        else None) rows.
Proof.
intros Hst totals sorted_users. pose proof Hst as (_ & Hua & _).
split; [apply sorted_desc_perm|].
split; [apply (sorted_desc_sorted snd)|].
pose proof (user_totals_consistent st Hst) as Htotals. fold totals in Htotals.
assert (Hcase : user_accounts st = [] \/ user_accounts st <> []).
{ destruct (user_accounts st); [now left|now right]. }
destruct Hcase as [Hnil|Hidx].
{ exists NoPlayers. unfold create_leaderboard_embed. rewrite Htotals.
  unfold totals. rewrite Hnil. simpl.
  split; [reflexivity|]. split; [tauto|]. intros rows Hb. discriminate Hb. }
assert (Hne : totals <> []).
{ unfold totals. destruct (user_accounts st); [congruence|discriminate]. }
rewrite (leaderboard_nonempty get_user st totals Htotals Hne).
fold sorted_users.
assert (Hin : forall u tot, In (u, tot) (firstn 10 sorted_users) ->
          exists tags, In (u, tags) (user_accounts st)
                       /\ tot = tags_points (player_data st) tags).
{ intros u tot Hx. apply In_firstn_sub in Hx.
  apply (proj1 (In_sorted_desc _ (u, tot) totals)) in Hx. unfold totals in Hx.
  apply in_map_iff in Hx. destruct Hx as ([k tags] & [= <- <-] & Hk).
  exists tags. now split. }
destruct (board_loop_rows get_user st (firstn 10 sorted_users) 1 [])
  as (rows' & Hrun & Hnum & Hmap & Hplaces & Hrows).
{ intros u tot Hx. destruct (Hin u tot Hx) as (tags & Hk & _).
  apply (In_dget _ _ _ Hua) in Hk. exists tags. split; [exact Hk|].
  intros t Ht. now apply (consistent_listed st u tags t). }
rewrite Hrun. simpl. exists (TopPlayers rows').
split; [reflexivity|]. split.
{ split; [discriminate|]. intros Hnil. contradiction. }
intros rows [= <-].
assert (Hlen : (List.length (firstn 10 sorted_users) <= 10)%nat)
  by apply firstn_le_length.
split; [|split; [|split]].
- rewrite Hnum. now rewrite combine_seq_firstn.
- rewrite <- (length_map (fun r => (br_user r, br_total_points r))), Hmap.
  pose proof (filter_length_bound (fun e : pykey * Z => get_user (fst e))
                (firstn 10 sorted_users)). lia.
- apply StronglySorted_and; [|exact Hplaces].
  apply (StronglySorted_map (fun x y : pykey * Z => snd y <= snd x)
           (fun r => (br_user r, br_total_points r))).
  rewrite Hmap. apply StronglySorted_filter, StronglySorted_firstn.
  apply (sorted_desc_sorted snd).
- apply Forall_forall. intros r Hr. rewrite Forall_forall in Hrows.
  destruct (Hrows r Hr) as [Hpl (tags & Htags & Hcount & Hdet)].
  assert (Hx : In (br_user r, br_total_points r)
                 (filter (fun e => get_user (fst e)) (firstn 10 sorted_users))).
  { rewrite <- Hmap. now apply (in_map (fun r => (br_user r, br_total_points r))). }
  apply filter_In in Hx. destruct Hx as [Hx Hget]. simpl in Hget.
  destruct (Hin _ _ Hx) as (tags' & Hk & Htot).
  apply (In_dget _ _ _ Hua) in Hk.
  assert (tags' = tags) by congruence. subst tags'.
  split; [exact Hget|]. split; [lia|]. exists tags. now repeat split.
Qed.

Lemma leaderboard_of_consistent_state_witness :
  let pd := [("PYL", {| discord_id := 42; points := 2; name := "ann" |});
             ("QGR", {| discord_id := 7; points := 14; name := "bob" |});
             ("GRJ", {| discord_id := 42; points := 20; name := "ann" |});
             ("CUV", {| discord_id := 9; points := 5; name := "cy" |})] in
  let st := {| player_data := pd; user_accounts := rebuild_index pd |} in
  let get_user := fun k => negb (keq k (KInt 7)) in
  exists rows,
    create_leaderboard_embed get_user st = Return (TopPlayers rows)
    /\ map (fun r => (br_place r, (br_user r, br_total_points r))) rows
       = [(1%nat, (KInt 42, 22)); (3%nat, (KInt 9, 5))].
Proof.
intros pd st get_user.
destruct (leaderboard_of_consistent_state get_user st
            (rebuild_index_consistent pd eq_refl))
  as (_ & _ & b & Hrun & Hnil & Hrows).
destruct b as [|rows].
- destruct Hnil as [Hnil _]. discriminate (Hnil eq_refl).
- exists rows. split; [exact Hrun|].
  destruct (Hrows rows eq_refl) as [Hnum _]. rewrite Hnum. reflexivity.
Defined.

(** ** The daily orders once points were scored *)

Section DictMapValues.
Context {K V W : Type} `{EqKeyLaws K}.
Variable g : K * V -> W.

Lemma dmem_map_values (d : dict K V) (k : K) :
  dmem (map (fun kv => (fst kv, g kv)) d) k = dmem d k.
Proof.
unfold dmem. induction d as [|[k' v'] d IH]; simpl; [reflexivity|].
now destruct (keq k k').
Qed.

Lemma unique_keys_map_values (d : dict K V) :
  unique_keys (map (fun kv => (fst kv, g kv)) d) = unique_keys d.
Proof.
induction d as [|[k' v'] d IH]; simpl; [reflexivity|].
now rewrite dmem_map_values, IH.
Qed.
End DictMapValues.

Lemma sum_member_bound (l : list Z) (x : Z) :
  (forall y, In y l -> 0 <= y) -> In x l -> 0 <= x <= fold_right Z.add 0 l.
Proof.
induction l as [|y l IH]; simpl; [tauto|]. intros Hnn Hin.
assert (Hsum : 0 <= fold_right Z.add 0 l).
{ clear IH Hin. induction l as [|z l IHl]; simpl; [lia|].
  assert (0 <= z) by (apply Hnn; right; now left).
  assert (0 <= fold_right Z.add 0 l) by (apply IHl; intros w [Hw|Hw]; apply Hnn; simpl; auto).
  lia. }
assert (Hy : 0 <= y) by (apply Hnn; now left).
destruct Hin as [->|Hin]; [lia|].
assert (0 <= x <= fold_right Z.add 0 l) by (apply IH; [intros w Hw; apply Hnn; now right|exact Hin]).
lia.
Qed.

Lemma tags_points_nonneg (pd : dict string player) (tags : list string) :
  (forall t p, dget pd t = Some p -> 0 <= points p) -> 0 <= tags_points pd tags.
Proof.
intros Hnn. unfold tags_points. rewrite fold_add_sum.
induction tags as [|t tags IH]; simpl; [lia|].
assert (0 <= tag_points pd t).
{ unfold tag_points. destruct (dget pd t) as [p|] eqn:Hp; [now apply (Hnn t)|lia]. }
lia.
Qed.

Lemma user_percent_loop_shares (items : list (pykey * Z)) (total : Z) :
  forall acc : dict pykey float,
  unique_keys items = true ->
  (forall k, dmem items k = true -> dmem acc k = false) ->
  (forall k pts, In (k, pts) items -> exists x, share pts total = Return x) ->
  exists xs,
    user_percent_loop items total acc = Return (acc ++ xs)
    /\ Forall2 (fun e x => fst x = fst e /\ share (snd e) total = Return (snd x))
         items xs.
Proof.
induction items as [|[k pts] items IH]; intros acc Hu Hdisj Hall; simpl.
- exists []. rewrite app_nil_r. split; [reflexivity|constructor].
- simpl in Hu. apply andb_true_iff in Hu. destruct Hu as [Hfresh Hu].
  apply negb_true_iff in Hfresh.
  destruct (Hall k pts (or_introl eq_refl)) as [x Hx].
  unfold share in Hx.
  destruct (true_divide pts total) as [q|e] eqn:Hq; [clear Hx|discriminate Hx].
  simpl.
  match goal with |- context [dset acc k ?v] => set (val := v) end.
  assert (Hk : dmem acc k = false).
  { apply Hdisj. unfold dmem; simpl. now rewrite keq_refl. }
  rewrite (dset_fresh _ _ _ Hk).
  destruct (IH (acc ++ [(k, val)]) Hu) as (xs & Hrun & Hxs).
  + intros k' Hk'. rewrite dmem_app. apply orb_false_iff. split.
    * apply Hdisj. unfold dmem; simpl. destruct (keq k' k); [reflexivity|exact Hk'].
    * unfold dmem; simpl. destruct (keq_spec k' k) as [->|_]; [congruence|reflexivity].
  + intros k' pts' Hin. apply (Hall k' pts'). now right.
  + exists ((k, val) :: xs). split; [rewrite Hrun, <- app_assoc; reflexivity|].
    constructor; [|exact Hxs]. simpl. split; [reflexivity|].
    unfold share. rewrite Hq. reflexivity.
Qed.

Lemma Forall2_In_l {A B : Type} (R : A -> B -> Prop) (l : list A) (l' : list B) (a : A) :
  Forall2 R l l' -> In a l -> exists b, In b l' /\ R a b.
Proof.
induction 1 as [|x y l l' Hxy Hl IH]; simpl; [tauto|].
intros [->|Hin]; [exists y; tauto|].
destruct (IH Hin) as (b & Hb & Hab). exists b. tauto.
Qed.

Lemma Forall2_In_r {A B : Type} (R : A -> B -> Prop) (l : list A) (l' : list B) (b : B) :
  Forall2 R l l' -> In b l' -> exists a, In a l /\ R a b.
Proof.
induction 1 as [|x y l l' Hxy Hl IH]; simpl; [tauto|].
intros [->|Hin]; [exists x; tauto|].
destruct (IH Hin) as (a & Ha & Hab). exists a. tauto.
Qed.

Lemma Forall2_map_l {A B C : Type} (R : B -> C -> Prop) (f : A -> B)
    (l : list A) (l' : list C) :
  Forall2 R (map f l) l' -> Forall2 (fun a c => R (f a) c) l l'.
Proof.
revert l'. induction l as [|x l IH]; intros l' Hf; inversion Hf; subst;
  constructor; auto.
Qed.

Lemma Forall2_keys {A B : Type} (R : pykey * A -> pykey * B -> Prop)
    (l : list (pykey * A)) (l' : list (pykey * B)) :
  Forall2 R l l' -> (forall e x, R e x -> fst x = fst e) ->
  map fst l' = map fst l.
Proof.
intros Hf HR. induction Hf as [|e x l l' Hex Hl IH]; simpl; [reflexivity|].
now rewrite IH, (HR e x Hex).
Qed.

Lemma orders_loop_rows (get_user : pykey -> bool) (st : state)
    (totals : dict pykey Z) (l : list (pykey * float)) :
  forall i rows n,
  (forall u x, In (u, x) l ->
     exists tags tot, dget (user_accounts st) u = Some tags
                      /\ dget totals u = Some tot) ->
  exists rows' n',
    orders_loop get_user st totals l i rows n = Return (rows ++ rows', n')
    /\ map (fun r => (or_place r, (or_user r, or_orders r))) rows'
       = map (fun e => (fst e, (fst (snd e),
                                round1 (SFmul prec emax (snd (snd e)) seven_tenths))))
           (filter (fun e => get_user (fst (snd e)))
              (combine (seq i (List.length l)) l))
    /\ (List.length rows' <= List.length l)%nat
    /\ Forall (fun r =>
         get_user (or_user r) = true
         /\ (i <= or_place r < i + List.length l)%nat
         /\ exists tags x,
              dget (user_accounts st) (or_user r) = Some tags
              /\ dget totals (or_user r) = Some (or_total_points r)
              /\ or_account_count r = List.length tags
              /\ In (or_user r, x) l
              /\ or_orders r = round1 (SFmul prec emax x seven_tenths)) rows'.
Proof.
induction l as [|[u x] l IH]; intros i rows n Hall; simpl.
- exists [], n. rewrite app_nil_r. repeat split; constructor.
- assert (Hrest : forall u' x', In (u', x') l ->
            exists tags tot, dget (user_accounts st) u' = Some tags
                             /\ dget totals u' = Some tot).
  { intros u' x' Hin. apply (Hall u' x'). now right. }
  assert (Hweak : forall rows' : list order_row,
            Forall (fun r =>
              get_user (or_user r) = true
              /\ (S i <= or_place r < S i + List.length l)%nat
              /\ exists tags x',
                   dget (user_accounts st) (or_user r) = Some tags
                   /\ dget totals (or_user r) = Some (or_total_points r)
                   /\ or_account_count r = List.length tags
                   /\ In (or_user r, x') l
                   /\ or_orders r = round1 (SFmul prec emax x' seven_tenths)) rows' ->
            Forall (fun r =>
              get_user (or_user r) = true
              /\ (i <= or_place r < i + S (List.length l))%nat
              /\ exists tags x',
                   dget (user_accounts st) (or_user r) = Some tags
                   /\ dget totals (or_user r) = Some (or_total_points r)
                   /\ or_account_count r = List.length tags
                   /\ In (or_user r, x') ((u, x) :: l)
                   /\ or_orders r = round1 (SFmul prec emax x' seven_tenths)) rows').
  { intros rows'. apply Forall_impl.
    intros r (Hg & Hpl & tags & x' & H1 & H2 & H3 & H4 & H5).
    split; [exact Hg|]. split; [lia|]. exists tags, x'.
    repeat split; try assumption. now right. }
  destruct (get_user u) eqn:Hu.
  + destruct (Hall u x (or_introl eq_refl)) as (tags & tot & Htags & Htot).
    cbv zeta. rewrite Htags, Htot.
    destruct (IH (S i)
                (rows ++ [{| or_place := i; or_user := u; or_total_points := tot;
                             or_account_count := List.length tags;
                             or_orders := round1 (SFmul prec emax x seven_tenths) |}])
                (NFloat (number_add n (round1 (SFmul prec emax x seven_tenths)))) Hrest)
      as (rows' & n' & Hrun & Hnum & Hlen & Hrows).
    eexists (_ :: rows'), n'. split; [rewrite Hrun, <- app_assoc; reflexivity|].
    split; [simpl; now rewrite Hnum|].
    split; [simpl; lia|].
    constructor; [|now apply Hweak].
    simpl. split; [exact Hu|]. split; [lia|]. exists tags, x.
    repeat split; try assumption. now left.
  + destruct (IH (S i) rows n Hrest) as (rows' & n' & Hrun & Hnum & Hlen & Hrows).
    exists rows', n'. split; [exact Hrun|]. split; [exact Hnum|].
    split; [lia|now apply Hweak].
Qed.

Lemma daily_orders_nonempty (get_user : pykey -> bool) (st : state)
    (totals : dict pykey Z) :
  user_totals st = Return totals -> totals <> [] ->
  calculate_daily_orders get_user st
  = (user_percentages <-
       user_percent_loop totals (fold_left (fun acc kv => acc + snd kv) totals 0) [] ;;
     r <- orders_loop get_user st totals
            (sorted_desc (fun x y => SFltb (snd x) (snd y)) user_percentages)
            1 [] (NInt 0) ;;
     Return (Some {| order_rows := fst r;
                     total_orders_percentage := snd r;
                     remaining := remaining_of (snd r) |})).
Proof.
intros Hrun Hne. unfold calculate_daily_orders. rewrite Hrun. simpl.
destruct totals; [congruence|reflexivity].
Qed.


